(** * RemitLend event indexer: a shallow embedding of [eventIndexer.ts]

    The development follows the TypeScript class [EventIndexer] method by
    method.  JavaScript values that the code lets flow untyped (the row
    object returned by the PostgreSQL driver, the [startLedger] computed
    from it) are modelled with a small universe of JS values; the Stellar
    SDK's [xdr.ScVal] is a tagged union whose accessors throw on the wrong
    arm and give [undefined] on a void one; the columns of the tables
    refuse what their types do not take; database access goes through a
    state-and-exception monad in which every call of [query] may fail. *)

From Stdlib Require Import ZArith Ascii String List Bool Lia DecimalString DecimalZ.
From stdpp Require Import base option list strings gmap.

Local Open Scope string_scope.
Local Open Scope Z_scope.

(** ** Exceptions *)

(** A computation either returns or throws (the payload is the message of
    the JS [Error]). *)
Inductive Exc (A : Type) : Type :=
| Ok (a : A)
| Throw (err : string).
Arguments Ok {A} a.
Arguments Throw {A} err.

Definition is_ok {A} (r : Exc A) : bool :=
  match r with Ok _ => true | Throw _ => false end.

(** Sequencing of expressions that may throw. *)
Definition and_then {A B} (r : Exc A) (k : A -> Exc B) : Exc B :=
  match r with
  | Ok a => k a
  | Throw err => Throw err
  end.

(** [try { body } catch { handler }] for a pure body. *)
Definition try_catch {A} (body : Exc A) (handler : string -> A) : A :=
  match body with
  | Ok a => a
  | Throw err => handler err
  end.

(** ** JavaScript values *)

Module Js.

(** The numbers met in the indexer are ledger sequence numbers (integers)
    and the one non-number that arithmetic on a missing property yields. *)
Inductive Number : Type :=
| Num (z : Z)
| NaN.

Inductive Value : Type :=
| Undefined
| Null
| NumV (n : Number)
| StrV (s : string).

(** A plain object, such as a result row of the [pg] driver: property
    names to values. *)
Abbreviation Object := (gmap string Value).

(** [o.k]: reading a property that the object lacks gives [undefined]. *)
Definition get (o : Object) (k : string) : Value :=
  default Undefined (o !! k).

Definition Z_toString (z : Z) : string :=
  NilZero.string_of_int (Z.to_int z).

Definition Number_toString (n : Number) : string :=
  match n with
  | Num z => Z_toString z
  | NaN => "NaN"
  end.

Definition ToString (v : Value) : string :=
  match v with
  | Undefined => "undefined"
  | Null => "null"
  | NumV n => Number_toString n
  | StrV s => s
  end.

(** [ToNumber] of [undefined], [null] and numbers.  A string operand
    never reaches it: [plus] concatenates as soon as it sees one. *)
Definition ToNumber (v : Value) : Number :=
  match v with
  | Undefined => NaN
  | Null => Num 0
  | NumV n => n
  | StrV _ => NaN
  end.

Definition add (a b : Number) : Number :=
  match a, b with
  | Num x, Num y => Num (x + y)
  | _, _ => NaN
  end.

(** The binary [+]: string concatenation as soon as one operand is a
    string, numeric addition otherwise. *)
Definition plus (a b : Value) : Value :=
  match a, b with
  | StrV _, _ | _, StrV _ => StrV (ToString a +:+ ToString b)
  | _, _ => NumV (add (ToNumber a) (ToNumber b))
  end.

(** Truthiness of a string and of an optional number, as used by the
    [x || null] parameters of the INSERT. *)
Definition truthy_string (s : string) : bool :=
  negb (String.eqb s "").

Definition truthy_number (z : Z) : bool :=
  negb (Z.eqb z 0).

(** [v.m()] for a [v] that may be [undefined] ([None]): calling a method
    of [undefined] throws. *)
Definition call {A B} (v : option A) (m : A -> B) : Exc B :=
  match v with
  | Some a => Ok (m a)
  | None => Throw "TypeError: Cannot read properties of undefined"
  end.

(** [s.toString()] of a string. *)
Definition String_toString (s : string) : string := s.

(** [o.toString()] of an object whose class defines no [toString]: the
    method is the one of [Object.prototype], whatever the object holds. *)
Definition Object_toString {A} (o : A) : string := "[object Object]".

End Js.

(** ** The SDK's [xdr.ScVal] *)

Module Xdr.

Inductive ScVal : Type :=
| scvBool (b : bool)
| scvVoid
| scvU32 (n : Z)
| scvI32 (n : Z)
| scvU64 (n : Z)
| scvI128 (v : Z)
| scvSymbol (s : string)
| scvString (s : string)
| scvAddress (strkey : string)
| scvLedgerKeyContractInstance.

(** The two arms of the union that carry no value. *)
Definition void_arm (x : ScVal) : bool :=
  match x with
  | scvVoid | scvLedgerKeyContractInstance => true
  | _ => false
  end.

(** What the accessors [address] and [i128] hand out: objects of the
    SDK's classes [xdr.ScAddress] and [xdr.Int128Parts]. *)
Inductive ScAddress : Type :=
| scAddress (strkey : string).

Inductive Int128Parts : Type :=
| int128Parts (v : Z).

(** The arm accessors of the union.  Each gives the value when the union
    is of its arm and throws when the union is of another arm that
    carries a value; on a union of a void arm no accessor throws: it
    gives [undefined] ([None]). *)
Definition sym (x : ScVal) : Exc (option string) :=
  match x with
  | scvSymbol s => Ok (Some s)
  | scvVoid | scvLedgerKeyContractInstance => Ok None
  | _ => Throw "TypeError: sym not set"
  end.

Definition address (x : ScVal) : Exc (option ScAddress) :=
  match x with
  | scvAddress a => Ok (Some (scAddress a))
  | scvVoid | scvLedgerKeyContractInstance => Ok None
  | _ => Throw "TypeError: address not set"
  end.

Definition i128 (x : ScVal) : Exc (option Int128Parts) :=
  match x with
  | scvI128 v => Ok (Some (int128Parts v))
  | scvVoid | scvLedgerKeyContractInstance => Ok None
  | _ => Throw "TypeError: i128 not set"
  end.

Definition u32 (x : ScVal) : Exc (option Z) :=
  match x with
  | scvU32 n => Ok (Some n)
  | scvVoid | scvLedgerKeyContractInstance => Ok None
  | _ => Throw "TypeError: u32 not set"
  end.

(** [x.toXDR("base64")]: the encoding is kept opaque; all that is used
    of it is that it is a function of the value. *)
Inductive Base64 : Type :=
| toXDR (x : ScVal).

End Xdr.

Import Xdr.

(** [new Date(s)], kept as the string it was built from. *)
Inductive Date : Type :=
| newDate (s : string).

(** ** Events *)

(** [rpc.Api.EventResponse], the raw event of the source. *)
Module EventResponse.
Record t : Type := mk {
  type : string;
  id : string;
  ledger : Z;
  ledgerClosedAt : string;
  txHash : string;
  contractId : option string;
  topic : list ScVal;
  value : ScVal
}.
End EventResponse.

Inductive EventType : Type :=
| LoanRequested
| LoanApproved
| LoanRepaid.

Definition EventType_toString (k : EventType) : string :=
  match k with
  | LoanRequested => "LoanRequested"
  | LoanApproved => "LoanApproved"
  | LoanRepaid => "LoanRepaid"
  end.

(** [interface LoanEvent].  The optional [loanId] is [None] when it reads
    [undefined], be it that the property was never set or that it was set
    to [undefined]: the indexer reads it only in [e.loanId || null]. *)
Module LoanEvent.
Record t : Type := mk {
  eventId : string;
  eventType : EventType;
  loanId : option Z;
  borrower : string;
  amount : option string;
  ledger : Z;
  ledgerClosedAt : Date;
  txHash : string;
  contractId : string;
  topics : list Base64;
  value : Base64
}.

Definition set_loanId (n : option Z) (e : t) : t :=
  mk (eventId e) (eventType e) n (borrower e) (amount e) (ledger e)
     (ledgerClosedAt e) (txHash e) (contractId e) (topics e) (value e).
End LoanEvent.

(** ** The decoder *)

Definition decodeEventType (x : ScVal) : option EventType :=
  try_catch
    (and_then (sym x) (fun v =>
     and_then (Js.call v Js.String_toString) (fun s =>
     Ok (if String.eqb s "LoanRequested" then Some LoanRequested
         else if String.eqb s "LoanApproved" then Some LoanApproved
         else if String.eqb s "LoanRepaid" then Some LoanRepaid
         else None))))
    (fun _ => None).

(** [x.address().toString()]: neither [xdr.ScAddress] nor
    [xdr.Int128Parts] defines a [toString]. *)
Definition decodeAddress (x : ScVal) : string :=
  try_catch
    (and_then (address x) (fun a => Js.call a Js.Object_toString))
    (fun _ => "").

Definition decodeAmount (x : ScVal) : string :=
  try_catch
    (and_then (i128 x) (fun parts => Js.call parts Js.Object_toString))
    (fun _ => "0").

(** Declared to return a [number]; on a void arm [x.u32()] is
    [undefined], and that is what is returned. *)
Definition decodeLoanId (x : ScVal) : option Z :=
  try_catch (u32 x) (fun _ => Some 0).

(** What one turn of the loop of [processEvents] does with its event:
    [continue] or [push]. *)
Inductive Turn : Type :=
| Continue
| Push (evt : LoanEvent.t).

(** The body of the [try] block for one raw event.  An absent topic array
    ([e.topic?.[0]]) reads like an empty one. *)
Definition processEvent (e : EventResponse.t) : Exc Turn :=
  if negb (String.eqb (EventResponse.type e) "contract") then Ok Continue
  else
    match EventResponse.topic e !! 0%nat,
          EventResponse.topic e !! 1%nat,
          EventResponse.contractId e with
    | Some t0, Some t1, Some cid =>
        match decodeEventType t0 with
        | None => Ok Continue
        | Some type =>
            let evt :=
              LoanEvent.mk
                (EventResponse.id e) type None (decodeAddress t1)
                (Some (decodeAmount (EventResponse.value e)))
                (EventResponse.ledger e)
                (newDate (EventResponse.ledgerClosedAt e))
                (EventResponse.txHash e) cid
                (map toXDR (EventResponse.topic e))
                (toXDR (EventResponse.value e)) in
            let evt :=
              match EventResponse.topic e !! 2%nat with
              | Some t2 => LoanEvent.set_loanId (decodeLoanId t2) evt
              | None => evt
              end in
            Ok (Push evt)
        end
    | _, _, _ => Ok Continue
    end.

(** [processEvents]: the loop pushes onto [result]; an exception of the
    body is caught (and logged) per event. *)
Definition processEvents (events : list EventResponse.t) : list LoanEvent.t :=
  fold_left
    (fun result e =>
       match processEvent e with
       | Ok (Push evt) => (result ++ [evt])%list
       | Ok Continue => result
       | Throw _ => result
       end)
    events [].

(** ** Column types

    What the column types of the migration take as the value of a
    parameter.  Strings are text of the database encoding, counted in
    characters. *)

Module Pg.

(** [integer]: four bytes, signed. *)
Definition int4 (z : Z) : bool :=
  (-2147483648 <=? z) && (z <=? 2147483647).

(** [varchar(n)]: at most [n] characters. *)
Definition varchar (n : nat) (s : string) : bool :=
  (String.length s <=? n)%nat.

Definition is_digit (c : ascii) : bool :=
  (48 <=? nat_of_ascii c)%nat && (nat_of_ascii c <=? 57)%nat.

(** The leading digits of a string: how many there are, and what
    follows them. *)
Fixpoint digits (s : string) : nat * string :=
  match s with
  | String c rest =>
      if is_digit c then let (n, r) := digits rest in (S n, r) else (O, s)
  | EmptyString => (O, s)
  end.

Definition skip_sign (s : string) : string :=
  match s with
  | String "+"%char rest | String "-"%char rest => rest
  | _ => s
  end.

(** [numeric], given as text: an optional sign, digits with at most one
    decimal point among them, an optional exponent.  (Blanks around the
    number and the words NaN and Infinity, which the server reads too,
    are left out; the decoder produces none of them.) *)
Definition numeric_in (s : string) : bool :=
  let (n1, s1) := digits (skip_sign s) in
  let (n2, s2) :=
    match s1 with
    | String "."%char rest => digits rest
    | _ => (O, s1)
    end in
  negb (Nat.eqb (n1 + n2) 0) &&
  match s2 with
  | EmptyString => true
  | String c rest =>
      (Ascii.eqb c "e"%char || Ascii.eqb c "E"%char) &&
      (let (n3, s3) := digits (skip_sign rest) in
       negb (Nat.eqb n3 0) && String.eqb s3 "")
  end.

(** A column that may be NULL. *)
Definition nullable {A} (type : A -> bool) (v : option A) : bool :=
  match v with
  | Some a => type a
  | None => true
  end.

End Pg.

(** ** The database

    The two tables of the migration [1771691269866_loan-events-schema.js].
    The serial [id] of [loan_events] is never read by the indexer (only the
    number of rows of [SELECT id ...] is) and is left out.  The [numeric]
    column [amount] is kept as the text it was given as; a close time is
    taken to be a date that [timestamp] stores. *)

Module Schema.

Record loan_events_row : Type := mk_loan_event {
  event_id : string;
  event_type : string;
  loan_id : option Z;
  borrower : string;
  amount : option string;
  ledger : Z;
  ledger_closed_at : Date;
  tx_hash : string;
  contract_id : string;
  topics : list Base64;
  value : Base64;
  created_at : Z
}.

Record indexer_state_row : Type := mk_indexer_state {
  id : Z;
  last_indexed_ledger : Z;
  last_indexed_cursor : option string;
  updated_at : Z
}.

Record Tables : Type := mk_tables {
  loan_events : list loan_events_row;
  indexer_state : list indexer_state_row
}.

(** [up]: both tables are created empty, then the initial state row is
    inserted with [last_indexed_ledger = 0]. *)
Definition up (now : Z) : Tables :=
  mk_tables [] [mk_indexer_state 1 0 None now].

(** [SELECT id FROM loan_events WHERE event_id = $1] *)
Definition select_event (eid : string) (t : Tables) : list loan_events_row :=
  List.filter (fun r => String.eqb (event_id r) eid) (loan_events t).

(** The values of a row that the column types of [loan_events] take:
    [varchar(255)], [varchar(50)], [integer] and [numeric] as the
    migration declares them. *)
Definition accepts (row : loan_events_row) : bool :=
  Pg.varchar 255 (event_id row) &&
  Pg.varchar 50 (event_type row) &&
  Pg.nullable Pg.int4 (loan_id row) &&
  Pg.varchar 255 (borrower row) &&
  Pg.nullable Pg.numeric_in (amount row) &&
  Pg.int4 (ledger row) &&
  Pg.varchar 255 (tx_hash row) &&
  Pg.varchar 255 (contract_id row).

(** [INSERT INTO loan_events ...]: a value that the type of its column
    does not take is refused; [event_id] is declared [unique], the
    insertion of a second row with the same [event_id] is refused. *)
Definition insert_event (row : loan_events_row) (t : Tables) : Exc Tables :=
  if negb (accepts row)
  then Throw "invalid input value for the type of the column"
  else if existsb (fun r => String.eqb (event_id r) (event_id row))
                  (loan_events t)
  then Throw "duplicate key value violates unique constraint"
  else Ok (mk_tables (loan_events t ++ [row])%list (indexer_state t)).

(** [... FROM indexer_state ORDER BY id DESC LIMIT 1] *)
Fixpoint latest (rows : list indexer_state_row) : option indexer_state_row :=
  match rows with
  | [] => None
  | r :: rest =>
      match latest rest with
      | Some r' => if id r <? id r' then Some r' else Some r
      | None => Some r
      end
  end.

(** The row object handed to JavaScript by the driver: its keys are the
    column names of the SELECT list. *)
Definition state_row_object (r : indexer_state_row) : Js.Object :=
  {[ "last_indexed_ledger" := Js.NumV (Js.Num (last_indexed_ledger r));
     "last_indexed_cursor" :=
       match last_indexed_cursor r with
       | Some c => Js.StrV c
       | None => Js.Null
       end ]}.

(** [SELECT last_indexed_ledger, last_indexed_cursor FROM indexer_state
    ORDER BY id DESC LIMIT 1] *)
Definition select_state (t : Tables) : list Js.Object :=
  match latest (indexer_state t) with
  | Some r => [state_row_object r]
  | None => []
  end.

(** [UPDATE indexer_state SET ... WHERE id = (SELECT id FROM indexer_state
    ORDER BY id DESC LIMIT 1)]: without a row nothing is updated. *)
Definition update_state (ledger : Z) (cursor : string) (now : Z) (t : Tables)
  : Tables :=
  match latest (indexer_state t) with
  | None => t
  | Some top =>
      mk_tables (loan_events t)
        (map (fun r =>
                if id r =? id top
                then mk_indexer_state (id r) ledger (Some cursor) now
                else r)
             (indexer_state t))
  end.

End Schema.

(** A connection: the committed tables, and the working copy of the open
    transaction if there is one.  What is durably stored is [committed]. *)
Module Db.

Record t : Type := mk {
  committed : Schema.Tables;
  tx : option Schema.Tables
}.

(** The tables a statement sees. *)
Definition view (d : t) : Schema.Tables :=
  default (committed d) (tx d).

(** A statement outside a transaction commits on its own. *)
Definition write (tbl : Schema.Tables) (d : t) : t :=
  match tx d with
  | Some _ => mk (committed d) (Some tbl)
  | None => mk tbl None
  end.

Definition idle (d : t) : Prop := tx d = None.

(** The connection is closed: the server rolls back the transaction that
    was open on it, if any. *)
Definition closed (d : t) : t := mk (committed d) None.

(** The statements of [eventIndexer.ts]; [now] is CURRENT_TIMESTAMP. *)
Definition BEGIN (now : Z) (d : t) : Exc (unit * t) :=
  match tx d with
  | Some _ => Ok (tt, d)
  | None => Ok (tt, mk (committed d) (Some (committed d)))
  end.

Definition COMMIT (now : Z) (d : t) : Exc (unit * t) :=
  Ok (tt, mk (view d) None).

Definition ROLLBACK (now : Z) (d : t) : Exc (unit * t) :=
  Ok (tt, mk (committed d) None).

Definition SELECT_event (eid : string) (now : Z) (d : t)
  : Exc (list Schema.loan_events_row * t) :=
  Ok (Schema.select_event eid (view d), d).

Definition INSERT_event (row : Z -> Schema.loan_events_row) (now : Z) (d : t)
  : Exc (unit * t) :=
  match Schema.insert_event (row now) (view d) with
  | Ok tbl => Ok (tt, write tbl d)
  | Throw err => Throw err
  end.

Definition SELECT_state (now : Z) (d : t) : Exc (list Js.Object * t) :=
  Ok (Schema.select_state (view d), d).

(** [last_indexed_ledger] is an [integer], [last_indexed_cursor] a
    [varchar(255)]. *)
Definition UPDATE_state (ledger : Z) (cursor : string) (now : Z) (d : t)
  : Exc (unit * t) :=
  if Pg.int4 ledger && Pg.varchar 255 cursor
  then Ok (tt, write (Schema.update_state ledger cursor now (view d)) d)
  else Throw "invalid input value for the type of the column".

End Db.

(** ** The RPC interface and the configuration *)

Module Rpc.

Record EventFilter : Type := mk_filter {
  filter_type : string;
  contractIds : list string
}.

Record GetEventsRequest : Type := mk_request {
  startLedger : Js.Value;
  filters : list EventFilter;
  limit : Z
}.

Record GetEventsResponse : Type := mk_response {
  events : option (list EventResponse.t);
  cursor : option string
}.

End Rpc.

Module IndexerConfig.
Record t : Type := mk {
  rpcUrl : string;
  contractId : string;
  pollIntervalMs : Z;
  batchSize : Z
}.
End IndexerConfig.

(** ** The world an [async] method runs in *)

(** [faults] says, call by call, which of the coming calls of [query] is
    rejected (an exhausted list means no more faults); [source] is the
    remote event source, asked for the n-th time; [requests] records what
    was sent to it. *)
Record World : Type := mkWorld {
  db : Db.t;
  faults : list bool;
  now : Z;
  source : nat -> Rpc.GetEventsRequest -> Exc Rpc.GetEventsResponse;
  requests : list Rpc.GetEventsRequest;
  log : list string
}.

Definition set_db (d : Db.t) (w : World) : World :=
  mkWorld d (faults w) (now w) (source w) (requests w) (log w).

Definition set_faults (f : list bool) (w : World) : World :=
  mkWorld (db w) f (now w) (source w) (requests w) (log w).

Definition set_requests (r : list Rpc.GetEventsRequest) (w : World) : World :=
  mkWorld (db w) (faults w) (now w) (source w) r (log w).

Definition set_log (l : list string) (w : World) : World :=
  mkWorld (db w) (faults w) (now w) (source w) (requests w) l.

(** State and exceptions. *)
Definition M (A : Type) : Type := World -> Exc A * World.

Definition ret {A} (a : A) : M A := fun w => (Ok a, w).

Definition throw {A} (err : string) : M A := fun w => (Throw err, w).

Definition bind {A B} (m : M A) (k : A -> M B) : M B :=
  fun w =>
    match m w with
    | (Ok a, w') => k a w'
    | (Throw err, w') => (Throw err, w')
    end.

Definition try_catchM {A} (body : M A) (handler : string -> M A) : M A :=
  fun w =>
    match body w with
    | (Ok a, w') => (Ok a, w')
    | (Throw err, w') => handler err w'
    end.

Notation "'let*' x ':=' c1 'in' c2" := (bind c1 (fun x => c2))
  (at level 10, x name, c1 at level 100, c2 at level 200).

(** [for (const x of l) { await body(x) }] *)
Fixpoint for_of {A} (l : list A) (body : A -> M unit) : M unit :=
  match l with
  | [] => ret tt
  | x :: rest => let* _ := body x in for_of rest body
  end.

(** [query] of [db/connection.ts]: the statement is handed to the pool,
    which may reject it.  A statement that runs and is refused by the
    server is an exception too; [pool.query] then gives the connection
    back with the error, which closes it. *)
Definition query {A} (stmt : Z -> Db.t -> Exc (A * Db.t)) : M A :=
  fun w =>
    match faults w with
    | true :: rest => (Throw "query rejected", set_faults rest w)
    | _ =>
        let w := set_faults (tail (faults w)) w in
        match stmt (now w) (db w) with
        | Ok (a, d) => (Ok a, set_db d w)
        | Throw err => (Throw err, set_db (Db.closed (db w)) w)
        end
    end.

Definition getEvents (req : Rpc.GetEventsRequest) : M Rpc.GetEventsResponse :=
  fun w =>
    (source w (length (requests w)) req,
     set_requests (requests w ++ [req])%list w).

Definition logger_error (msg : string) : M unit :=
  fun w => (Ok tt, set_log (log w ++ [msg])%list w).

(** ** Persistence: [storeEvents], [getIndexerState], [updateIndexerState] *)

(** [e.loanId || null] and [e.amount || null] *)
Definition number_or_null (v : option Z) : option Z :=
  match v with
  | Some n => if Js.truthy_number n then Some n else None
  | None => None
  end.

Definition string_or_null (v : option string) : option string :=
  match v with
  | Some s => if Js.truthy_string s then Some s else None
  | None => None
  end.

(** The parameter list of the INSERT ([created_at] takes its default). *)
Definition insert_params (e : LoanEvent.t) (now : Z) : Schema.loan_events_row :=
  Schema.mk_loan_event
    (LoanEvent.eventId e)
    (EventType_toString (LoanEvent.eventType e))
    (number_or_null (LoanEvent.loanId e))
    (LoanEvent.borrower e)
    (string_or_null (LoanEvent.amount e))
    (LoanEvent.ledger e)
    (LoanEvent.ledgerClosedAt e)
    (LoanEvent.txHash e)
    (LoanEvent.contractId e)
    (LoanEvent.topics e)
    (LoanEvent.value e)
    now.

(** The body of the loop of [storeEvents]. *)
Definition storeEvent (e : LoanEvent.t) : M unit :=
  let* ex := query (Db.SELECT_event (LoanEvent.eventId e)) in
  match ex with
  | _ :: _ => ret tt
  | [] => query (Db.INSERT_event (insert_params e))
  end.

Definition storeEvents (events : list LoanEvent.t) : M unit :=
  match events with
  | [] => ret tt
  | _ :: _ =>
      try_catchM
        (let* _ := query Db.BEGIN in
         let* _ := for_of events storeEvent in
         query Db.COMMIT)
        (fun err => let* _ := query Db.ROLLBACK in throw err)
  end.

(** The fallback of [getIndexerState] when the table has no row. *)
Definition default_state : Js.Object :=
  {[ "lastIndexedLedger" := Js.NumV (Js.Num 0);
     "lastIndexedCursor" := Js.Null ]}.

Definition getIndexerState : M Js.Object :=
  let* r := query Db.SELECT_state in
  ret (match r with
       | row :: _ => row
       | [] => default_state
       end).

Definition updateIndexerState (ledger : Z) (cursor : string) : M unit :=
  query (Db.UPDATE_state ledger cursor).

(** ** One cycle: [indexEvents] *)

(** [response.cursor || ""] *)
Definition cursor_or_empty (c : option string) : string :=
  match c with
  | Some s => if Js.truthy_string s then s else ""
  | None => ""
  end.

Definition request_of (config : IndexerConfig.t) (state : Js.Object)
  : Rpc.GetEventsRequest :=
  Rpc.mk_request
    (Js.plus (Js.get state "lastIndexedLedger") (Js.NumV (Js.Num 1)))
    [Rpc.mk_filter "contract" [IndexerConfig.contractId config]]
    (IndexerConfig.batchSize config).

Definition indexEvents (config : IndexerConfig.t) : M unit :=
  let* state := getIndexerState in
  let* response := getEvents (request_of config state) in
  match Rpc.events response with
  | None | Some [] => ret tt
  | Some raw =>
      let events := processEvents raw in
      let* _ := storeEvents events in
      match last raw with
      | Some l =>
          updateIndexerState (EventResponse.ledger l)
            (cursor_or_empty (Rpc.cursor response))
      | None => ret tt
      end
  end.

(** ** The poll loop *)

(** A timer armed by [setTimeout]; its callback is always
    [() => this.poll()]. *)
Record Timeout : Type := mkTimeout {
  timeout_id : nat;
  delay : Z
}.

(** The fields of the class instance, then the part of the Node.js
    runtime the instance lives in: the armed timers, the invocations of
    [poll] suspended at [await this.indexEvents()], and, for the record, how
    many times [indexEvents] was entered. *)
Record EventIndexer : Type := mkIndexer {
  config : IndexerConfig.t;
  isRunning : bool;
  pollTimeout : option nat;
  timers : list Timeout;
  next_timeout : nat;
  inflight : nat;
  cycles : nat;
  world : World
}.

Definition set_isRunning (b : bool) (s : EventIndexer) : EventIndexer :=
  mkIndexer (config s) b (pollTimeout s) (timers s) (next_timeout s)
            (inflight s) (cycles s) (world s).

Definition setTimeout (ms : Z) (s : EventIndexer) : nat * EventIndexer :=
  (next_timeout s,
   mkIndexer (config s) (isRunning s) (pollTimeout s)
             (timers s ++ [mkTimeout (next_timeout s) ms])%list
             (S (next_timeout s)) (inflight s) (cycles s) (world s)).

Definition clearTimeout (t : nat) (s : EventIndexer) : EventIndexer :=
  mkIndexer (config s) (isRunning s) (pollTimeout s)
            (List.filter (fun x => negb (Nat.eqb (timeout_id x) t)) (timers s))
            (next_timeout s) (inflight s) (cycles s) (world s).

Definition armed (t : nat) (s : EventIndexer) : bool :=
  existsb (fun x => Nat.eqb (timeout_id x) t) (timers s).

(** [try { await this.indexEvents(); } catch (error) { logger.error(...) }] *)
Definition cycle (cfg : IndexerConfig.t) : M unit :=
  try_catchM (indexEvents cfg) (fun _ => logger_error "Indexing error").

(** [poll] up to its [await]: the guard, then [indexEvents] is entered. *)
Definition poll_enter (s : EventIndexer) : EventIndexer :=
  if negb (isRunning s) then s
  else mkIndexer (config s) (isRunning s) (pollTimeout s) (timers s)
                 (next_timeout s) (S (inflight s)) (S (cycles s)) (world s).

(** [poll] from its [await] on: the cycle settles, whichever way, and the
    timer is armed again.  The awaits inside [indexEvents] are taken as
    one: nothing in [indexEvents] reads a field of the instance. *)
Definition poll_resume (s : EventIndexer) : EventIndexer :=
  let w := snd (cycle (config s) (world s)) in
  let s := mkIndexer (config s) (isRunning s) (pollTimeout s) (timers s)
                     (next_timeout s) (pred (inflight s)) (cycles s) w in
  let (t, s) := setTimeout (IndexerConfig.pollIntervalMs (config s)) s in
  mkIndexer (config s) (isRunning s) (Some t) (timers s) (next_timeout s)
            (inflight s) (cycles s) (world s).

(** [poll] run without anything else happening during its [await]. *)
Definition poll (s : EventIndexer) : EventIndexer :=
  if negb (isRunning s) then s else poll_resume (poll_enter s).

(** [start], up to the [await] of the first [poll]. *)
Definition start (s : EventIndexer) : EventIndexer :=
  if isRunning s then s
  else
    let s := set_isRunning true s in
    let s := mkIndexer (config s) (isRunning s) (pollTimeout s) (timers s)
               (next_timeout s) (inflight s) (cycles s)
               (set_log (log (world s) ++ ["Starting event indexer"])%list
                        (world s)) in
    poll_enter s.

Definition stop (s : EventIndexer) : EventIndexer :=
  let s := set_isRunning false s in
  match pollTimeout s with
  | Some t => clearTimeout t s
  | None => s
  end.

(** [new EventIndexer(config)] *)
Definition new_EventIndexer (cfg : IndexerConfig.t) (w : World) : EventIndexer :=
  mkIndexer cfg false None [] 0%nat 0%nat 0%nat w.

(** What can happen to an instance: a caller invokes [start] or [stop], an
    armed timer fires and calls [poll], the cycle in flight settles. *)
Inductive Action : Type :=
| CallStart
| CallStop
| Fire (t : nat)
| Settle.

Definition step (a : Action) (s : EventIndexer) : EventIndexer :=
  match a with
  | CallStart => start s
  | CallStop => stop s
  | Fire t => if armed t s then poll_enter (clearTimeout t s) else s
  | Settle =>
      match inflight s with
      | O => s
      | S _ => poll_resume s
      end
  end.

Definition run (acts : list Action) (s : EventIndexer) : EventIndexer :=
  fold_left (fun s a => step a s) acts s.

(** * Specification vocabulary *)

(** The events the guard of [processEvents] lets through with a kind tag
    that [decodeEventType] knows. *)
Definition recognised (e : EventResponse.t) (k : EventType) : Prop :=
  EventResponse.type e = "contract" /\
  (exists t0, EventResponse.topic e !! 0%nat = Some t0 /\
              decodeEventType t0 = Some k) /\
  is_Some (EventResponse.topic e !! 1%nat) /\
  is_Some (EventResponse.contractId e).

(** What one raw event contributes to the result. *)
Definition pushed (e : EventResponse.t) : list LoanEvent.t :=
  match processEvent e with
  | Ok (Push evt) => [evt]
  | _ => []
  end.

(** Reading a decimal numeral. *)
Definition parse_decimal (s : string) : option Z :=
  Z.of_int <$> NilZero.int_of_string s.


(** The number of rows of the event store with a given [event_id], and
    the constraint of the migration on that column. *)
Definition count_event (eid : string) (t : Schema.Tables) : nat :=
  length (Schema.select_event eid t).

Definition unique_event_ids (t : Schema.Tables) : Prop :=
  NoDup (map Schema.event_id (Schema.loan_events t)).

(** The effect on the tables of a batch that went through: each event in
    turn is inserted unless a row with its id is there. *)
Definition store_one (now : Z) (t : Schema.Tables) (e : LoanEvent.t)
  : Schema.Tables :=
  match Schema.select_event (LoanEvent.eventId e) t with
  | _ :: _ => t
  | [] =>
      Schema.mk_tables
        (Schema.loan_events t ++ [insert_params e now])%list
        (Schema.indexer_state t)
  end.

Definition store_all (now : Z) (events : list LoanEvent.t) (t : Schema.Tables)
  : Schema.Tables :=
  fold_left (store_one now) events t.

(** IndexerProgress as the store holds it: the latest row of
    [indexer_state], and 0 when there is none. *)
Definition lastLedger (t : Schema.Tables) : Z :=
  match Schema.latest (Schema.indexer_state t) with
  | Some r => Schema.last_indexed_ledger r
  | None => 0
  end.

Definition lastCursor (t : Schema.Tables) : option string :=
  match Schema.latest (Schema.indexer_state t) with
  | Some r => Schema.last_indexed_cursor r
  | None => None
  end.

(** The state object [getIndexerState] returns when its query goes
    through, and what the source answers to the request built from it. *)
Definition read_state (t : Schema.Tables) : Js.Object :=
  match Schema.select_state t with
  | row :: _ => row
  | [] => default_state
  end.

Definition answer (cfg : IndexerConfig.t) (w : World)
  : Exc Rpc.GetEventsResponse :=
  source w (length (requests w)) (request_of cfg (read_state (Db.view (db w)))).

(** What persistence leaves alone: the clock, the source, the record of
    requests and the log. *)
Definition same_env (w w' : World) : Prop :=
  now w' = now w /\ source w' = source w /\
  requests w' = requests w /\ log w' = log w.

(** What running a piece of persistence code from [w] can give: a return
    with a result and a database that satisfy [post], or an exception that
    leaves the committed tables alone. *)
Definition outcome {A} (post : A -> Db.t -> Prop) (w : World)
    (r : Exc A * World) : Prop :=
  same_env w (snd r) /\
  match fst r with
  | Ok a => post a (db (snd r))
  | Throw _ => Db.committed (db (snd r)) = Db.committed (db w)
  end.

(** The events whose row the column types of [loan_events] take. *)
Definition storable (e : LoanEvent.t) : bool :=
  Schema.accepts (insert_params e 0).

(** The world in which the answer of the source is received. *)
Definition after_fetch (cfg : IndexerConfig.t) (w : World) : World :=
  set_requests
    (requests w ++ [request_of cfg (read_state (Db.view (db w)))])%list
    (set_db (db w) (set_faults (tail (faults w)) w)).

(** Every way a cycle started from [w] can go; [r] is what [indexEvents]
    gives.  The last three cases are those of a non-empty raw batch [raw]
    whose last event is [l]: storing the events fails, storing succeeds
    ([storeEvents] returns) and the update of the state fails, both
    succeed. *)
Inductive CycleOutcome (cfg : IndexerConfig.t) (w : World)
    (r : Exc unit * World) : Prop :=
| state_read_failed :
    head (faults w) = Some true ->
    is_ok (fst r) = false ->
    db (snd r) = db w ->
    requests (snd r) = requests w ->
    log (snd r) = log w ->
    CycleOutcome cfg w r
| fetch_failed (err : string) :
    head (faults w) <> Some true ->
    answer cfg w = Throw err ->
    fst r = Throw err ->
    db (snd r) = db w ->
    log (snd r) = log w ->
    CycleOutcome cfg w r
| empty_batch (resp : Rpc.GetEventsResponse) :
    head (faults w) <> Some true ->
    answer cfg w = Ok resp ->
    Rpc.events resp = None \/ Rpc.events resp = Some [] ->
    fst r = Ok tt ->
    db (snd r) = db w ->
    log (snd r) = log w ->
    CycleOutcome cfg w r
| store_failed (resp : Rpc.GetEventsResponse) (raw : list EventResponse.t) :
    head (faults w) <> Some true ->
    answer cfg w = Ok resp ->
    Rpc.events resp = Some raw ->
    raw <> [] ->
    is_ok (fst r) = false ->
    Db.committed (db (snd r)) = Db.committed (db w) ->
    CycleOutcome cfg w r
| update_failed (resp : Rpc.GetEventsResponse) (raw : list EventResponse.t) :
    head (faults w) <> Some true ->
    answer cfg w = Ok resp ->
    Rpc.events resp = Some raw ->
    raw <> [] ->
    is_ok (fst r) = false ->
    db (snd r)
    = Db.mk (store_all (now w) (processEvents raw) (Db.committed (db w))) None ->
    fst (storeEvents (processEvents raw) (after_fetch cfg w)) = Ok tt ->
    CycleOutcome cfg w r
| cycle_done (resp : Rpc.GetEventsResponse) (raw : list EventResponse.t)
    (l : EventResponse.t) :
    head (faults w) <> Some true ->
    answer cfg w = Ok resp ->
    Rpc.events resp = Some raw ->
    last raw = Some l ->
    fst r = Ok tt ->
    db (snd r)
    = Db.mk
        (Schema.update_state (EventResponse.ledger l)
           (cursor_or_empty (Rpc.cursor resp)) (now w)
           (store_all (now w) (processEvents raw) (Db.committed (db w))))
        None ->
    fst (storeEvents (processEvents raw) (after_fetch cfg w)) = Ok tt ->
    CycleOutcome cfg w r.

(** A raw batch in ascending ledger order, as the source delivers it. *)
Definition ascending (raw : list EventResponse.t) : Prop :=
  forall i j ei ej,
    raw !! i = Some ei -> raw !! j = Some ej -> (i <= j)%nat ->
    EventResponse.ledger ei <= EventResponse.ledger ej.

(** The same batch stored [n] times in a row. *)
Fixpoint storeEvents_times (n : nat) (events : list LoanEvent.t) : M unit :=
  match n with
  | O => ret tt
  | S n => let* _ := storeEvents events in storeEvents_times n events
  end.

(** [n] attempts to store the same batch, each made whatever became of
    the one before. *)
Fixpoint storeEvents_attempts (n : nat) (events : list LoanEvent.t)
    (w : World) : World :=
  match n with
  | O => w
  | S n => storeEvents_attempts n events (snd (storeEvents events w))
  end.

(** The states of an instance that [start] was called on once: running,
    with either one cycle in flight and no timer, or no cycle in flight and
    the one timer that [pollTimeout] holds. *)
Definition single_loop (s : EventIndexer) : Prop :=
  isRunning s = true /\
  ((inflight s = 1%nat /\ timers s = []) \/
   (inflight s = 0%nat /\
    exists t, timers s
              = [mkTimeout t (IndexerConfig.pollIntervalMs (config s))] /\
              pollTimeout s = Some t)).

(** The timer that [poll] arms when the cycle of [s] settles. *)
Definition next_timer (s : EventIndexer) : Timeout :=
  mkTimeout (next_timeout s) (IndexerConfig.pollIntervalMs (config s)).

(** Raw events used as concrete inputs: the three kinds as the contract
    emits them (README, "Event Types"), and an event of another kind. *)
Module Sample.

Definition raw (id : string) (ledger : Z) (topic : list ScVal) (value : ScVal)
  : EventResponse.t :=
  EventResponse.mk "contract" id ledger "2024-01-15T10:30:00Z" "tx"
    (Some "CLOAN") topic value.

Definition requested : EventResponse.t :=
  raw "ev-100" 100
    [scvSymbol "LoanRequested"; scvAddress "GBORROWER"; scvU32 7]
    (scvI128 1000).

(** [LoanApproved] carries the loan id as its second topic and no value. *)
Definition approved : EventResponse.t :=
  raw "ev-101" 101 [scvSymbol "LoanApproved"; scvU32 7] scvVoid.

(** A repayment whose third topic is not a [u32]. *)
Definition repaid : EventResponse.t :=
  raw "ev-102" 102
    [scvSymbol "LoanRepaid"; scvAddress "GBORROWER"; scvString "seven"]
    (scvI128 250).

Definition unrelated : EventResponse.t :=
  raw "ev-103" 103 [scvSymbol "Transfer"; scvAddress "GBORROWER"] (scvI128 1).

(** An approval of loan [loan]. *)
Definition approval (id : string) (ledger : Z) (loan : Z) : EventResponse.t :=
  raw id ledger [scvSymbol "LoanApproved"; scvU32 loan] scvVoid.

(** A repayment with a third topic of the void arm. *)
Definition repaid_void : EventResponse.t :=
  raw "ev-104" 104
    [scvSymbol "LoanRepaid"; scvAddress "GBORROWER"; scvVoid]
    (scvI128 250).

(** A request whose loan id does not fit an [integer] column, with no
    amount. *)
Definition requested_big : EventResponse.t :=
  raw "ev-105" 105
    [scvSymbol "LoanRequested"; scvAddress "GBORROWER"; scvU32 3000000000]
    scvVoid.

End Sample.

(** Worlds used as concrete inputs: the database right after the
    migration, a source with a fixed answer. *)
Module SampleWorld.

Definition cfg : IndexerConfig.t :=
  IndexerConfig.mk "https://soroban-testnet.stellar.org" "CLOAN" 30000 100.

Definition answering (resp : Exc Rpc.GetEventsResponse)
  : nat -> Rpc.GetEventsRequest -> Exc Rpc.GetEventsResponse :=
  fun _ _ => resp.

Definition make (t : Schema.Tables) (faults : list bool)
    (resp : Exc Rpc.GetEventsResponse) : World :=
  mkWorld (Db.mk t None) faults 1700000000 (answering resp) [] [].

Definition batch : list EventResponse.t :=
  [Sample.requested; Sample.approved; Sample.repaid].

(** Three approvals, at ledgers 100 to 102. *)
Definition approvals : list EventResponse.t :=
  [Sample.approval "ap-100" 100 7; Sample.approval "ap-101" 101 8;
   Sample.approval "ap-102" 102 9].

Definition delivered (raw : list EventResponse.t) : Exc Rpc.GetEventsResponse :=
  Ok (Rpc.mk_response (Some raw) (Some "cursor-1")).

Definition fresh (faults : list bool) (raw : list EventResponse.t) : World :=
  make (Schema.up 0) faults (delivered raw).

End SampleWorld.

(** * Beyond the cycle: rejected queries, the manager, the status endpoint *)

(** How many of the coming calls of [query] the schedule rejects. *)
Definition rejections (w : World) : nat :=
  length (List.filter (fun b : bool => b) (faults w)).

(** A piece of code that never adds to the schedule, and whose exception
    has either used up a rejection or comes from the server, which leaves
    no transaction open. *)
Definition spends {A} (w : World) (r : Exc A * World) : Prop :=
  (rejections (snd r) <= rejections w)%nat /\
  match fst r with
  | Ok _ => True
  | Throw _ =>
      (rejections (snd r) < rejections w)%nat \/ Db.idle (db (snd r))
  end.

(** ** The manager: [indexerManager.ts]

    The module keeps one instance in [indexerInstance].  An instance that
    [stopIndexer] has let go of is still there for the runtime: its cycle
    in flight settles, its timer fires.  So the process is modelled with
    all the instances ever built, each with the fields of the class, over
    one world that they share. *)

(** [process.env], as far as the manager reads it. *)
Module Env.
Record t : Type := mk {
  STELLAR_RPC_URL : option string;
  LOAN_MANAGER_CONTRACT_ID : option string;
  INDEXER_POLL_INTERVAL_MS : option string;
  INDEXER_BATCH_SIZE : option string
}.
End Env.

(** [process.env.X || d] *)
Definition env_or (v : option string) (d : string) : string :=
  match v with
  | Some s => if Js.truthy_string s then s else d
  | None => d
  end.

Record Process : Type := mkProcess {
  indexerInstance : option nat;
  instances : list EventIndexer;
  pworld : World
}.

(** An instance acts on the world of the process. *)
Definition set_world (w : World) (s : EventIndexer) : EventIndexer :=
  mkIndexer (config s) (isRunning s) (pollTimeout s) (timers s)
            (next_timeout s) (inflight s) (cycles s) w.

(** [logger.warn] and [logger.info] of the manager. *)
Definition process_log (msg : string) (p : Process) : Process :=
  mkProcess (indexerInstance p) (instances p)
            (set_log (log (pworld p) ++ [msg])%list (pworld p)).

Definition contract_id_not_set : string :=
  "LOAN_MANAGER_CONTRACT_ID not set, indexer will not start. Set this environment variable to enable event indexing.".

Section Manager.

(** The global [parseInt], taken as it is. *)
Variable parseInt : string -> Js.Number.

(** [startIndexer].  The class is modelled for an interval and a batch
    size that are numbers: the result is [None] when the instance would be
    built with [NaN] for one of them, a configuration that
    [IndexerConfig.t] cannot hold. *)
Definition startIndexer (env : Env.t) (p : Process) : option Process :=
  match indexerInstance p with
  | Some _ => Some (process_log "Indexer already running" p)
  | None =>
      let rpcUrl :=
        env_or (Env.STELLAR_RPC_URL env) "https://soroban-testnet.stellar.org" in
      let contractId := Env.LOAN_MANAGER_CONTRACT_ID env in
      let pollIntervalMs :=
        parseInt (env_or (Env.INDEXER_POLL_INTERVAL_MS env) "30000") in
      let batchSize := parseInt (env_or (Env.INDEXER_BATCH_SIZE env) "100") in
      if negb (Js.truthy_string (default "" contractId))
      then Some (process_log contract_id_not_set p)
      else
        match pollIntervalMs, batchSize with
        | Js.Num ms, Js.Num n =>
            let s :=
              start (new_EventIndexer
                       (IndexerConfig.mk rpcUrl (default "" contractId) ms n)
                       (pworld p)) in
            Some (process_log "Event indexer initialized"
                    (mkProcess (Some (length (instances p)))
                               (instances p ++ [s])%list (world s)))
        | _, _ => None
        end
  end.

Definition stopIndexer (p : Process) : Process :=
  match indexerInstance p with
  | Some i =>
      process_log "Event indexer stopped"
        (mkProcess None
           (alter (fun s => stop (set_world (pworld p) s)) i (instances p))
           (pworld p))
  | None => p
  end.

Definition getIndexer (p : Process) : option EventIndexer :=
  match indexerInstance p with
  | Some i => instances p !! i
  | None => None
  end.

(** What the runtime does with instance [i]: one of its timers fires, or
    its cycle in flight settles.  The instance acts on the shared world. *)
Inductive RuntimeEvent : Type :=
| TimerFires (t : nat)
| CycleSettles.

Definition action_of (ev : RuntimeEvent) : Action :=
  match ev with
  | TimerFires t => Fire t
  | CycleSettles => Settle
  end.

Definition on_instance (i : nat) (ev : RuntimeEvent) (p : Process) : Process :=
  match instances p !! i with
  | Some s =>
      let s' := step (action_of ev) (set_world (pworld p) s) in
      mkProcess (indexerInstance p) (<[i := s']> (instances p)) (world s')
  | None => p
  end.

Inductive ProcessAction : Type :=
| StartIndexer (env : Env.t)
| StopIndexer
| OnInstance (i : nat) (ev : RuntimeEvent).

Definition process_step (a : ProcessAction) (p : Process) : option Process :=
  match a with
  | StartIndexer env => startIndexer env p
  | StopIndexer => Some (stopIndexer p)
  | OnInstance i ev => Some (on_instance i ev p)
  end.

Fixpoint process_run (acts : list ProcessAction) (p : Process)
  : option Process :=
  match acts with
  | [] => Some p
  | a :: rest =>
      match process_step a p with
      | Some p' => process_run rest p'
      | None => None
      end
  end.

End Manager.

(** The process before [startIndexer] was ever called. *)
Definition boot (w : World) : Process := mkProcess None [] w.

(** A stand-in for [parseInt] on plain decimal numerals, for concrete
    runs. *)
Definition parseInt_decimal (s : string) : Js.Number :=
  match parse_decimal s with
  | Some z => Js.Num z
  | None => Js.NaN
  end.

(** An environment that sets only the contract id. *)
Definition env_with_contract (cid : string) : Env.t :=
  Env.mk None (Some cid) None None.

(** What holds of a process at all times: the manager's index is that of
    an instance, and an instance that is running is the one the manager
    holds and has a single loop. *)
Definition one_running (p : Process) : Prop :=
  (forall i, indexerInstance p = Some i -> (i < length (instances p))%nat) /\
  (forall j s, instances p !! j = Some s -> isRunning s = true ->
     indexerInstance p = Some j /\ single_loop s).

(** Every [startIndexer] of a list of actions is without a contract id. *)
Definition without_contract_id (acts : list ProcessAction) : Prop :=
  forall env, StartIndexer env ∈ acts ->
    Env.LOAN_MANAGER_CONTRACT_ID env = None \/
    Env.LOAN_MANAGER_CONTRACT_ID env = Some "".

(** ** The status endpoint: [getIndexerStatus] of [indexerController.ts] *)

(** What a handler sends: [res.status(c).json({success, message, data})];
    [res.json] alone sends 200. *)
Module Http.
Record Response (A : Type) : Type := mk {
  statusCode : Z;
  success : bool;
  message : option string;
  data : option A
}.
Arguments mk {A} _ _ _ _.
Arguments statusCode {A} _.
Arguments success {A} _.
Arguments message {A} _.
Arguments data {A} _.
End Http.

(** The three statements of the handler.  The driver hands a [bigint],
    such as COUNT, to JavaScript as its decimal numeral. *)
Module StatusSql.

(** [SELECT last_indexed_ledger, last_indexed_cursor, updated_at FROM
    indexer_state ORDER BY id DESC LIMIT 1]: the handler reads the three
    columns under the names they are selected with. *)
Definition SELECT_state (now : Z) (d : Db.t)
  : Exc (list Schema.indexer_state_row * Db.t) :=
  Ok (match Schema.latest (Schema.indexer_state (Db.view d)) with
      | Some r => [r]
      | None => []
      end, d).

Definition rows_of_type (ty : string) (t : Schema.Tables)
  : list Schema.loan_events_row :=
  List.filter (fun r => String.eqb (Schema.event_type r) ty)
              (Schema.loan_events t).

Definition count_numeral {A} (l : list A) : string :=
  Js.Z_toString (Z.of_nat (length l)).

(** [SELECT event_type, COUNT( * ) as count FROM loan_events GROUP BY
    event_type]: one row per type that occurs.  SQL leaves the order of
    the groups open; here it is that of first occurrence. *)
Definition SELECT_counts (now : Z) (d : Db.t)
  : Exc (list (string * string) * Db.t) :=
  Ok (map (fun ty => (ty, count_numeral (rows_of_type ty (Db.view d))))
          (remove_dups (map Schema.event_type
                            (Schema.loan_events (Db.view d)))),
      d).

(** [SELECT COUNT( * ) as total FROM loan_events]: always one row. *)
Definition SELECT_total (now : Z) (d : Db.t) : Exc (string * Db.t) :=
  Ok (count_numeral (Schema.loan_events (Db.view d)), d).

End StatusSql.

(** The [data] of the status response. *)
Record IndexerStatus : Type := mkStatus {
  lastIndexedLedger : Z;
  lastIndexedCursor : option string;
  lastUpdated : Z;
  totalEvents : Js.Number;
  eventsByType : gmap string Js.Number
}.

Section Controller.

Variable parseInt : string -> Js.Number.

(** [eventCounts.rows.reduce((acc, row) => { acc[row.event_type] =
    parseInt(row.count); return acc; }, {})] *)
Definition reduce_counts (rows : list (string * string))
  : gmap string Js.Number :=
  fold_left (fun acc row => <[fst row := parseInt (snd row)]> acc) rows ∅.

Definition getIndexerStatus : M (Http.Response IndexerStatus) :=
  try_catchM
    (let* result := query StatusSql.SELECT_state in
     match result with
     | [] =>
         ret (Http.mk 404 false (Some "Indexer state not found") None)
     | state :: _ =>
         let* eventCounts := query StatusSql.SELECT_counts in
         let* totalEvents := query StatusSql.SELECT_total in
         ret (Http.mk 200 true None
                (Some (mkStatus
                         (Schema.last_indexed_ledger state)
                         (Schema.last_indexed_cursor state)
                         (Schema.updated_at state)
                         (parseInt totalEvents)
                         (reduce_counts eventCounts))))
     end)
    (fun _ =>
       let* _ := logger_error "Failed to get indexer status" in
       ret (Http.mk 500 false (Some "Failed to get indexer status") None)).

End Controller.

(** The event types the indexer writes. *)
Definition known_types (t : Schema.Tables) : Prop :=
  Forall (fun r => exists k, Schema.event_type r = EventType_toString k)
         (Schema.loan_events t).

(** What the counts by type add up to over the three types. *)
Definition count_of (m : gmap string Js.Number) (k : EventType) : Z :=
  match m !! EventType_toString k with
  | Some (Js.Num n) => n
  | _ => 0
  end.

(** ** The database over many cycles *)

(** What every row written by the indexer looks like: a kind of the three,
    an amount that is not NULL and not empty, a loan id that is not 0. *)
Definition written_by_indexer (r : Schema.loan_events_row) : Prop :=
  (exists k, Schema.event_type r = EventType_toString k) /\
  (exists s, Schema.amount r = Some s /\ s <> "") /\
  Schema.loan_id r <> Some 0.

(** [n] cycles one after the other, as the poll loop runs them: the
    outcome of a cycle does not matter to the next. *)
Fixpoint cycles_of (n : nat) (cfg : IndexerConfig.t) (w : World) : World :=
  match n with
  | O => w
  | S n => cycles_of n cfg (snd (cycle cfg w))
  end.

(** The database as the migration leaves it and as cycles keep it. *)
Definition sound_tables (t : Schema.Tables) : Prop :=
  unique_event_ids t /\
  Forall written_by_indexer (Schema.loan_events t) /\
  exists ledger cursor updated,
    Schema.indexer_state t = [Schema.mk_indexer_state 1 ledger cursor updated].
(** * Properties *)

(** ** The decoder *)

Lemma processEvents_acc (l : list EventResponse.t) (acc : list LoanEvent.t) :
  fold_left
    (fun result e =>
       match processEvent e with
       | Ok (Push evt) => (result ++ [evt])%list
       | Ok Continue => result
       | Throw _ => result
       end) l acc
  = (acc ++ processEvents l)%list.
Proof.
  unfold processEvents. revert acc.
  induction l as [|e l IH]; intros acc; simpl.
  - by rewrite app_nil_r.
  - destruct (processEvent e) as [[|evt]|]; simpl; try apply IH.
    rewrite IH, (IH [evt]). by rewrite app_assoc.
Qed.

Lemma processEvents_cons (e : EventResponse.t) (l : list EventResponse.t) :
  processEvents (e :: l) = (pushed e ++ processEvents l)%list.
Proof.
  unfold processEvents at 1. simpl. rewrite processEvents_acc.
  unfold pushed. by destruct (processEvent e) as [[|evt]|].
Qed.

Lemma processEvents_app (l1 l2 : list EventResponse.t) :
  processEvents (l1 ++ l2) = (processEvents l1 ++ processEvents l2)%list.
Proof.
  induction l1 as [|e l1 IH]; [done|].
  simpl. rewrite !processEvents_cons, IH. by rewrite app_assoc.
Qed.

Lemma processEvent_never_throws (e : EventResponse.t) :
  is_ok (processEvent e) = true.
Proof.
  unfold processEvent.
  repeat (case_match; simpl; try reflexivity).
Qed.

(** The event built from a recognised raw event. *)
Lemma processEvent_recognised (e : EventResponse.t) (k : EventType) :
  recognised e k ->
  exists t1 cid,
    EventResponse.topic e !! 1%nat = Some t1 /\
    EventResponse.contractId e = Some cid /\
    processEvent e =
      Ok (Push
            (let evt :=
               LoanEvent.mk
                 (EventResponse.id e) k None (decodeAddress t1)
                 (Some (decodeAmount (EventResponse.value e)))
                 (EventResponse.ledger e)
                 (newDate (EventResponse.ledgerClosedAt e))
                 (EventResponse.txHash e) cid
                 (map toXDR (EventResponse.topic e))
                 (toXDR (EventResponse.value e)) in
             match EventResponse.topic e !! 2%nat with
             | Some t2 => LoanEvent.set_loanId (decodeLoanId t2) evt
             | None => evt
             end)).
Proof.
  intros (Hty & (t0 & Ht0 & Hk) & [t1 Ht1] & [cid Hcid]).
  exists t1, cid. repeat split; try done.
  unfold processEvent. rewrite Hty, Ht0, Ht1, Hcid, Hk. reflexivity.
Qed.

Lemma processEvent_push_recognised (e : EventResponse.t) (evt : LoanEvent.t) :
  processEvent e = Ok (Push evt) -> recognised e (LoanEvent.eventType evt).
Proof.
  unfold processEvent, recognised.
  destruct (String.eqb_spec (EventResponse.type e) "contract") as [Hty|];
    simpl; [|done].
  destruct (EventResponse.topic e !! 0%nat) as [t0|] eqn:Ht0; [|done].
  destruct (EventResponse.topic e !! 1%nat) as [t1|] eqn:Ht1; [|done].
  destruct (EventResponse.contractId e) as [cid|] eqn:Hcid; [|done].
  destruct (decodeEventType t0) as [k|] eqn:Hk; [|done].
  destruct (EventResponse.topic e !! 2%nat); intros [= <-]; simpl;
    repeat split; eauto.
Qed.

Lemma Z_toString_exact (v : Z) : parse_decimal (Js.Z_toString v) = Some v.
Proof.
  unfold parse_decimal, Js.Z_toString.
  rewrite NilZero.isi.
  - simpl. by rewrite DecimalZ.of_to.
  - destruct v as [|p|p]; simpl; try discriminate.
    intros [= H]. by apply (DecimalPos.Unsigned.to_uint_nonnil p).
  - destruct v as [|p|p]; simpl; try discriminate.
    intros [= H]. by apply (DecimalPos.Unsigned.to_uint_nonnil p).
Qed.

(** What the three value decoders give, arm by arm. *)
Lemma decodeAddress_arms (x : ScVal) :
  decodeAddress x
  = match x with
    | scvAddress _ => "[object Object]"
    | _ => ""
    end.
Proof. by destruct x. Qed.

Lemma decodeAmount_arms (x : ScVal) :
  decodeAmount x
  = match x with
    | scvI128 _ => "[object Object]"
    | _ => "0"
    end.
Proof. by destruct x. Qed.

Lemma decodeLoanId_arms (x : ScVal) :
  decodeLoanId x
  = match x with
    | scvU32 n => Some n
    | scvVoid | scvLedgerKeyContractInstance => None
    | _ => Some 0
    end.
Proof. by destruct x. Qed.

(** An event that is pushed takes its place in the result of the batch. *)
Lemma processEvents_at (before after : list EventResponse.t)
    (e : EventResponse.t) (evt : LoanEvent.t) :
  processEvent e = Ok (Push evt) ->
  processEvents (before ++ e :: after)
  = (processEvents before ++ evt :: processEvents after)%list.
Proof.
  intros Hpe. rewrite processEvents_app, processEvents_cons.
  unfold pushed. by rewrite Hpe.
Qed.

(** What the decoder copies from the raw event into the event it emits,
    and what it decodes. *)
Lemma processEvent_copies (e : EventResponse.t) (evt : LoanEvent.t) :
  processEvent e = Ok (Push evt) ->
  LoanEvent.eventId evt = EventResponse.id e /\
  LoanEvent.ledger evt = EventResponse.ledger e /\
  LoanEvent.ledgerClosedAt evt = newDate (EventResponse.ledgerClosedAt e) /\
  LoanEvent.txHash evt = EventResponse.txHash e /\
  EventResponse.contractId e = Some (LoanEvent.contractId evt) /\
  LoanEvent.topics evt = map toXDR (EventResponse.topic e) /\
  LoanEvent.value evt = toXDR (EventResponse.value e) /\
  LoanEvent.amount evt = Some (decodeAmount (EventResponse.value e)) /\
  LoanEvent.loanId evt = EventResponse.topic e !! 2%nat ≫= decodeLoanId /\
  Some (LoanEvent.borrower evt)
  = decodeAddress <$> EventResponse.topic e !! 1%nat.
Proof.
  intros Hpe.
  pose proof (processEvent_push_recognised e evt Hpe) as Hrec.
  destruct (processEvent_recognised e _ Hrec)
    as (t1 & cid & Ht1 & Hcid & Hpe').
  rewrite Hpe in Hpe'. injection Hpe' as ->. rewrite Ht1.
  destruct (EventResponse.topic e !! 2%nat); simpl; by repeat split.
Qed.

(** C4, as stated, does not hold: the [LoanApproved] event of the contract
    has a loan id, not an address, as its second topic; [decodeAddress]
    fails on it, and yet the decoder emits an event for it. *)
Lemma C4_counterexample :
  EventResponse.topic Sample.approved !! 1%nat = Some (scvU32 7) /\
  is_ok (address (scvU32 7)) = false /\
  processEvents [Sample.approved] <> [] /\
  map LoanEvent.borrower (processEvents [Sample.approved]) = [""].
Proof. repeat split; try reflexivity. discriminate. Qed.

(** C4, amended: for a raw event that passes the guard and has a known
    kind, a second topic that does not decode as an address (a value of
    any other arm) is no failure: [decodeAddress] catches the exception,
    the event is emitted with the empty string as borrower, and the rest of
    the batch is processed. *)
Theorem C4_address_failure_keeps_event
    (e : EventResponse.t) (k : EventType) (t1 : ScVal)
    (rest : list EventResponse.t) :
  recognised e k ->
  EventResponse.topic e !! 1%nat = Some t1 ->
  (forall a, t1 <> scvAddress a) ->
  exists evt,
    processEvent e = Ok (Push evt) /\
    LoanEvent.eventId evt = EventResponse.id e /\
    LoanEvent.eventType evt = k /\
    LoanEvent.borrower evt = "" /\
    processEvents (e :: rest) = evt :: processEvents rest.
Proof.
  intros Hrec Ht1 Hfail.
  destruct (processEvent_recognised e k Hrec) as (t1' & cid & Ht1' & _ & Hpe).
  rewrite Ht1 in Ht1'. injection Ht1' as <-.
  eexists. split; [exact Hpe|].
  assert (Hb : decodeAddress t1 = "").
  { rewrite decodeAddress_arms. destruct t1; try done. by destruct (Hfail strkey). }
  rewrite processEvents_cons. unfold pushed. rewrite Hpe.
  destruct (EventResponse.topic e !! 2%nat); simpl; by rewrite Hb.
Qed.

Lemma C4_address_failure_keeps_event_witness :
  exists evt,
    processEvent Sample.approved = Ok (Push evt) /\
    LoanEvent.eventId evt = EventResponse.id Sample.approved /\
    LoanEvent.eventType evt = LoanApproved /\
    LoanEvent.borrower evt = "" /\
    processEvents [Sample.approved; Sample.repaid]
    = evt :: processEvents [Sample.repaid].
Proof.
  apply (C4_address_failure_keeps_event
           Sample.approved LoanApproved (scvU32 7) [Sample.repaid]).
  - repeat split; simpl; eauto.
  - reflexivity.
  - discriminate.
Defined.

(** C5, as stated, does not hold: the payload of [Sample.approved] is
    void, not an [i128], and the amount of the event is the string "0",
    not [undefined]. *)
Lemma C5_counterexample :
  EventResponse.value Sample.approved = scvVoid /\
  map LoanEvent.amount (processEvents [Sample.approved]) = [Some "0"] /\
  map LoanEvent.amount (processEvents [Sample.approved]) <> [None].
Proof. repeat split; try reflexivity. discriminate. Qed.

(** C5, amended: wherever it stands in the batch, a raw event that the
    decoder accepts is emitted with an amount that is a string; and when
    its payload does not decode as an [i128] (it is a value of any other
    arm), that string is "0". *)
Theorem C5_amount_is_zero_string_on_decode_failure
    (before after : list EventResponse.t) (e : EventResponse.t)
    (k : EventType) :
  recognised e k ->
  exists evt,
    processEvents (before ++ e :: after)
    = (processEvents before ++ evt :: processEvents after)%list /\
    LoanEvent.eventId evt = EventResponse.id e /\
    LoanEvent.eventType evt = k /\
    (exists s, LoanEvent.amount evt = Some s) /\
    ((forall v, EventResponse.value e <> scvI128 v) ->
     LoanEvent.amount evt = Some "0").
Proof.
  intros Hrec.
  destruct (processEvent_recognised e k Hrec) as (t1 & cid & _ & _ & Hpe).
  eexists. split; [by apply processEvents_at|].
  destruct (EventResponse.topic e !! 2%nat); simpl;
    (repeat split; [eauto|]); intros Hno; rewrite decodeAmount_arms;
    destruct (EventResponse.value e); try done; by destruct (Hno v).
Qed.

Lemma C5_amount_is_zero_string_on_decode_failure_witness :
  exists evt,
    processEvents ([Sample.requested] ++ Sample.approved :: [Sample.repaid])
    = (processEvents [Sample.requested]
         ++ evt :: processEvents [Sample.repaid])%list /\
    LoanEvent.eventId evt = "ev-101" /\
    LoanEvent.eventType evt = LoanApproved /\
    (exists s, LoanEvent.amount evt = Some s) /\
    ((forall v, scvVoid <> scvI128 v) -> LoanEvent.amount evt = Some "0").
Proof.
  apply (C5_amount_is_zero_string_on_decode_failure
           [Sample.requested] [Sample.repaid] Sample.approved LoanApproved).
  repeat split; simpl; eauto.
Defined.

(** C10 on the code: a third topic of a void arm is present and is not a
    [u32], yet [decodeLoanId] does not fall back to 0 on it: the accessor
    gives [undefined] without throwing, and the event is emitted, wherever
    it stands in the batch, with a [loanId] that reads [undefined]. *)
Theorem C10_loanId_undefined_on_void_topic
    (before after : list EventResponse.t) (e : EventResponse.t)
    (k : EventType) (t2 : ScVal) :
  recognised e k ->
  EventResponse.topic e !! 2%nat = Some t2 ->
  void_arm t2 = true ->
  exists evt,
    processEvents (before ++ e :: after)
    = (processEvents before ++ evt :: processEvents after)%list /\
    LoanEvent.eventId evt = EventResponse.id e /\
    is_ok (u32 t2) = true /\
    LoanEvent.loanId evt = None /\
    LoanEvent.loanId evt <> Some 0.
Proof.
  intros Hrec Ht2 Hvoid.
  destruct (processEvent_recognised e k Hrec) as (t1 & cid & _ & _ & Hpe).
  eexists. split; [by apply processEvents_at|].
  rewrite Ht2. simpl. rewrite decodeLoanId_arms.
  by destruct t2.
Qed.

Lemma C10_loanId_undefined_on_void_topic_witness :
  exists evt,
    processEvents ([Sample.approved] ++ Sample.repaid_void :: [])
    = (processEvents [Sample.approved] ++ evt :: processEvents [])%list /\
    LoanEvent.eventId evt = "ev-104" /\
    is_ok (u32 scvVoid) = true /\
    LoanEvent.loanId evt = None /\
    LoanEvent.loanId evt <> Some 0.
Proof.
  apply (C10_loanId_undefined_on_void_topic
           [Sample.approved] [] Sample.repaid_void LoanRepaid scvVoid).
  - repeat split; simpl; eauto.
  - reflexivity.
  - reflexivity.
Defined.

(** ** Persistence *)

Lemma select_event_nil (eid : string) (t : Schema.Tables) :
  Schema.select_event eid t = [] <->
  existsb (fun r => String.eqb (Schema.event_id r) eid) (Schema.loan_events t)
  = false.
Proof.
  unfold Schema.select_event.
  induction (Schema.loan_events t) as [|r l IH]; simpl; [done|].
  destruct (String.eqb (Schema.event_id r) eid); simpl; [split; discriminate|].
  exact IH.
Qed.

Lemma same_env_refl (w : World) : same_env w w.
Proof. by repeat split. Qed.

Lemma same_env_trans (w1 w2 w3 : World) :
  same_env w1 w2 -> same_env w2 w3 -> same_env w1 w3.
Proof.
  intros (?&?&?&?) (?&?&?&?). repeat split; congruence.
Qed.

Lemma query_outcome {A} (stmt : Z -> Db.t -> Exc (A * Db.t)) (w : World)
    (post : A -> Db.t -> Prop) :
  (forall a d, stmt (now w) (db w) = Ok (a, d) -> post a d) ->
  outcome post w (query stmt w).
Proof.
  intros Hpost. unfold outcome, query.
  destruct (faults w) as [|[] rest] eqn:Hf; simpl;
    try (destruct (stmt (now w) (db w)) as [[a d]|err] eqn:Hstmt; simpl);
    repeat split; try done; by apply Hpost.
Qed.

Lemma ret_outcome {A} (a : A) (w : World) (post : A -> Db.t -> Prop) :
  post a (db w) -> outcome post w (ret a w).
Proof. intros H. split; [apply same_env_refl|]. done. Qed.

(** Sequencing, as long as the first part stays inside its transaction. *)
Lemma bind_outcome {A B} (m : M A) (k : A -> M B) (w : World)
    (P : A -> Db.t -> Prop) (Q : B -> Db.t -> Prop) :
  outcome P w (m w) ->
  (forall a d, P a d -> Db.committed d = Db.committed (db w)) ->
  (forall a w1, same_env w w1 -> P a (db w1) -> outcome Q w1 (k a w1)) ->
  outcome Q w (bind m k w).
Proof.
  intros Hm Hin Hk. unfold bind.
  destruct (m w) as [[a|err] w1]; destruct Hm as (Henv & Hm); simpl in *.
  - specialize (Hk a w1 Henv Hm). destruct Hk as (Henv' & Hk).
    split; [by eapply same_env_trans|].
    destruct (fst (k a w1)); [done|].
    rewrite Hk. by eapply Hin.
  - done.
Qed.

Lemma storeEvent_outcome (e : LoanEvent.t) (w : World) (t : Schema.Tables) :
  Db.tx (db w) = Some t ->
  outcome
    (fun _ d => d = Db.mk (Db.committed (db w)) (Some (store_one (now w) t e)))
    w (storeEvent e w).
Proof.
  intros Htx. unfold storeEvent.
  assert (Hview : Db.view (db w) = t) by (unfold Db.view; by rewrite Htx).
  eapply (bind_outcome _ _ w
            (fun ex d => d = db w /\ ex = Schema.select_event (LoanEvent.eventId e) t)).
  - apply query_outcome. unfold Db.SELECT_event. rewrite Hview.
    by intros ex d [= <- <-].
  - by intros ex d [-> _].
  - intros ex w1 (Hnow & _) [Hdb ->]. unfold store_one.
    destruct (Schema.select_event (LoanEvent.eventId e) t) eqn:Hsel.
    + apply query_outcome.
      unfold Db.INSERT_event, Schema.insert_event. rewrite Hdb, Hview.
      apply select_event_nil in Hsel. simpl. rewrite Hsel.
      unfold Db.write. rewrite Htx, Hnow.
      intros [] d. destruct (Schema.accepts _); simpl; [|done].
      by intros [= <-].
    + apply ret_outcome. rewrite Hdb. destruct (db w); simpl in *. by subst.
Qed.

Lemma store_all_cons (now : Z) (e : LoanEvent.t) (l : list LoanEvent.t)
    (t : Schema.Tables) :
  store_all now (e :: l) t = store_all now l (store_one now t e).
Proof. reflexivity. Qed.

Lemma for_of_storeEvent_outcome (events : list LoanEvent.t) :
  forall (w : World) (t : Schema.Tables),
    Db.tx (db w) = Some t ->
    outcome
      (fun _ d =>
         d = Db.mk (Db.committed (db w)) (Some (store_all (now w) events t)))
      w (for_of events storeEvent w).
Proof.
  induction events as [|e events IH]; intros w t Htx; simpl.
  - apply ret_outcome. destruct (db w); simpl in *. by subst.
  - eapply bind_outcome.
    + by apply storeEvent_outcome.
    + by intros _ d ->.
    + intros _ w1 (Hnow & _) Hdb. simpl in Hdb.
      specialize (IH w1 (store_one (now w) t e)).
      rewrite Hdb, Hnow in IH. simpl in IH. by apply IH.
Qed.

(** The [catch] clause of [storeEvents]. *)
Lemma rollback_rethrow (err : string) (w : World) :
  exists err' w',
    (let* _ := query Db.ROLLBACK in throw err) w = (@Throw unit err', w') /\
    same_env w w' /\
    Db.committed (db w') = Db.committed (db w).
Proof.
  unfold bind, query, throw, Db.ROLLBACK.
  destruct (faults w) as [|[] rest]; simpl;
    do 2 eexists; (split; [reflexivity|]); by repeat split.
Qed.

Lemma storeEvents_outcome (events : list LoanEvent.t) (w : World) :
  Db.idle (db w) ->
  outcome
    (fun _ d =>
       d = Db.mk (store_all (now w) events (Db.committed (db w))) None)
    w (storeEvents events w).
Proof.
  intros Hidle. unfold Db.idle in Hidle. unfold storeEvents.
  destruct events as [|e events].
  { apply ret_outcome. destruct (db w); simpl in *. by subst. }
  set (evs := e :: events).
  assert (Hbody :
    outcome
      (fun _ d => d = Db.mk (store_all (now w) evs (Db.committed (db w))) None)
      w
      ((let* _ := query Db.BEGIN in
        let* _ := for_of evs storeEvent in
        query Db.COMMIT) w)).
  { eapply (bind_outcome _ _ w
              (fun _ d => d = Db.mk (Db.committed (db w))
                                    (Some (Db.committed (db w))))).
    - apply query_outcome. unfold Db.BEGIN. rewrite Hidle.
      by intros [] d [= <-].
    - by intros _ d ->.
    - intros _ w1 (Hnow & _) Hdb.
      eapply (bind_outcome _ _ w1
                (fun _ d => d = Db.mk (Db.committed (db w))
                              (Some (store_all (now w) evs
                                       (Db.committed (db w)))))).
      + pose proof (for_of_storeEvent_outcome evs w1 (Db.committed (db w))) as H.
        rewrite Hdb, Hnow in H. simpl in H. by apply H.
      + intros _ d ->. by rewrite Hdb.
      + intros _ w2 _ Hdb2. apply query_outcome.
        unfold Db.COMMIT, Db.view. rewrite Hdb2. simpl.
        by intros [] d [= <-]. }
  unfold try_catchM.
  destruct ((let* _ := query Db.BEGIN in
             let* _ := for_of evs storeEvent in
             query Db.COMMIT) w) as [[[]|err] w1]; [exact Hbody|].
  destruct Hbody as (Henv & Hc). simpl in *.
  destruct (rollback_rethrow err w1) as (err' & w2 & Hrb & Henv2 & Hc2).
  rewrite Hrb. split; [by eapply same_env_trans|]. simpl. congruence.
Qed.

(** ** One cycle *)

Lemma last_cons_is_Some {A} (x : A) (l : list A) : is_Some (last (x :: l)).
Proof.
  revert x. induction l as [|y l IH]; intros x; simpl; [eauto|]. apply IH.
Qed.

Lemma indexEvents_state_read_fails (cfg : IndexerConfig.t) (w : World)
    (rest : list bool) :
  faults w = true :: rest ->
  indexEvents cfg w = (Throw "query rejected", set_faults rest w).
Proof.
  intros Hf. unfold indexEvents, getIndexerState, bind, query.
  by rewrite Hf.
Qed.

Lemma indexEvents_state_read (cfg : IndexerConfig.t) (w : World) :
  head (faults w) <> Some true ->
  indexEvents cfg w =
  match answer cfg w with
  | Throw err => (Throw err, after_fetch cfg w)
  | Ok response =>
      match Rpc.events response with
      | None | Some [] => (Ok tt, after_fetch cfg w)
      | Some raw =>
          (let* _ := storeEvents (processEvents raw) in
           match last raw with
           | Some l =>
               updateIndexerState (EventResponse.ledger l)
                 (cursor_or_empty (Rpc.cursor response))
           | None => ret tt
           end) (after_fetch cfg w)
      end
  end.
Proof.
  intros Hf. unfold indexEvents, getIndexerState.
  unfold bind at 1. unfold bind at 1. unfold query.
  destruct (faults w) as [|[] rest] eqn:Hfw; simpl in *; [|done|];
    unfold bind at 1; unfold getEvents, ret, answer, after_fetch, read_state;
    simpl; rewrite Hfw; simpl;
    destruct (source w _ _) as [resp|err]; try reflexivity;
    destruct (Rpc.events resp) as [[|e raw]|]; reflexivity.
Qed.

Lemma indexEvents_cases (cfg : IndexerConfig.t) (w : World) :
  Db.idle (db w) ->
  CycleOutcome cfg w (indexEvents cfg w) /\
  now (snd (indexEvents cfg w)) = now w /\
  source (snd (indexEvents cfg w)) = source w /\
  (head (faults w) <> Some true ->
   requests (snd (indexEvents cfg w))
   = (requests w
        ++ [request_of cfg (read_state (Db.committed (db w)))])%list).
Proof.
  intros Hidle.
  assert (Hview : Db.view (db w) = Db.committed (db w))
    by (unfold Db.view; by rewrite Hidle).
  destruct (decide (head (faults w) = Some true)) as [Hhd|Hhd].
  { destruct (faults w) as [|f rest] eqn:Hf; [done|].
    injection Hhd as ->.
    rewrite (indexEvents_state_read_fails cfg w rest Hf).
    split; [apply state_read_failed; by rewrite ?Hf|].
    by repeat split. }
  rewrite (indexEvents_state_read cfg w Hhd).
  assert (Hidle' : Db.idle (db (after_fetch cfg w))) by done.
  destruct (answer cfg w) as [resp|err] eqn:Hans.
  2:{ split; [by eapply fetch_failed|]. repeat split.
      intros _. simpl. by rewrite Hview. }
  destruct (Rpc.events resp) as [raw|] eqn:Hraw.
  2:{ split; [eapply empty_batch; eauto|]. repeat split.
      intros _. simpl. by rewrite Hview. }
  destruct raw as [|e raw].
  { split; [eapply empty_batch; eauto|]. repeat split.
    intros _. simpl. by rewrite Hview. }
  destruct (last_cons_is_Some e raw) as [l Hl]. rewrite Hl.
  pose proof (storeEvents_outcome (processEvents (e :: raw))
                (after_fetch cfg w) Hidle') as Hst.
  unfold bind.
  destruct (storeEvents (processEvents (e :: raw)) (after_fetch cfg w))
    as [[[]|err] w2] eqn:Hstore.
  2:{ destruct Hst as ((Hnow & Hsrc & Hreq & Hlog) & Hc). simpl in *.
      split; [eapply store_failed; eauto|].
      repeat split; try done. intros _. by rewrite Hreq, Hview. }
  destruct Hst as ((Hnow & Hsrc & Hreq & Hlog) & Hdb). simpl in *.
  unfold updateIndexerState, query, Db.UPDATE_state, Db.write, Db.view,
    Db.closed.
  destruct (Pg.int4 (EventResponse.ledger l)
            && Pg.varchar 255 (cursor_or_empty (Rpc.cursor resp)));
    destruct (faults w2) as [|[] rest2]; simpl; rewrite ?Hdb; simpl;
    (split; [|repeat split; try done; intros _; by rewrite Hreq, Hview]).
  - eapply cycle_done; eauto; simpl; by rewrite ?Hnow, ?Hstore.
  - eapply update_failed; eauto; simpl; by rewrite ?Hdb, ?Hstore.
  - eapply cycle_done; eauto; simpl; by rewrite ?Hnow, ?Hstore.
  - eapply update_failed; eauto; by rewrite Hstore.
  - eapply update_failed; eauto; simpl; by rewrite ?Hdb, ?Hstore.
  - eapply update_failed; eauto; by rewrite Hstore.
Qed.

(** ** The tables after a batch *)

Lemma store_one_indexer_state (now : Z) (t : Schema.Tables) (e : LoanEvent.t) :
  Schema.indexer_state (store_one now t e) = Schema.indexer_state t.
Proof. unfold store_one. by destruct (Schema.select_event _ t). Qed.

Lemma store_all_indexer_state (now : Z) (events : list LoanEvent.t) :
  forall t,
    Schema.indexer_state (store_all now events t) = Schema.indexer_state t.
Proof.
  induction events as [|e events IH]; intros t; [done|].
  rewrite store_all_cons, IH. apply store_one_indexer_state.
Qed.

Lemma count_event_app (eid : string) (rows : list Schema.loan_events_row)
    (row : Schema.loan_events_row) (st : list Schema.indexer_state_row) :
  count_event eid (Schema.mk_tables (rows ++ [row])%list st)
  = (count_event eid (Schema.mk_tables rows st)
     + (if String.eqb (Schema.event_id row) eid then 1 else 0))%nat.
Proof.
  unfold count_event, Schema.select_event. simpl.
  rewrite List.filter_app, length_app. simpl.
  by destruct (String.eqb (Schema.event_id row) eid).
Qed.

Lemma count_event_zero (eid : string) (t : Schema.Tables) :
  count_event eid t = 0%nat <->
  eid ∉ map Schema.event_id (Schema.loan_events t).
Proof.
  unfold count_event, Schema.select_event.
  induction (Schema.loan_events t) as [|r l IH]; simpl.
  - split; [intros _; apply not_elem_of_nil|done].
  - rewrite not_elem_of_cons.
    destruct (String.eqb_spec (Schema.event_id r) eid) as [->|Hne]; simpl.
    + split; [discriminate|]. by intros [? _].
    + rewrite IH. split; [by split|by intros [_ ?]].
Qed.

Lemma unique_count_le_1 (eid : string) (t : Schema.Tables) :
  unique_event_ids t -> (count_event eid t <= 1)%nat.
Proof.
  unfold unique_event_ids. destruct t as [rows st]. simpl.
  induction rows as [|r rows IH]; intros Hnd.
  - unfold count_event. simpl. lia.
  - simpl in Hnd. apply NoDup_cons in Hnd as [Hnotin Hnd].
    specialize (IH Hnd).
    unfold count_event, Schema.select_event in *. simpl in *.
    destruct (String.eqb_spec (Schema.event_id r) eid) as [Heq|Hne];
      simpl; [|done].
    subst eid.
    apply (count_event_zero _ (Schema.mk_tables rows st)) in Hnotin.
    unfold count_event, Schema.select_event in Hnotin. simpl in Hnotin.
    lia.
Qed.

Lemma store_one_present (now : Z) (t : Schema.Tables) (e : LoanEvent.t) :
  (1 <= count_event (LoanEvent.eventId e) t)%nat -> store_one now t e = t.
Proof.
  unfold count_event, store_one.
  destruct (Schema.select_event (LoanEvent.eventId e) t); simpl; [lia|done].
Qed.

Lemma store_one_count (now : Z) (t : Schema.Tables) (e : LoanEvent.t)
    (eid : string) :
  count_event eid (store_one now t e)
  = (count_event eid t
     + (if String.eqb (LoanEvent.eventId e) eid
        then (if Nat.eqb (count_event eid t) 0 then 1 else 0)
        else 0))%nat.
Proof.
  unfold store_one.
  destruct (Schema.select_event (LoanEvent.eventId e) t) eqn:Hsel.
  - destruct t as [rows st]. simpl. rewrite count_event_app. simpl.
    destruct (String.eqb_spec (LoanEvent.eventId e) eid) as [<-|]; [|done].
    unfold count_event. by rewrite Hsel.
  - destruct (String.eqb_spec (LoanEvent.eventId e) eid) as [<-|]; [|lia].
    unfold count_event. rewrite Hsel. simpl. lia.
Qed.

Lemma store_one_unique (now : Z) (t : Schema.Tables) (e : LoanEvent.t) :
  unique_event_ids t -> unique_event_ids (store_one now t e).
Proof.
  unfold unique_event_ids, store_one. intros Hnd.
  destruct (Schema.select_event (LoanEvent.eventId e) t) eqn:Hsel; [|done].
  simpl. rewrite map_app. simpl.
  apply NoDup_app. split; [done|]. split; [|apply NoDup_singleton].
  intros x Hx Hx'. apply list_elem_of_singleton in Hx'. subst x.
  revert Hx. apply count_event_zero. unfold count_event. by rewrite Hsel.
Qed.

Lemma store_all_unique (now : Z) (events : list LoanEvent.t) :
  forall t, unique_event_ids t -> unique_event_ids (store_all now events t).
Proof.
  induction events as [|e events IH]; intros t Ht; [done|].
  rewrite store_all_cons. by apply IH, store_one_unique.
Qed.

Lemma store_all_count_mono (now : Z) (events : list LoanEvent.t) (eid : string) :
  forall t, (count_event eid t <= count_event eid (store_all now events t))%nat.
Proof.
  induction events as [|e events IH]; intros t; [done|].
  rewrite store_all_cons. etrans; [|apply IH].
  rewrite store_one_count. lia.
Qed.

(** After the batch every one of its events has a row. *)
Lemma store_all_stored (now : Z) (events : list LoanEvent.t) (e : LoanEvent.t) :
  forall t,
    e ∈ events ->
    (1 <= count_event (LoanEvent.eventId e) (store_all now events t))%nat.
Proof.
  induction events as [|e' events IH]; intros t Hin.
  - by apply elem_of_nil in Hin.
  - rewrite store_all_cons.
    apply elem_of_cons in Hin as [->|Hin]; [|by apply IH].
    etrans; [|apply store_all_count_mono].
    rewrite store_one_count, String.eqb_refl.
    destruct (count_event (LoanEvent.eventId e') t); simpl; lia.
Qed.

(** A batch whose events all have their row changes nothing. *)
Lemma store_all_present (now : Z) (events : list LoanEvent.t) :
  forall t,
    (forall e, e ∈ events -> (1 <= count_event (LoanEvent.eventId e) t)%nat) ->
    store_all now events t = t.
Proof.
  induction events as [|e events IH]; intros t Hall; [done|].
  rewrite store_all_cons, store_one_present.
  - apply IH. intros e' He'. apply Hall. by apply elem_of_cons; right.
  - apply Hall. by apply elem_of_cons; left.
Qed.

Lemma store_all_twice (now now' : Z) (events : list LoanEvent.t)
    (t : Schema.Tables) :
  store_all now' events (store_all now events t) = store_all now events t.
Proof.
  apply store_all_present. intros e He. by apply store_all_stored.
Qed.

(** The rows that were there stay, in place. *)
Lemma store_all_extends (now : Z) (events : list LoanEvent.t) :
  forall t, exists rows,
    Schema.loan_events (store_all now events t)
    = (Schema.loan_events t ++ rows)%list.
Proof.
  induction events as [|e events IH]; intros t.
  - exists []. by rewrite app_nil_r.
  - rewrite store_all_cons.
    destruct (IH (store_one now t e)) as [rows Hrows]. rewrite Hrows.
    unfold store_one.
    destruct (Schema.select_event (LoanEvent.eventId e) t); simpl; eauto.
    rewrite <- app_assoc. eauto.
Qed.

(** ** The state row *)

Lemma latest_map (f : Schema.indexer_state_row -> Schema.indexer_state_row)
    (rows : list Schema.indexer_state_row) :
  (forall r, Schema.id (f r) = Schema.id r) ->
  Schema.latest (map f rows) = f <$> Schema.latest rows.
Proof.
  intros Hid. induction rows as [|r rows IH]; simpl; [done|].
  rewrite IH. destruct (Schema.latest rows) as [r'|]; simpl; [|done].
  rewrite !Hid. by destruct (Schema.id r <? Schema.id r').
Qed.

Lemma update_state_latest (ledger : Z) (cursor : string) (now : Z)
    (t : Schema.Tables) (top : Schema.indexer_state_row) :
  Schema.latest (Schema.indexer_state t) = Some top ->
  Schema.latest (Schema.indexer_state (Schema.update_state ledger cursor now t))
  = Some (Schema.mk_indexer_state (Schema.id top) ledger (Some cursor) now).
Proof.
  intros Htop. unfold Schema.update_state. rewrite Htop. simpl.
  rewrite latest_map.
  - rewrite Htop. simpl. by rewrite Z.eqb_refl.
  - intros r. by destruct (Schema.id r =? Schema.id top).
Qed.

Lemma update_state_no_row (ledger : Z) (cursor : string) (now : Z)
    (t : Schema.Tables) :
  Schema.latest (Schema.indexer_state t) = None ->
  Schema.update_state ledger cursor now t = t.
Proof. intros Hnone. unfold Schema.update_state. by rewrite Hnone. Qed.

Lemma update_state_loan_events (ledger : Z) (cursor : string) (now : Z)
    (t : Schema.Tables) :
  Schema.loan_events (Schema.update_state ledger cursor now t)
  = Schema.loan_events t.
Proof.
  unfold Schema.update_state. by destruct (Schema.latest _).
Qed.

(** ** Storing without faults *)

Lemma accepts_insert_params (e : LoanEvent.t) (now : Z) :
  Schema.accepts (insert_params e now) = storable e.
Proof. reflexivity. Qed.

Lemma query_no_fault {A} (stmt : Z -> Db.t -> Exc (A * Db.t)) (w : World)
    (a : A) (d : Db.t) :
  faults w = [] ->
  stmt (now w) (db w) = Ok (a, d) ->
  query stmt w = (Ok a, set_db d w).
Proof.
  intros Hf Hstmt. unfold query. rewrite Hf. simpl. rewrite Hstmt.
  destruct w; simpl in *. by subst.
Qed.

Lemma query_refused {A} (stmt : Z -> Db.t -> Exc (A * Db.t)) (w : World)
    (err : string) :
  faults w = [] ->
  stmt (now w) (db w) = Throw err ->
  query stmt w = (Throw err, set_db (Db.closed (db w)) w).
Proof.
  intros Hf Hstmt. unfold query. rewrite Hf. simpl. rewrite Hstmt.
  destruct w; simpl in *. by subst.
Qed.

Lemma storeEvent_no_fault (e : LoanEvent.t) (w : World) (t : Schema.Tables) :
  faults w = [] ->
  Db.tx (db w) = Some t ->
  (count_event (LoanEvent.eventId e) t = 0%nat -> storable e = true) ->
  storeEvent e w
  = (Ok tt,
     set_db (Db.mk (Db.committed (db w)) (Some (store_one (now w) t e))) w).
Proof.
  intros Hf Htx Hst. unfold storeEvent, bind.
  assert (Hview : Db.view (db w) = t) by (unfold Db.view; by rewrite Htx).
  rewrite (query_no_fault _ w (Schema.select_event (LoanEvent.eventId e) t)
             (db w) Hf)
    by (unfold Db.SELECT_event; by rewrite Hview).
  assert (Hw : set_db (db w) w = w) by by destruct w.
  rewrite Hw. unfold store_one.
  destruct (Schema.select_event (LoanEvent.eventId e) t) eqn:Hsel.
  - rewrite (query_no_fault _ w tt
               (Db.mk (Db.committed (db w))
                  (Some (Schema.mk_tables
                           (Schema.loan_events t ++ [insert_params e (now w)])
                           (Schema.indexer_state t)))) Hf); [done|].
    unfold Db.INSERT_event, Schema.insert_event.
    rewrite Hview, accepts_insert_params, Hst
      by (unfold count_event; by rewrite Hsel).
    apply select_event_nil in Hsel. simpl. rewrite Hsel.
    unfold Db.write. by rewrite Htx.
  - unfold ret. f_equal. destruct w as [[c tx] ? ? ? ? ?]; simpl in *.
    by subst.
Qed.

Lemma store_one_count_mono (now : Z) (t : Schema.Tables) (e : LoanEvent.t)
    (eid : string) :
  (count_event eid t <= count_event eid (store_one now t e))%nat.
Proof. rewrite store_one_count. lia. Qed.

Lemma for_of_storeEvent_no_fault (events : list LoanEvent.t) :
  forall (w : World) (t : Schema.Tables),
    faults w = [] ->
    Db.tx (db w) = Some t ->
    (forall e, e ∈ events ->
       count_event (LoanEvent.eventId e) t = 0%nat -> storable e = true) ->
    for_of events storeEvent w
    = (Ok tt,
       set_db (Db.mk (Db.committed (db w))
                 (Some (store_all (now w) events t))) w).
Proof.
  induction events as [|e events IH]; intros w t Hf Htx Hst; simpl.
  - unfold ret. f_equal. destruct w as [[c tx] ? ? ? ? ?]; simpl in *.
    by subst.
  - unfold bind. rewrite (storeEvent_no_fault e w t Hf Htx)
      by (apply Hst; apply list_elem_of_here).
    rewrite (IH _ (store_one (now w) t e)); try done.
    intros e' He' Hc. apply Hst; [by apply list_elem_of_further|].
    pose proof (store_one_count_mono (now w) t e (LoanEvent.eventId e')).
    simpl in Hc. lia.
Qed.

Lemma storeEvents_no_fault (events : list LoanEvent.t) (w : World) :
  faults w = [] ->
  Db.idle (db w) ->
  (forall e, e ∈ events ->
     count_event (LoanEvent.eventId e) (Db.committed (db w)) = 0%nat ->
     storable e = true) ->
  fst (storeEvents events w) = Ok tt /\
  db (snd (storeEvents events w))
  = Db.mk (store_all (now w) events (Db.committed (db w))) None /\
  faults (snd (storeEvents events w)) = [] /\
  now (snd (storeEvents events w)) = now w.
Proof.
  intros Hf Hidle Hst. unfold Db.idle in Hidle. unfold storeEvents.
  destruct events as [|e events].
  { simpl. repeat split; try done. destruct (db w); simpl in *. by subst. }
  set (evs := e :: events) in *.
  unfold try_catchM, bind.
  rewrite (query_no_fault _ w tt
             (Db.mk (Db.committed (db w)) (Some (Db.committed (db w)))) Hf)
    by (unfold Db.BEGIN; by rewrite Hidle).
  rewrite (for_of_storeEvent_no_fault evs _ (Db.committed (db w))); try done.
  simpl.
  rewrite (query_no_fault _ _ tt
             (Db.mk (store_all (now w) evs (Db.committed (db w))) None));
    done.
Qed.

Lemma storeEvents_times_no_fault (n : nat) (events : list LoanEvent.t) :
  forall w,
    faults w = [] ->
    Db.idle (db w) ->
    (forall e, e ∈ events ->
       count_event (LoanEvent.eventId e) (Db.committed (db w)) = 0%nat ->
       storable e = true) ->
    fst (storeEvents_times n events w) = Ok tt /\
    db (snd (storeEvents_times n events w))
    = match n with
      | O => db w
      | S _ => Db.mk (store_all (now w) events (Db.committed (db w))) None
      end.
Proof.
  induction n as [|n IH]; intros w Hf Hidle Hst; [done|].
  simpl. unfold bind.
  destruct (storeEvents_no_fault events w Hf Hidle Hst)
    as (Hok & Hdb & Hf' & Hnow).
  destruct (storeEvents events w) as [r w1]. simpl in *. subst r.
  destruct (IH w1 Hf') as (Hok' & Hdb'); [by rewrite Hdb| |].
  { intros e He Hc. rewrite Hdb in Hc. simpl in Hc.
    pose proof (store_all_stored (now w) events e (Db.committed (db w)) He).
    lia. }
  split; [done|]. rewrite Hdb'.
  destruct n; [done|]. rewrite Hdb. simpl. by rewrite store_all_twice.
Qed.

Lemma count_event_ext (eid : string) (t t' : Schema.Tables) :
  Schema.loan_events t = Schema.loan_events t' ->
  count_event eid t = count_event eid t'.
Proof.
  unfold count_event, Schema.select_event. by intros ->.
Qed.

Lemma insert_event_duplicate (row : Schema.loan_events_row) (t : Schema.Tables) :
  (1 <= count_event (Schema.event_id row) t)%nat ->
  is_ok (Schema.insert_event row t) = false.
Proof.
  intros Hc. unfold Schema.insert_event.
  destruct (negb (Schema.accepts row)); [done|].
  destruct (existsb _ _) eqn:Hex; [done|].
  apply select_event_nil in Hex. unfold count_event in Hc.
  rewrite Hex in Hc. simpl in Hc. lia.
Qed.

(** ** An event with an amount *)

(** The row of a raw event whose payload is an [i128] has the text
    "[object Object]" for the [numeric] column. *)
Lemma i128_payload_not_storable (e : EventResponse.t) (evt : LoanEvent.t)
    (v : Z) :
  processEvent e = Ok (Push evt) ->
  EventResponse.value e = scvI128 v ->
  LoanEvent.amount evt = Some "[object Object]" /\ storable evt = false.
Proof.
  intros Hpe Hv.
  pose proof (processEvent_push_recognised e evt Hpe) as Hrec.
  destruct (processEvent_recognised e _ Hrec) as (t1 & cid & _ & _ & Hpe').
  rewrite Hpe in Hpe'. injection Hpe' as ->.
  rewrite Hv.
  assert (Hn : forall s : option string,
             Pg.nullable Pg.numeric_in
               (string_or_null (Some "[object Object]")) = false)
    by reflexivity.
  destruct (EventResponse.topic e !! 2%nat); simpl; (split; [done|]);
    unfold storable, Schema.accepts; simpl;
    rewrite !andb_false_r; reflexivity.
Qed.

(** One attempt to store a batch of one event that the table does not
    take and has no row of: it throws, and the world is as before. *)
Lemma storeEvents_one_refused (evt : LoanEvent.t) (w : World) :
  faults w = [] ->
  Db.idle (db w) ->
  count_event (LoanEvent.eventId evt) (Db.committed (db w)) = 0%nat ->
  storable evt = false ->
  storeEvents [evt] w
  = (Throw "invalid input value for the type of the column", w).
Proof.
  intros Hf Hidle Hc Hst. unfold Db.idle in Hidle.
  unfold storeEvents, try_catchM, bind at 1.
  rewrite (query_no_fault _ w tt
             (Db.mk (Db.committed (db w)) (Some (Db.committed (db w)))) Hf)
    by (unfold Db.BEGIN; by rewrite Hidle).
  set (w1 := set_db _ w).
  assert (Hsel : Schema.select_event (LoanEvent.eventId evt)
                   (Db.committed (db w)) = []).
  { unfold count_event in Hc. by destruct (Schema.select_event _ _). }
  assert (Hf1 : faults w1 = []) by done.
  assert (Hdb1 : db w1 = Db.mk (Db.committed (db w)) (Some (Db.committed (db w))))
    by done.
  unfold bind at 1. simpl for_of. unfold bind at 1. unfold storeEvent, bind at 1.
  rewrite (query_no_fault _ w1 [] (db w1) Hf1).
  2:{ unfold Db.SELECT_event. rewrite Hdb1. unfold Db.view. simpl.
      by rewrite Hsel. }
  assert (Hw1 : set_db (db w1) w1 = w1) by done.
  rewrite Hw1.
  rewrite (query_refused _ w1 "invalid input value for the type of the column"
             Hf1).
  2:{ unfold Db.INSERT_event, Schema.insert_event.
      by rewrite accepts_insert_params, Hst. }
  simpl. unfold bind, throw.
  rewrite (query_no_fault _ _ tt (Db.mk (Db.committed (db w)) None)) by done.
  simpl. f_equal.
  destruct w as [[c tx] ? ? ? ? ?]; simpl in *. by subst.
Qed.

(** C6 on the code: an event whose payload is an [i128], the amount of a
    request or of a repayment, has "[object Object]" as its amount, which
    the [numeric] column refuses.  With the database answering every
    query and no row for the event, storing it throws, and however many
    times that is tried the store holds no row for its id, where the claim
    says exactly one. *)
Theorem C6_event_with_amount_is_never_stored
    (e : EventResponse.t) (k : EventType) (v : Z) (w : World) (n : nat) :
  recognised e k ->
  EventResponse.value e = scvI128 v ->
  faults w = [] ->
  Db.idle (db w) ->
  count_event (EventResponse.id e) (Db.committed (db w)) = 0%nat ->
  map LoanEvent.eventId (processEvents [e]) = [EventResponse.id e] /\
  map LoanEvent.amount (processEvents [e]) = [Some "[object Object]"] /\
  is_ok (fst (storeEvents (processEvents [e]) w)) = false /\
  storeEvents_attempts n (processEvents [e]) w = w /\
  count_event (EventResponse.id e)
    (Db.committed (db (storeEvents_attempts n (processEvents [e]) w)))
  = 0%nat.
Proof.
  intros Hrec Hv Hf Hidle Hc.
  assert (Hex : exists evt, processEvent e = Ok (Push evt)).
  { destruct (processEvent_recognised e k Hrec) as (? & ? & _ & _ & H).
    eauto. }
  destruct Hex as [evt Hpe].
  destruct (i128_payload_not_storable e evt v Hpe Hv) as (Ham & Hst).
  assert (Hone : processEvents [e] = [evt]).
  { rewrite processEvents_cons. unfold pushed. by rewrite Hpe. }
  destruct (processEvent_copies e evt Hpe) as (Hid & _).
  rewrite Hone. cbn [map]. rewrite Hid, Ham.
  assert (Hone' : storeEvents [evt] w
                  = (Throw "invalid input value for the type of the column", w))
    by (apply storeEvents_one_refused; by rewrite ?Hid).
  assert (Hn : storeEvents_attempts n [evt] w = w).
  { induction n as [|n IH]; [done|].
    cbn [storeEvents_attempts]. by rewrite Hone'. }
  rewrite Hn, Hone'. by repeat split.
Qed.

Lemma C6_event_with_amount_is_never_stored_witness :
  let w := SampleWorld.fresh [] [] in
  map LoanEvent.amount (processEvents [Sample.requested])
  = [Some "[object Object]"] /\
  is_ok (fst (storeEvents (processEvents [Sample.requested]) w)) = false /\
  count_event "ev-100"
    (Db.committed
       (db (storeEvents_attempts 2 (processEvents [Sample.requested]) w)))
  = 0%nat.
Proof.
  intros w.
  destruct (C6_event_with_amount_is_never_stored
              Sample.requested LoanRequested 1000 w 2)
    as (_ & Ham & Hfail & _ & Hc).
  - repeat split; simpl; eauto.
  - reflexivity.
  - reflexivity.
  - reflexivity.
  - reflexivity.
  - by repeat split.
Defined.

(** ** Atomicity of a cycle *)

(** C1, as stated, does not hold: the state is updated by a statement that
    comes after the COMMIT of the events.  Here the batch is one approval,
    an event that the store takes; the queries of the cycle are the SELECT
    of the state, BEGIN, SELECT, INSERT, COMMIT and the UPDATE of the
    state, and the last one is rejected: the cycle fails, and the event of
    the batch is durably stored all the same. *)
Lemma C1_counterexample :
  let w := SampleWorld.fresh [false; false; false; false; false; true]
             [Sample.approved] in
  map storable (processEvents [Sample.approved]) = [true] /\
  is_ok (fst (indexEvents SampleWorld.cfg w)) = false /\
  count_event "ev-101" (Db.committed (db w)) = 0%nat /\
  count_event "ev-101"
    (Db.committed (db (snd (indexEvents SampleWorld.cfg w)))) = 1%nat /\
  lastLedger (Db.committed (db (snd (indexEvents SampleWorld.cfg w)))) = 0.
Proof. vm_compute. by repeat split. Qed.

(** C1, amended: the events of a batch are stored in one transaction, all
    of them or none, and the state is updated by a separate statement
    after that transaction has committed.  For every cycle: the event
    store holds, at the end, either what it held or that with the whole
    decoded batch added; a cycle that fails leaves the state rows as they
    were; and the state rows have changed only if every decoded event of
    the batch has its row. *)
Theorem C1_events_atomic_then_progress (cfg : IndexerConfig.t) (w : World) :
  Db.idle (db w) ->
  let r := indexEvents cfg w in
  let c := Db.committed (db w) in
  let c' := Db.committed (db (snd r)) in
  (Schema.loan_events c' = Schema.loan_events c \/
   exists resp raw,
     answer cfg w = Ok resp /\ Rpc.events resp = Some raw /\
     Schema.loan_events c'
     = Schema.loan_events (store_all (now w) (processEvents raw) c)) /\
  (is_ok (fst r) = false ->
   Schema.indexer_state c' = Schema.indexer_state c) /\
  (Schema.indexer_state c' <> Schema.indexer_state c ->
   is_ok (fst r) = true /\
   exists resp raw,
     answer cfg w = Ok resp /\ Rpc.events resp = Some raw /\
     forall e, e ∈ processEvents raw ->
       (1 <= count_event (LoanEvent.eventId e) c')%nat).
Proof.
  intros Hidle. simpl.
  destruct (indexEvents_cases cfg w Hidle) as (Hcase & _).
  destruct Hcase as
    [ _ Hok Hdb _ _
    | err _ _ Hr Hdb _
    | resp _ _ _ Hr Hdb _
    | resp raw _ Hans Hraw _ Hok Hc
    | resp raw _ Hans Hraw _ Hok Hdb
    | resp raw l _ Hans Hraw _ Hr Hdb ].
  - rewrite Hdb. by repeat split; auto.
  - rewrite Hdb. by repeat split; auto.
  - rewrite Hdb. by repeat split; auto.
  - rewrite Hc. by repeat split; auto.
  - rewrite Hdb. simpl. rewrite store_all_indexer_state.
    split; [right; eauto|]. by split.
  - rewrite Hdb, Hr. simpl. rewrite update_state_loan_events.
    split; [right; eauto|]. split; [done|].
    intros _. split; [done|]. exists resp, raw. repeat split; try done.
    intros e He.
    rewrite (count_event_ext _ _
               (store_all (now w) (processEvents raw) (Db.committed (db w))))
      by apply update_state_loan_events.
    by apply store_all_stored.
Qed.

Lemma C1_events_atomic_then_progress_witness :
  let w := SampleWorld.fresh [false; false; false; false; false; true]
             [Sample.approved] in
  Schema.indexer_state (Db.committed (db (snd (indexEvents SampleWorld.cfg w))))
  = Schema.indexer_state (Db.committed (db w)).
Proof.
  intros w.
  destruct (C1_events_atomic_then_progress SampleWorld.cfg w) as (_ & H & _).
  - reflexivity.
  - apply H. reflexivity.
Defined.

(** The constraint on [event_id] holds of what a cycle leaves committed. *)
Lemma indexEvents_keeps_unique (cfg : IndexerConfig.t) (w : World) :
  Db.idle (db w) ->
  unique_event_ids (Db.committed (db w)) ->
  unique_event_ids (Db.committed (db (snd (indexEvents cfg w)))).
Proof.
  intros Hidle Hu.
  destruct (indexEvents_cases cfg w Hidle) as (Hcase & _).
  destruct Hcase as
    [ _ _ Hdb _ _ | err _ _ _ Hdb _ | resp _ _ _ _ Hdb _
    | resp raw _ _ _ _ _ Hc | resp raw _ _ _ _ _ Hdb
    | resp raw l _ _ _ _ _ Hdb ];
    rewrite ?Hdb, ?Hc; simpl; try done.
  - by apply store_all_unique.
  - unfold unique_event_ids. rewrite update_state_loan_events.
    by apply store_all_unique.
Qed.

(** ** Progress *)

(** C3, as stated, does not hold: the state is set from the last raw event
    of the batch, decoded or not.  Here the batch is one event of a kind
    that the decoder skips: the cycle succeeds, stores no event, and moves
    the state from ledger 0 to ledger 103. *)
Lemma C3_counterexample :
  let w := SampleWorld.fresh [] [Sample.unrelated] in
  fst (indexEvents SampleWorld.cfg w) = Ok tt /\
  processEvents [Sample.unrelated] = [] /\
  Schema.loan_events (Db.committed (db (snd (indexEvents SampleWorld.cfg w))))
  = [] /\
  lastLedger (Db.committed (db w)) = 0 /\
  lastLedger (Db.committed (db (snd (indexEvents SampleWorld.cfg w)))) = 103.
Proof. vm_compute. by repeat split. Qed.

Lemma last_is_max (raw : list EventResponse.t) (l e : EventResponse.t) :
  ascending raw -> last raw = Some l -> e ∈ raw ->
  EventResponse.ledger e <= EventResponse.ledger l.
Proof.
  intros Hasc Hl He. rewrite last_lookup in Hl.
  apply list_elem_of_lookup in He as [i Hi].
  apply (Hasc i (pred (length raw)) e l Hi Hl).
  apply lookup_lt_Some in Hi. lia.
Qed.

Lemma lastLedger_update_state (ledger : Z) (cursor : string) (now : Z)
    (t : Schema.Tables) :
  is_Some (Schema.latest (Schema.indexer_state t)) ->
  lastLedger (Schema.update_state ledger cursor now t) = ledger /\
  lastCursor (Schema.update_state ledger cursor now t) = Some cursor.
Proof.
  intros [top Htop]. unfold lastLedger, lastCursor.
  by rewrite (update_state_latest _ _ _ _ top Htop).
Qed.

(** C3, amended: with the state row in place, a successful cycle over a
    non-empty raw batch sets [lastLedger] to the ledger of the last raw
    event of the batch, whether or not that event was decoded or stored
    (and the cursor to the one of the response); that is the greatest
    ledger of the raw batch when the batch is in ascending order.  A
    successful cycle over an empty batch leaves the state as it was.  So
    [lastLedger] does not decrease over a successful cycle as long as the
    source delivers no event below it. *)
Theorem C3_lastLedger_is_last_raw_ledger
    (cfg : IndexerConfig.t) (w : World) (resp : Rpc.GetEventsResponse) :
  Db.idle (db w) ->
  is_Some (Schema.latest (Schema.indexer_state (Db.committed (db w)))) ->
  answer cfg w = Ok resp ->
  fst (indexEvents cfg w) = Ok tt ->
  let c := Db.committed (db w) in
  let c' := Db.committed (db (snd (indexEvents cfg w))) in
  (Rpc.events resp = None \/ Rpc.events resp = Some [] -> c' = c) /\
  (forall raw l,
     Rpc.events resp = Some raw -> last raw = Some l ->
     lastLedger c' = EventResponse.ledger l /\
     lastCursor c' = Some (cursor_or_empty (Rpc.cursor resp)) /\
     (ascending raw ->
      forall e, e ∈ raw -> EventResponse.ledger e <= lastLedger c')) /\
  (forall raw,
     Rpc.events resp = Some raw ->
     (forall e, e ∈ raw -> lastLedger c <= EventResponse.ledger e) ->
     lastLedger c <= lastLedger c').
Proof.
  intros Hidle Hrow Hans Hok. simpl.
  destruct (indexEvents_cases cfg w Hidle) as (Hcase & _).
  destruct Hcase as
    [ _ Hf _ _ _
    | err _ Hans' Hf _ _
    | resp' _ Hans' Hempty _ Hdb _
    | resp' raw' _ _ _ _ Hf _
    | resp' raw' _ _ _ _ Hf _
    | resp' raw' l' _ Hans' Hraw' Hl' _ Hdb ];
    try (rewrite Hok in Hf; discriminate Hf).
  - rewrite Hans in Hans'. injection Hans' as <-.
    rewrite Hdb. split; [done|]. split.
    + intros raw l Hraw Hl. destruct Hempty as [He|He]; rewrite He in Hraw;
        [done|]. injection Hraw as <-. done.
    + intros raw Hraw _. lia.
  - rewrite Hans in Hans'. injection Hans' as <-.
    rewrite Hdb. simpl.
    assert (Hrow' : is_Some (Schema.latest (Schema.indexer_state
              (store_all (now w) (processEvents raw') (Db.committed (db w))))))
      by (by rewrite store_all_indexer_state).
    destruct (lastLedger_update_state (EventResponse.ledger l')
                (cursor_or_empty (Rpc.cursor resp)) (now w) _ Hrow')
      as (HL & HC).
    split; [|split].
    + intros [He|He]; rewrite He in Hraw'; [done|].
      injection Hraw' as <-. done.
    + intros raw l Hraw Hl. rewrite Hraw in Hraw'. injection Hraw' as <-.
      rewrite Hl in Hl'. injection Hl' as <-.
      split; [done|]. split; [done|].
      intros Hasc e He. rewrite HL. by eapply last_is_max.
    + intros raw Hraw Hge. rewrite Hraw in Hraw'. injection Hraw' as <-.
      rewrite HL. apply Hge.
      rewrite last_lookup in Hl'. by eapply list_elem_of_lookup_2.
Qed.

Lemma C3_lastLedger_is_last_raw_ledger_witness :
  let w := SampleWorld.fresh [] SampleWorld.approvals in
  lastLedger (Db.committed (db (snd (indexEvents SampleWorld.cfg w)))) = 102.
Proof.
  intros w.
  destruct (C3_lastLedger_is_last_raw_ledger SampleWorld.cfg w
              (Rpc.mk_response (Some SampleWorld.approvals) (Some "cursor-1")))
    as (_ & H & _).
  - reflexivity.
  - simpl. eauto.
  - reflexivity.
  - reflexivity.
  - destruct (H SampleWorld.approvals (Sample.approval "ap-102" 102 9))
      as (HL & _);
      [reflexivity|reflexivity|exact HL].
Defined.

(** ** The request *)

(** The row object has the column names as keys, and [getIndexerState]'s
    caller reads the camel-case name. *)
Lemma state_row_has_no_lastIndexedLedger (r : Schema.indexer_state_row) :
  Js.get (Schema.state_row_object r) "lastIndexedLedger" = Js.Undefined.
Proof.
  unfold Js.get, Schema.state_row_object.
  rewrite lookup_insert_ne by done. by rewrite lookup_singleton_ne.
Qed.

Lemma startLedger_with_row (cfg : IndexerConfig.t) (t : Schema.Tables) :
  is_Some (Schema.latest (Schema.indexer_state t)) ->
  Rpc.startLedger (request_of cfg (read_state t)) = Js.NumV Js.NaN.
Proof.
  intros [r Hr]. unfold read_state, Schema.select_state. rewrite Hr.
  unfold request_of. simpl. by rewrite state_row_has_no_lastIndexedLedger.
Qed.

Lemma startLedger_without_row (cfg : IndexerConfig.t) (t : Schema.Tables) :
  Schema.latest (Schema.indexer_state t) = None ->
  Rpc.startLedger (request_of cfg (read_state t)) = Js.NumV (Js.Num 1).
Proof.
  intros Hr. unfold read_state, Schema.select_state. rewrite Hr.
  reflexivity.
Qed.

Lemma request_filter_and_limit (cfg : IndexerConfig.t) (state : Js.Object) :
  Rpc.filters (request_of cfg state)
  = [Rpc.mk_filter "contract" [IndexerConfig.contractId cfg]] /\
  Rpc.limit (request_of cfg state) = IndexerConfig.batchSize cfg.
Proof. done. Qed.

(** C2 on the code: with the state row at ledger 102, the request of the
    cycle does not start at ledger 103; its [startLedger] is [NaN].  The
    filter and the limit are those of the configuration. *)
Theorem C2_startLedger_is_NaN_once_state_row_exists :
  let t := Schema.mk_tables []
             [Schema.mk_indexer_state 1 102 (Some "cursor-1") 0] in
  let w := SampleWorld.make t [] (SampleWorld.delivered []) in
  lastLedger t = 102 /\
  requests (snd (indexEvents SampleWorld.cfg w))
  = [Rpc.mk_request (Js.NumV Js.NaN)
       [Rpc.mk_filter "contract" ["CLOAN"]] 100].
Proof. vm_compute. by split. Qed.

(** ** The poll loop *)

Lemma poll_resume_fields (s : EventIndexer) :
  config (poll_resume s) = config s /\
  isRunning (poll_resume s) = isRunning s /\
  pollTimeout (poll_resume s) = Some (next_timeout s) /\
  timers (poll_resume s) = (timers s ++ [next_timer s])%list /\
  inflight (poll_resume s) = pred (inflight s) /\
  cycles (poll_resume s) = cycles s /\
  world (poll_resume s) = snd (cycle (config s) (world s)).
Proof. by repeat split. Qed.

Lemma poll_running (s : EventIndexer) :
  isRunning s = true ->
  config (poll s) = config s /\
  isRunning (poll s) = true /\
  pollTimeout (poll s) = Some (next_timeout s) /\
  timers (poll s) = (timers s ++ [next_timer s])%list /\
  inflight (poll s) = inflight s /\
  cycles (poll s) = S (cycles s) /\
  world (poll s) = snd (cycle (config s) (world s)).
Proof.
  intros Hrun. unfold poll, poll_enter. rewrite Hrun. simpl.
  by repeat split.
Qed.

(** C7: whatever the cycle does (the statement is for every world: every
    schedule of faults, every answer of the source), a running
    controller's [poll] arms a timer with the configured delay and stays
    running; so does the resumption of a suspended [poll]; and no action
    other than a call of [stop] turns a running controller into a stopped
    one. *)
Theorem C7_next_cycle_always_scheduled (s : EventIndexer) :
  isRunning s = true ->
  (timers (poll s) = (timers s ++ [next_timer s])%list /\
   delay (next_timer s) = IndexerConfig.pollIntervalMs (config s) /\
   pollTimeout (poll s) = Some (timeout_id (next_timer s)) /\
   isRunning (poll s) = true) /\
  (inflight s <> 0%nat ->
   timers (step Settle s) = (timers s ++ [next_timer s])%list /\
   isRunning (step Settle s) = true) /\
  (forall a, a <> CallStop -> isRunning (step a s) = true).
Proof.
  intros Hrun.
  destruct (poll_running s Hrun) as (_ & Hr & Hpt & Ht & _).
  split; [by repeat split|]. split.
  - intros Hin. simpl. destruct (inflight s); [done|].
    destruct (poll_resume_fields s) as (_ & Hr' & _ & Ht' & _).
    by rewrite Ht', Hr'.
  - intros [| |t|] Ha; simpl.
    + unfold start. by rewrite Hrun.
    + done.
    + destruct (armed t s); [|done]. unfold poll_enter. simpl.
      by rewrite Hrun.
    + destruct (inflight s); [done|].
      destruct (poll_resume_fields s) as (_ & Hr' & _). by rewrite Hr'.
Qed.

Lemma C7_next_cycle_always_scheduled_witness :
  let s := set_isRunning true
             (new_EventIndexer SampleWorld.cfg
                (SampleWorld.make (Schema.up 0) [] (Throw "ECONNREFUSED"))) in
  is_ok (fst (indexEvents (config s) (world s))) = false /\
  timers (poll s) = [mkTimeout 0 30000] /\
  isRunning (poll s) = true.
Proof.
  intros s.
  destruct (C7_next_cycle_always_scheduled s) as ((Ht & _ & _ & Hr) & _).
  - reflexivity.
  - split; [reflexivity|]. split; [exact Ht|exact Hr].
Defined.

(** C9: a cycle that reads the state and is answered an empty batch (or no
    batch at all) returns without an exception, leaves the database and the
    log as they were, and [poll] arms the next timer. *)
Theorem C9_empty_batch_no_side_effects
    (s : EventIndexer) (resp : Rpc.GetEventsResponse) :
  isRunning s = true ->
  head (faults (world s)) <> Some true ->
  answer (config s) (world s) = Ok resp ->
  Rpc.events resp = None \/ Rpc.events resp = Some [] ->
  fst (indexEvents (config s) (world s)) = Ok tt /\
  db (world (poll s)) = db (world s) /\
  log (world (poll s)) = log (world s) /\
  timers (poll s) = (timers s ++ [next_timer s])%list /\
  isRunning (poll s) = true.
Proof.
  intros Hrun Hhd Hans Hempty.
  assert (Hcycle : indexEvents (config s) (world s)
                   = (Ok tt, after_fetch (config s) (world s))).
  { rewrite (indexEvents_state_read _ _ Hhd), Hans.
    by destruct Hempty as [-> | ->]. }
  destruct (poll_running s Hrun) as (_ & Hr & _ & Ht & _ & _ & Hw).
  rewrite Hw. unfold cycle, try_catchM. rewrite Hcycle. simpl.
  by repeat split.
Qed.

Lemma C9_empty_batch_no_side_effects_witness :
  let s := set_isRunning true
             (new_EventIndexer SampleWorld.cfg (SampleWorld.fresh [] [])) in
  db (world (poll s)) = db (world s) /\
  timers (poll s) = [mkTimeout 0 30000].
Proof.
  intros s.
  destruct (C9_empty_batch_no_side_effects s
              (Rpc.mk_response (Some []) (Some "cursor-1")))
    as (_ & Hdb & _ & Ht & _).
  - reflexivity.
  - simpl. discriminate.
  - reflexivity.
  - right. reflexivity.
  - split; [exact Hdb|exact Ht].
Defined.

(** ** Stopping *)

(** C8, as stated, does not hold: [poll] does not look at [isRunning]
    again after its [await].  Here [stop] is called while the first cycle
    is in flight; when the cycle settles, a timer is armed on the stopped
    controller. *)
Lemma C8_counterexample :
  let s := run [CallStart; CallStop; Settle]
             (new_EventIndexer SampleWorld.cfg
                (SampleWorld.fresh [] SampleWorld.approvals)) in
  isRunning s = false /\
  timers s = [mkTimeout 0 30000] /\
  timers s <> [].
Proof. vm_compute. by repeat split. Qed.

(** Once stopped and with nothing in flight, nothing but [start] makes
    the controller enter a cycle. *)
Lemma stopped_stays_stopped (acts : list Action) :
  forall s,
    Forall (fun a => a <> CallStart) acts ->
    isRunning s = false ->
    inflight s = 0%nat ->
    isRunning (run acts s) = false /\
    cycles (run acts s) = cycles s /\
    world (run acts s) = world s.
Proof.
  induction acts as [|a acts IH]; intros s Hacts Hrun Hin; [done|].
  apply Forall_cons in Hacts as [Ha Hacts].
  assert (Hstep : isRunning (step a s) = false /\ inflight (step a s) = 0%nat /\
                  cycles (step a s) = cycles s /\ world (step a s) = world s).
  { destruct a as [| |t|]; simpl.
    - done.
    - unfold stop. simpl. by destruct (pollTimeout s).
    - destruct (armed t s); [|done]. unfold poll_enter. simpl.
      by rewrite Hrun.
    - by rewrite Hin. }
  destruct Hstep as (Hrun' & Hin' & Hc & Hw).
  destruct (IH (step a s) Hacts Hrun' Hin') as (? & ? & ?).
  unfold run in *. simpl. repeat split; congruence.
Qed.

Lemma single_loop_start (cfg : IndexerConfig.t) (w : World) :
  single_loop (start (new_EventIndexer cfg w)).
Proof. split; [done|]. by left. Qed.

Lemma single_loop_step (a : Action) (s : EventIndexer) :
  single_loop s -> a <> CallStop -> single_loop (step a s).
Proof.
  intros (Hrun & Hshape) Ha. destruct a as [| |t|]; simpl.
  - unfold start. by rewrite Hrun.
  - done.
  - destruct Hshape as [(Hin & Ht)|(Hin & t' & Ht & Hpt)].
    + unfold armed. rewrite Ht. simpl. by split; [|left].
    + unfold armed. rewrite Ht. simpl.
      destruct (Nat.eqb_spec t' t) as [->|Hne]; simpl.
      * unfold poll_enter, clearTimeout. simpl. rewrite Hrun, Ht, Hin. simpl.
        rewrite Nat.eqb_refl. simpl. split; [done|]. by left.
      * split; [done|]. right. eauto.
  - destruct Hshape as [(Hin & Ht)|(Hin & t' & Ht & Hpt)].
    + rewrite Hin.
      destruct (poll_resume_fields s) as (Hc & Hr & Hp & Htm & Hi & _).
      split; [by rewrite Hr|]. right. rewrite Hi, Hin. split; [done|].
      exists (next_timeout s). rewrite Htm, Ht, Hc. by split.
    + rewrite Hin. split; [done|]. right. eauto.
Qed.

(** C8, amended: for a controller that was started once.  If [stop] is
    called while a cycle is in flight, the cycle still settles with all its
    effects, and [poll] then arms its timer once more on the stopped
    controller; but whatever happens next short of a new [start] (that
    timer firing, further calls of [stop]), no cycle is entered and the
    world stays as the cycle left it.  If [stop] is called between two
    cycles, it clears the pending timer, and none is left.  [start] on a
    running controller changes nothing. *)
Theorem C8_stop_lets_cycle_finish_and_runs_no_other
    (s : EventIndexer) (acts : list Action) :
  single_loop s ->
  Forall (fun a => a <> CallStart) acts ->
  (inflight s = 1%nat ->
   let s1 := step Settle (step CallStop s) in
   world s1 = snd (cycle (config s) (world s)) /\
   isRunning s1 = false /\
   timers s1 = [next_timer s] /\
   cycles (run acts s1) = cycles s /\
   world (run acts s1) = world s1) /\
  (inflight s = 0%nat ->
   isRunning (stop s) = false /\
   timers (stop s) = [] /\
   cycles (run acts (stop s)) = cycles s /\
   world (run acts (stop s)) = world s) /\
  start s = s.
Proof.
  intros (Hrun & Hshape) Hacts. split; [|split].
  - intros Hin. destruct Hshape as [(_ & Ht)|(Hin0 & _)]; [|congruence].
    assert (Hstop : isRunning (stop s) = false /\ timers (stop s) = [] /\
                    inflight (stop s) = 1%nat /\ config (stop s) = config s /\
                    cycles (stop s) = cycles s /\ world (stop s) = world s /\
                    next_timeout (stop s) = next_timeout s).
    { unfold stop. simpl. destruct (pollTimeout s); simpl; rewrite ?Ht, ?Hin;
        by repeat split. }
    destruct Hstop as (Hr & Ht' & Hi & Hc & Hcy & Hw & Hn).
    simpl. rewrite Hi.
    destruct (poll_resume_fields (stop s))
      as (Hc1 & Hr1 & _ & Ht1 & Hi1 & Hcy1 & Hw1).
    rewrite Hr in Hr1. rewrite Hi in Hi1. rewrite Ht' in Ht1.
    rewrite Hc, Hw in Hw1. rewrite Hcy in Hcy1.
    assert (Hnt : next_timer (stop s) = next_timer s)
      by (unfold next_timer; by rewrite Hn, Hc).
    rewrite Hnt in Ht1.
    destruct (stopped_stays_stopped acts (poll_resume (stop s)) Hacts Hr1 Hi1)
      as (_ & Hcy2 & Hw2).
    repeat split; try done. congruence.
  - intros Hin. destruct Hshape as [(Hin1 & _)|(_ & t & Ht & Hpt)];
      [congruence|].
    assert (Hstop : isRunning (stop s) = false /\ timers (stop s) = [] /\
                    inflight (stop s) = 0%nat /\
                    cycles (stop s) = cycles s /\ world (stop s) = world s).
    { unfold stop. simpl. rewrite Hpt. simpl. rewrite Ht, Hin. simpl.
      rewrite Nat.eqb_refl. by repeat split. }
    destruct Hstop as (Hr & Ht' & Hi & Hcy & Hw).
    destruct (stopped_stays_stopped acts (stop s) Hacts Hr Hi) as (_ & ? & ?).
    repeat split; congruence.
  - unfold start. by rewrite Hrun.
Qed.

Lemma C8_stop_lets_cycle_finish_and_runs_no_other_witness :
  let s := start (new_EventIndexer SampleWorld.cfg
                    (SampleWorld.fresh [] SampleWorld.approvals)) in
  let s1 := step Settle (step CallStop s) in
  lastLedger (Db.committed (db (world s1))) = 102 /\
  cycles (run [Fire 0%nat; Settle; CallStop; Fire 1%nat] s1) = 1%nat.
Proof.
  intros s s1.
  destruct (C8_stop_lets_cycle_finish_and_runs_no_other s
              [Fire 0%nat; Settle; CallStop; Fire 1%nat])
    as (H & _).
  - split; [reflexivity|]. left. split; reflexivity.
  - repeat constructor; discriminate.
  - destruct (H eq_refl) as (Hw & _ & _ & Hc & _).
    split; [|exact Hc]. subst s1. rewrite Hw. reflexivity.
Defined.

(** * Further properties of the code *)

(** ** The decoder, event by event *)

(** X1: [decodeEventType] accepts the symbols "LoanRequested",
    "LoanApproved" and "LoanRepaid", each as its own kind, and nothing
    else: no other symbol and no value of another arm. *)
Theorem X1_decodeEventType_exact (x : ScVal) (k : EventType) :
  decodeEventType x = Some k <-> x = scvSymbol (EventType_toString k).
Proof.
  split.
  - destruct x as [| | | | | |s| | |]; try discriminate.
    unfold decodeEventType. simpl. unfold Js.String_toString.
    destruct (String.eqb_spec s "LoanRequested") as [->|_];
      [by intros [= <-]|].
    destruct (String.eqb_spec s "LoanApproved") as [->|_];
      [by intros [= <-]|].
    destruct (String.eqb_spec s "LoanRepaid") as [->|_];
      [by intros [= <-]|done].
  - intros ->. destruct k; reflexivity.
Qed.

Lemma pushed_nil_iff (e : EventResponse.t) :
  pushed e = [] <-> forall k, ~ recognised e k.
Proof.
  unfold pushed. split.
  - intros Hnil k Hrec.
    destruct (processEvent_recognised e k Hrec) as (t1 & cid & _ & _ & Hpe).
    by rewrite Hpe in Hnil.
  - intros Hnot. destruct (processEvent e) as [[|evt]|] eqn:Hpe; try done.
    destruct (Hnot _ (processEvent_push_recognised e evt Hpe)).
Qed.

(** X2: a raw event that the decoder does not recognise (not of type
    "contract", fewer than two topics, no contract id, or a first topic
    that is not one of the three kind symbols) is left out of the result
    and does not stop the loop: the events before and after it are decoded
    as if it were not there. *)
Theorem X2_unrecognised_event_is_skipped
    (before after : list EventResponse.t) (e : EventResponse.t) :
  (forall k, ~ recognised e k) ->
  processEvents (before ++ e :: after)
  = (processEvents before ++ processEvents after)%list.
Proof.
  intros Hnot. rewrite processEvents_app, processEvents_cons.
  apply pushed_nil_iff in Hnot. by rewrite Hnot.
Qed.

Lemma X2_unrecognised_event_is_skipped_witness :
  processEvents ([Sample.requested] ++ Sample.unrelated :: [Sample.repaid])
  = (processEvents [Sample.requested] ++ processEvents [Sample.repaid])%list.
Proof.
  apply (X2_unrecognised_event_is_skipped
           [Sample.requested] [Sample.repaid] Sample.unrelated).
  intros k (_ & (t0 & Ht0 & Hk) & _).
  simpl in Ht0. injection Ht0 as <-. by vm_compute in Hk.
Defined.

(** X3: the decoder invents nothing and keeps the order.  The ids of the
    decoded events are a subsequence of the ids of the raw batch, and every
    decoded event carries the id, ledger, close time, transaction hash and
    contract id of one raw event of the batch, with the encodings of all
    its topics and of its value. *)
Theorem X3_decoded_events_come_from_the_batch (raw : list EventResponse.t) :
  sublist (map LoanEvent.eventId (processEvents raw))
          (map EventResponse.id raw) /\
  forall evt, evt ∈ processEvents raw ->
    exists e, e ∈ raw /\
      LoanEvent.eventId evt = EventResponse.id e /\
      LoanEvent.ledger evt = EventResponse.ledger e /\
      LoanEvent.ledgerClosedAt evt = newDate (EventResponse.ledgerClosedAt e) /\
      LoanEvent.txHash evt = EventResponse.txHash e /\
      EventResponse.contractId e = Some (LoanEvent.contractId evt) /\
      LoanEvent.topics evt = map toXDR (EventResponse.topic e) /\
      LoanEvent.value evt = toXDR (EventResponse.value e).
Proof.
  induction raw as [|e raw [IHs IHe]].
  - split; [constructor|]. intros evt Hin. by apply elem_of_nil in Hin.
  - rewrite processEvents_cons. unfold pushed.
    destruct (processEvent e) as [[|evt0]|] eqn:Hpe; simpl.
    + split; [by apply sublist_cons|].
      intros evt Hin. destruct (IHe evt Hin) as (e' & He' & H).
      exists e'. split; [by apply elem_of_cons; right|done].
    + destruct (processEvent_copies e evt0 Hpe)
        as (Hid & Hl & Hd & Ht & Hc & Htp & Hv & _).
      split; [rewrite Hid; by apply sublist_skip|].
      intros evt Hin. apply elem_of_cons in Hin as [->|Hin].
      * exists e. split; [by apply elem_of_cons; left|done].
      * destruct (IHe evt Hin) as (e' & He' & H).
        exists e'. split; [by apply elem_of_cons; right|done].
    + split; [by apply sublist_cons|].
      intros evt Hin. destruct (IHe evt Hin) as (e' & He' & H).
      exists e'. split; [by apply elem_of_cons; right|done].
Qed.

Lemma decodeAmount_nonempty (x : ScVal) : decodeAmount x <> "".
Proof. rewrite decodeAmount_arms. by destruct x. Qed.

(** X5: the [loan_id] column.  For a raw event that the decoder accepts,
    wherever it stands in the batch, the parameter of the INSERT for
    [loan_id] is NULL when the event has no third topic, when the third
    topic is not a [u32] (the decoded 0, or [undefined] for a void topic)
    and also when it is the [u32] 0; it is the number of the topic in every
    other case, and never 0.  The column is an [integer]: a number above
    2147483647 is not taken, the INSERT of the row is refused. *)
Theorem X5_loan_id_parameter
    (before after : list EventResponse.t) (e : EventResponse.t)
    (k : EventType) (now : Z) :
  recognised e k ->
  exists evt,
    processEvents (before ++ e :: after)
    = (processEvents before ++ evt :: processEvents after)%list /\
    Schema.loan_id (insert_params evt now)
    = match EventResponse.topic e !! 2%nat with
      | Some (scvU32 n) => if n =? 0 then None else Some n
      | _ => None
      end /\
    Schema.loan_id (insert_params evt now) <> Some 0 /\
    (forall n,
       Schema.loan_id (insert_params evt now) = Some n ->
       2147483647 < n ->
       forall t, is_ok (Schema.insert_event (insert_params evt now) t) = false).
Proof.
  intros Hrec.
  assert (Hex : exists evt, processEvent e = Ok (Push evt)).
  { destruct (processEvent_recognised e k Hrec) as (? & ? & _ & _ & H).
    eauto. }
  destruct Hex as [evt Hpe]. exists evt.
  split; [by apply processEvents_at|].
  destruct (processEvent_copies e evt Hpe) as (_&_&_&_&_&_&_&_& Hl & _).
  assert (Hparam :
    Schema.loan_id (insert_params evt now)
    = match EventResponse.topic e !! 2%nat with
      | Some (scvU32 n) => if n =? 0 then None else Some n
      | _ => None
      end).
  { simpl. rewrite Hl.
    destruct (EventResponse.topic e !! 2%nat) as [t2|]; simpl; [|done].
    rewrite decodeLoanId_arms. unfold number_or_null, Js.truthy_number.
    destruct t2; simpl; try done. by destruct (n =? 0). }
  split; [exact Hparam|]. split.
  - rewrite Hparam.
    destruct (EventResponse.topic e !! 2%nat) as [[]|]; try done.
    destruct (Z.eqb_spec n 0); congruence.
  - intros n Hn Hbig t. unfold Schema.insert_event.
    assert (Hacc : Schema.accepts (insert_params evt now) = false).
    { unfold Schema.accepts. rewrite Hn. simpl.
      assert (Hint : Pg.int4 n = false).
      { unfold Pg.int4. apply andb_false_iff. right. lia. }
      rewrite Hint. by rewrite !andb_false_r. }
    by rewrite Hacc.
Qed.

Lemma X5_loan_id_parameter_witness :
  exists evt,
    processEvents ([Sample.approved] ++ Sample.requested_big :: [])
    = (processEvents [Sample.approved] ++ evt :: processEvents [])%list /\
    Schema.loan_id (insert_params evt 0) = Some 3000000000 /\
    is_ok (Schema.insert_event (insert_params evt 0) (Schema.up 0)) = false.
Proof.
  destruct (X5_loan_id_parameter [Sample.approved] [] Sample.requested_big
              LoanRequested 0) as (evt & Hpos & Hparam & _ & Hbig).
  - repeat split; simpl; eauto.
  - exists evt. split; [exact Hpos|]. split; [exact Hparam|].
    apply (Hbig 3000000000); [exact Hparam|lia].
Defined.

(** ** What a cycle does to the tables, whatever goes wrong *)

(** The rows a batch adds are rows of its events, for ids that had none. *)
Lemma store_all_new_rows (now : Z) (events : list LoanEvent.t) :
  forall t, exists rows,
    Schema.loan_events (store_all now events t)
    = (Schema.loan_events t ++ rows)%list /\
    Forall (fun r => count_event (Schema.event_id r) t = 0%nat /\
                     exists e, e ∈ events /\ r = insert_params e now) rows.
Proof.
  induction events as [|e events IH]; intros t.
  - exists []. split; [by rewrite app_nil_r|constructor].
  - rewrite store_all_cons.
    destruct (IH (store_one now t e)) as (rows & Hrows & Hall).
    assert (Hmono : forall eid,
              (count_event eid t <= count_event eid (store_one now t e))%nat).
    { intros eid. rewrite store_one_count. lia. }
    assert (Hall' : Forall (fun r => count_event (Schema.event_id r) t = 0%nat /\
                exists e0, e0 ∈ e :: events /\ r = insert_params e0 now) rows).
    { eapply Forall_impl; [exact Hall|]. intros r (Hc & e0 & He0 & Hr).
      split; [specialize (Hmono (Schema.event_id r)); lia|].
      exists e0. split; [by apply elem_of_cons; right|done]. }
    unfold store_one in *.
    destruct (Schema.select_event (LoanEvent.eventId e) t) eqn:Hsel.
    + exists (insert_params e now :: rows). simpl in Hrows.
      rewrite Hrows, <- app_assoc. split; [done|].
      constructor; [|done]. split.
      * unfold count_event. simpl. by rewrite Hsel.
      * exists e. split; [by apply elem_of_cons; left|done].
    + exists rows. by split.
Qed.

(** X6: the event store is append-only.  Whatever the faults and the
    answer of the source, a cycle leaves every row that was in
    [loan_events] in place and unchanged; what it adds, if anything, are
    rows of decoded events of the batch for ids that had no row. *)
Theorem X6_event_store_is_append_only (cfg : IndexerConfig.t) (w : World) :
  Db.idle (db w) ->
  exists rows,
    Schema.loan_events (Db.committed (db (snd (indexEvents cfg w))))
    = (Schema.loan_events (Db.committed (db w)) ++ rows)%list /\
    Forall (fun r =>
              count_event (Schema.event_id r) (Db.committed (db w)) = 0%nat /\
              exists resp raw e,
                answer cfg w = Ok resp /\ Rpc.events resp = Some raw /\
                e ∈ processEvents raw /\ r = insert_params e (now w))
           rows.
Proof.
  intros Hidle.
  destruct (indexEvents_cases cfg w Hidle) as (Hcase & _).
  assert (Hsame : forall t : Schema.Tables,
            Schema.loan_events t = Schema.loan_events (Db.committed (db w)) ->
            exists rows,
              Schema.loan_events t
              = (Schema.loan_events (Db.committed (db w)) ++ rows)%list /\
              Forall (fun r =>
                count_event (Schema.event_id r) (Db.committed (db w)) = 0%nat /\
                exists resp raw e,
                  answer cfg w = Ok resp /\ Rpc.events resp = Some raw /\
                  e ∈ processEvents raw /\ r = insert_params e (now w)) rows).
  { intros t Ht. exists []. split; [by rewrite app_nil_r|constructor]. }
  assert (Hstored : forall resp raw (t : Schema.Tables),
            answer cfg w = Ok resp -> Rpc.events resp = Some raw ->
            Schema.loan_events t
            = Schema.loan_events
                (store_all (now w) (processEvents raw) (Db.committed (db w))) ->
            exists rows,
              Schema.loan_events t
              = (Schema.loan_events (Db.committed (db w)) ++ rows)%list /\
              Forall (fun r =>
                count_event (Schema.event_id r) (Db.committed (db w)) = 0%nat /\
                exists resp raw e,
                  answer cfg w = Ok resp /\ Rpc.events resp = Some raw /\
                  e ∈ processEvents raw /\ r = insert_params e (now w)) rows).
  { intros resp raw t Hans Hraw Ht.
    destruct (store_all_new_rows (now w) (processEvents raw)
                (Db.committed (db w))) as (rows & Hrows & Hall).
    exists rows. split; [congruence|].
    eapply Forall_impl; [exact Hall|]. intros r (Hc & e & He & Hr).
    split; [done|]. eauto 10. }
  destruct Hcase as
    [ _ _ Hdb _ _ | err _ _ _ Hdb _ | resp _ _ _ _ Hdb _
    | resp raw _ _ _ _ _ Hc | resp raw _ Hans Hraw _ _ Hdb
    | resp raw l _ Hans Hraw _ _ Hdb ].
  - apply Hsame. by rewrite Hdb.
  - apply Hsame. by rewrite Hdb.
  - apply Hsame. by rewrite Hdb.
  - apply Hsame. by rewrite Hc.
  - apply (Hstored resp raw); [done|done|]. by rewrite Hdb.
  - apply (Hstored resp raw); [done|done|]. rewrite Hdb. simpl.
    apply update_state_loan_events.
Qed.

Lemma X6_event_store_is_append_only_witness :
  let w := SampleWorld.fresh [false; false; false; true] SampleWorld.approvals in
  exists rows,
    Schema.loan_events
      (Db.committed (db (snd (indexEvents SampleWorld.cfg w))))
    = (Schema.loan_events (Db.committed (db w)) ++ rows)%list.
Proof.
  intros w.
  destruct (X6_event_store_is_append_only SampleWorld.cfg w)
    as (rows & Hrows & _).
  - reflexivity.
  - exists rows. exact Hrows.
Defined.

(** X7: no cycle, whatever the faults and the answer of the source, breaks
    the uniqueness of [event_id]: if no two committed rows share an id
    before the cycle, none do after it. *)
Theorem X7_event_ids_stay_unique (cfg : IndexerConfig.t) (w : World) :
  Db.idle (db w) ->
  unique_event_ids (Db.committed (db w)) ->
  unique_event_ids (Db.committed (db (snd (indexEvents cfg w)))).
Proof. apply indexEvents_keeps_unique. Qed.

Lemma X7_event_ids_stay_unique_witness :
  let w := SampleWorld.fresh []
             [Sample.approved; Sample.approved; Sample.approval "ap-102" 102 9] in
  unique_event_ids (Db.committed (db (snd (indexEvents SampleWorld.cfg w)))).
Proof.
  intros w. apply (X7_event_ids_stay_unique SampleWorld.cfg w).
  - reflexivity.
  - apply NoDup_nil_2.
Defined.

Lemma lastLedger_update_state_any (ledger : Z) (cursor : string) (now : Z)
    (t : Schema.Tables) :
  lastLedger (Schema.update_state ledger cursor now t)
  = match Schema.latest (Schema.indexer_state t) with
    | Some _ => ledger
    | None => lastLedger t
    end /\
  lastCursor (Schema.update_state ledger cursor now t)
  = match Schema.latest (Schema.indexer_state t) with
    | Some _ => Some cursor
    | None => lastCursor t
    end.
Proof.
  destruct (Schema.latest (Schema.indexer_state t)) as [top|] eqn:Htop.
  - unfold lastLedger, lastCursor.
    by rewrite (update_state_latest _ _ _ _ top Htop).
  - by rewrite update_state_no_row.
Qed.

Lemma update_state_keeps_row (ledger : Z) (cursor : string) (now : Z)
    (t : Schema.Tables) :
  is_Some (Schema.latest
             (Schema.indexer_state (Schema.update_state ledger cursor now t)))
  <-> is_Some (Schema.latest (Schema.indexer_state t)).
Proof.
  destruct (Schema.latest (Schema.indexer_state t)) as [top|] eqn:Htop.
  - rewrite (update_state_latest _ _ _ _ top Htop). split; eauto.
  - rewrite update_state_no_row by done. by rewrite Htop.
Qed.

(** X8: redelivery is harmless.  If two cycles in a row succeed and the
    source gives the second the batch it gave the first, the second adds
    no row to [loan_events] and leaves [lastLedger] and [lastCursor] as the
    first set them. *)
Theorem X8_redelivered_batch_changes_nothing
    (cfg : IndexerConfig.t) (w : World) (resp : Rpc.GetEventsResponse) :
  Db.idle (db w) ->
  answer cfg w = Ok resp ->
  fst (indexEvents cfg w) = Ok tt ->
  answer cfg (snd (indexEvents cfg w)) = Ok resp ->
  fst (indexEvents cfg (snd (indexEvents cfg w))) = Ok tt ->
  let c1 := Db.committed (db (snd (indexEvents cfg w))) in
  let c2 := Db.committed (db (snd (indexEvents cfg (snd (indexEvents cfg w))))) in
  Schema.loan_events c2 = Schema.loan_events c1 /\
  lastLedger c2 = lastLedger c1 /\
  lastCursor c2 = lastCursor c1.
Proof.
  intros Hidle Hans Hok Hans2 Hok2. simpl.
  destruct (indexEvents_cases cfg w Hidle) as (Hcase & Hnow & _).
  pose (w1 := snd (indexEvents cfg w)).
  assert (Hshape : Db.idle (db w1) /\
            (((Rpc.events resp = None \/ Rpc.events resp = Some []) /\
              db w1 = db w) \/
             exists raw l, Rpc.events resp = Some raw /\ last raw = Some l /\
               db w1 = Db.mk
                 (Schema.update_state (EventResponse.ledger l)
                    (cursor_or_empty (Rpc.cursor resp)) (now w)
                    (store_all (now w) (processEvents raw)
                       (Db.committed (db w)))) None)).
  { unfold w1.
    destruct Hcase as
      [ _ Hf _ _ _ | err _ _ Hf _ _ | resp' _ Hans' Hempty _ Hdb _
      | resp' raw _ _ _ _ Hf _ | resp' raw _ _ _ _ Hf _
      | resp' raw l _ Hans' Hraw Hl _ Hdb ];
      try (rewrite Hok in Hf; discriminate Hf).
    - rewrite Hans in Hans'. injection Hans' as <-.
      split; [by rewrite Hdb|by left].
    - rewrite Hans in Hans'. injection Hans' as <-.
      split; [by rewrite Hdb|]. right. eauto. }
  clear Hcase. destruct Hshape as (Hidle1 & Hdb1).
  fold w1 in Hnow, Hans2, Hok2. fold w1.
  destruct (indexEvents_cases cfg w1 Hidle1) as (Hcase2 & _).
  destruct Hcase2 as
    [ _ Hf _ _ _ | err _ _ Hf _ _ | resp' _ _ _ _ Hdb2 _
    | resp' raw _ _ _ _ Hf _ | resp' raw _ _ _ _ Hf _
    | resp' raw2 l2 _ Hans' Hraw2 Hl2 _ Hdb2 ];
    try (rewrite Hok2 in Hf; discriminate Hf).
  - by rewrite Hdb2.
  - rewrite Hans2 in Hans'. injection Hans' as <-.
    rewrite Hdb2. simpl.
    destruct Hdb1 as [([He|He] & _)|(raw & l & Hraw & Hl & Hdb1)].
    + by rewrite He in Hraw2.
    + rewrite He in Hraw2. injection Hraw2 as <-. done.
    + rewrite Hraw in Hraw2. injection Hraw2 as <-.
      rewrite Hl in Hl2. injection Hl2 as <-.
      rewrite Hdb1. simpl. rewrite Hnow.
      set (T := store_all (now w) (processEvents raw) (Db.committed (db w))).
      set (U := Schema.update_state (EventResponse.ledger l)
                  (cursor_or_empty (Rpc.cursor resp)) (now w) T).
      assert (HU : store_all (now w) (processEvents raw) U = U).
      { apply store_all_present. intros e He.
        rewrite (count_event_ext _ U T) by apply update_state_loan_events.
        by apply store_all_stored. }
      rewrite HU.
      split; [apply update_state_loan_events|].
      destruct (lastLedger_update_state_any (EventResponse.ledger l)
                  (cursor_or_empty (Rpc.cursor resp)) (now w) U) as (HL & HC).
      rewrite HL, HC.
      destruct (Schema.latest (Schema.indexer_state U)) as [top|] eqn:HtopU;
        [|done].
      assert (HrowT : is_Some (Schema.latest (Schema.indexer_state T))).
      { apply (update_state_keeps_row (EventResponse.ledger l)
                 (cursor_or_empty (Rpc.cursor resp)) (now w) T).
        fold U. by rewrite HtopU. }
      destruct (lastLedger_update_state_any (EventResponse.ledger l)
                  (cursor_or_empty (Rpc.cursor resp)) (now w) T) as (HL' & HC').
      fold U in HL', HC'. rewrite HL', HC'.
      by destruct HrowT as [? ->].
Qed.

Lemma X8_redelivered_batch_changes_nothing_witness :
  let w := SampleWorld.fresh [] SampleWorld.approvals in
  let w1 := snd (indexEvents SampleWorld.cfg w) in
  let w2 := snd (indexEvents SampleWorld.cfg w1) in
  length (Schema.loan_events (Db.committed (db w1))) = 3%nat /\
  Schema.loan_events (Db.committed (db w2))
  = Schema.loan_events (Db.committed (db w1)) /\
  lastLedger (Db.committed (db w2)) = lastLedger (Db.committed (db w1)).
Proof.
  intros w w1 w2.
  destruct (X8_redelivered_batch_changes_nothing SampleWorld.cfg w
              (Rpc.mk_response (Some SampleWorld.approvals) (Some "cursor-1")))
    as (He & Hl & _).
  - reflexivity.
  - reflexivity.
  - reflexivity.
  - reflexivity.
  - reflexivity.
  - split; [reflexivity|]. split; [exact He|exact Hl].
Defined.

(** X9: without a row in [indexer_state] the indexer records no progress.
    The UPDATE of [updateIndexerState] then matches nothing, so whatever a
    cycle does, the table is as empty after it as before, [lastLedger]
    reads 0, and a cycle that gets to ask the source asks from ledger 1. *)
Theorem X9_no_state_row_no_progress (cfg : IndexerConfig.t) (w : World) :
  Db.idle (db w) ->
  Schema.latest (Schema.indexer_state (Db.committed (db w))) = None ->
  let w' := snd (indexEvents cfg w) in
  Schema.indexer_state (Db.committed (db w'))
  = Schema.indexer_state (Db.committed (db w)) /\
  lastLedger (Db.committed (db w')) = 0 /\
  (head (faults w) <> Some true ->
   exists req,
     requests w' = (requests w ++ [req])%list /\
     Rpc.startLedger req = Js.NumV (Js.Num 1)).
Proof.
  intros Hidle Hnone. simpl.
  destruct (indexEvents_cases cfg w Hidle) as (Hcase & _ & _ & Hreq).
  assert (Hst : Schema.indexer_state
                  (Db.committed (db (snd (indexEvents cfg w))))
                = Schema.indexer_state (Db.committed (db w))).
  { destruct Hcase as
      [ _ _ Hdb _ _ | err _ _ _ Hdb _ | resp _ _ _ _ Hdb _
      | resp raw _ _ _ _ _ Hc | resp raw _ _ _ _ _ Hdb
      | resp raw l _ _ _ _ _ Hdb ];
      rewrite ?Hdb, ?Hc; simpl; try done.
    - apply store_all_indexer_state.
    - rewrite update_state_no_row; rewrite store_all_indexer_state; done. }
  split; [done|]. split.
  - unfold lastLedger. by rewrite Hst, Hnone.
  - intros Hhd. eexists. split; [by apply Hreq|].
    unfold request_of, read_state, Schema.select_state. by rewrite Hnone.
Qed.

Lemma X9_no_state_row_no_progress_witness :
  let w := SampleWorld.make (Schema.mk_tables [] []) []
             (SampleWorld.delivered SampleWorld.approvals) in
  length (Schema.loan_events
            (Db.committed (db (snd (indexEvents SampleWorld.cfg w))))) = 3%nat /\
  Schema.indexer_state (Db.committed (db (snd (indexEvents SampleWorld.cfg w))))
  = [].
Proof.
  intros w.
  destruct (X9_no_state_row_no_progress SampleWorld.cfg w) as (H & _).
  - reflexivity.
  - reflexivity.
  - split; [reflexivity|exact H].
Defined.

(** X10: a cycle asks the source at most once.  If the read of the state
    is rejected, nothing is sent; otherwise exactly one request is sent,
    with the one filter of type "contract" on the configured contract id
    and the configured batch size as limit, whatever happens afterwards
    in the cycle. *)
Theorem X10_one_request_per_cycle (cfg : IndexerConfig.t) (w : World) :
  Db.idle (db w) ->
  let w' := snd (indexEvents cfg w) in
  (head (faults w) = Some true -> requests w' = requests w) /\
  (head (faults w) <> Some true ->
   exists req,
     requests w' = (requests w ++ [req])%list /\
     Rpc.filters req
     = [Rpc.mk_filter "contract" [IndexerConfig.contractId cfg]] /\
     Rpc.limit req = IndexerConfig.batchSize cfg).
Proof.
  intros Hidle. simpl.
  destruct (indexEvents_cases cfg w Hidle) as (_ & _ & _ & Hreq).
  split.
  - intros Hhd. destruct (faults w) as [|f rest] eqn:Hf; [done|].
    injection Hhd as ->.
    by rewrite (indexEvents_state_read_fails cfg w rest Hf).
  - intros Hhd. eexists. split; [by apply Hreq|]. by split.
Qed.

Lemma X10_one_request_per_cycle_witness :
  let w := SampleWorld.fresh [false; true] SampleWorld.approvals in
  length (requests (snd (indexEvents SampleWorld.cfg w))) = 1%nat.
Proof.
  intros w.
  destruct (X10_one_request_per_cycle SampleWorld.cfg w) as (_ & H).
  - reflexivity.
  - destruct H as (req & Hreq & _); [simpl; discriminate|].
    rewrite Hreq. reflexivity.
Defined.

(** ** Transactions and rejected queries *)

Lemma query_spends {A} (stmt : Z -> Db.t -> Exc (A * Db.t)) (w : World) :
  spends w (query stmt w).
Proof.
  unfold spends, query, rejections.
  destruct (faults w) as [|[] rest] eqn:Hf; simpl;
    try (destruct (stmt (now w) (db w)) as [[a d]|]; simpl);
    split; try lia; try done; by right.
Qed.

Lemma ret_spends {A} (a : A) (w : World) : spends w (ret a w).
Proof. unfold spends. simpl. split; [lia|done]. Qed.

Lemma bind_spends {A B} (m : M A) (k : A -> M B) (w : World) :
  spends w (m w) ->
  (forall a, fst (m w) = Ok a -> spends (snd (m w)) (k a (snd (m w)))) ->
  spends w (bind m k w).
Proof.
  unfold spends, bind. intros Hm Hk.
  destruct (m w) as [[a|err] w1]; simpl in *; [|done].
  specialize (Hk a eq_refl). destruct Hm as (Hle & _).
  destruct Hk as (Hle' & Hk). split; [lia|].
  destruct (fst (k a w1)); [done|].
  destruct Hk as [Hlt|Hi]; [left; lia|by right].
Qed.

Lemma storeEvent_spends (e : LoanEvent.t) (w : World) :
  spends w (storeEvent e w).
Proof.
  unfold storeEvent. apply bind_spends; [apply query_spends|].
  intros [|r ex] _; [apply query_spends|apply ret_spends].
Qed.

Lemma for_of_storeEvent_spends (events : list LoanEvent.t) :
  forall w, spends w (for_of events storeEvent w).
Proof.
  induction events as [|e events IH]; intros w; simpl.
  - apply ret_spends.
  - apply bind_spends; [apply storeEvent_spends|]. intros _ _. apply IH.
Qed.

Lemma storeEvents_body_spends (events : list LoanEvent.t) (w : World) :
  spends w
    ((let* _ := query Db.BEGIN in
      let* _ := for_of events storeEvent in
      query Db.COMMIT) w).
Proof.
  apply bind_spends; [apply query_spends|].
  intros _ _. apply bind_spends; [apply for_of_storeEvent_spends|].
  intros _ _. apply query_spends.
Qed.

Lemma no_rejection_head (w : World) :
  rejections w = 0%nat -> head (faults w) <> Some true.
Proof.
  unfold rejections. destruct (faults w) as [|[] rest]; simpl; done.
Qed.

(** The [catch] clause of [storeEvents] on a connection with no
    transaction open. *)
Lemma rollback_idle (err : string) (w : World) :
  Db.idle (db w) ->
  Db.idle (db (snd ((let* _ := query Db.ROLLBACK in @throw unit err) w))) /\
  (rejections (snd ((let* _ := query Db.ROLLBACK in @throw unit err) w))
   <= rejections w)%nat.
Proof.
  intros Hidle. unfold bind, query, throw, Db.ROLLBACK, rejections.
  destruct (faults w) as [|[] rest]; simpl; split; try done; lia.
Qed.

(** The same when no rejection is left: the ROLLBACK goes through. *)
Lemma rollback_accepted (err : string) (w : World) :
  rejections w = 0%nat ->
  Db.idle (db (snd ((let* _ := query Db.ROLLBACK in @throw unit err) w))) /\
  rejections (snd ((let* _ := query Db.ROLLBACK in @throw unit err) w))
  = 0%nat.
Proof.
  intros Hrej. unfold bind, query, throw, Db.ROLLBACK, rejections in *.
  destruct (faults w) as [|[] rest]; simpl in *; by split.
Qed.

(** [storeEvents] never adds to the schedule. *)
Lemma storeEvents_rejections (events : list LoanEvent.t) (w : World) :
  (rejections (snd (storeEvents events w)) <= rejections w)%nat.
Proof.
  unfold storeEvents. destruct events as [|e events]; [done|].
  pose proof (storeEvents_body_spends (e :: events) w) as (Hle & Hsp).
  unfold try_catchM.
  destruct ((let* _ := query Db.BEGIN in
             let* _ := for_of (e :: events) storeEvent in
             query Db.COMMIT) w) as [[[]|err] w1]; simpl in *; [done|].
  unfold bind, query, throw, Db.ROLLBACK, rejections in *.
  destruct (faults w1) as [|[] rest]; simpl in *; lia.
Qed.

(** [storeEvents] under at most one rejected query. *)
Lemma storeEvents_single_rejection
    (events : list LoanEvent.t) (w : World) :
  Db.idle (db w) ->
  (rejections w <= 1)%nat ->
  let r := storeEvents events w in
  Db.idle (db (snd r)) /\
  (is_ok (fst r) = false -> db (snd r) = db w) /\
  (is_ok (fst r) = true ->
   Db.committed (db (snd r))
   = store_all (now w) events (Db.committed (db w))).
Proof.
  intros Hidle Hrej. simpl.
  pose proof (storeEvents_outcome events w Hidle) as (_ & Hout).
  assert (Hi : Db.idle (db (snd (storeEvents events w)))).
  { clear Hout. unfold storeEvents. destruct events as [|e events]; [done|].
    pose proof (storeEvents_outcome (e :: events) w Hidle) as (_ & Hout).
    pose proof (storeEvents_body_spends (e :: events) w) as (Hle & Hsp).
    unfold storeEvents, try_catchM in *.
    destruct ((let* _ := query Db.BEGIN in
               let* _ := for_of (e :: events) storeEvent in
               query Db.COMMIT) w) as [[[]|err] w1]; simpl in *.
    - by rewrite Hout.
    - destruct Hsp as [Hlt|Hi1].
      + apply rollback_accepted. lia.
      + by apply rollback_idle. }
  split; [exact Hi|].
  destruct (fst (storeEvents events w)) as [[]|err]; simpl.
  - split; [done|]. intros _. by rewrite Hout.
  - split; [|done]. intros _.
    unfold Db.idle in *.
    destruct (db (snd (storeEvents events w))), (db w); simpl in *.
    by subst.
Qed.


(** X11: one rejected query does not leave a transaction behind.  If the
    schedule rejects at most one of the coming queries, [storeEvents]
    started with no transaction open ends with none open: either the batch
    is committed, or the transaction is gone (rolled back by the [catch]
    clause, or with the connection of a statement that the server
    refused) and the database is exactly as it was. *)
Theorem X11_single_rejection_is_rolled_back
    (events : list LoanEvent.t) (w : World) :
  Db.idle (db w) ->
  (rejections w <= 1)%nat ->
  let r := storeEvents events w in
  Db.idle (db (snd r)) /\
  (is_ok (fst r) = false -> db (snd r) = db w) /\
  (is_ok (fst r) = true ->
   Db.committed (db (snd r))
   = store_all (now w) events (Db.committed (db w))).
Proof. apply storeEvents_single_rejection. Qed.

Lemma X11_single_rejection_is_rolled_back_witness :
  let w := SampleWorld.fresh [false; false; true] [] in
  let r := storeEvents (processEvents SampleWorld.approvals) w in
  is_ok (fst r) = false /\ db (snd r) = db w.
Proof.
  intros w r.
  destruct (X11_single_rejection_is_rolled_back
              (processEvents SampleWorld.approvals) w) as (_ & H & _).
  - reflexivity.
  - vm_compute. lia.
  - split; [reflexivity|]. apply H. reflexivity.
Defined.

Lemma rejections_after_fetch (cfg : IndexerConfig.t) (w : World) :
  (rejections (after_fetch cfg w) <= rejections w)%nat.
Proof.
  unfold rejections, after_fetch. simpl.
  destruct (faults w) as [|[] rest]; simpl; lia.
Qed.

(** A cycle under at most one rejected query. *)
Lemma indexEvents_ends_idle
    (cfg : IndexerConfig.t) (w : World) :
  Db.idle (db w) ->
  (rejections w <= 1)%nat ->
  Db.idle (db (snd (indexEvents cfg w))).
Proof.
  intros Hidle Hrej.
  destruct (decide (head (faults w) = Some true)) as [Hhd|Hhd].
  { destruct (faults w) as [|f rest] eqn:Hf; [done|].
    injection Hhd as ->.
    by rewrite (indexEvents_state_read_fails cfg w rest Hf). }
  rewrite (indexEvents_state_read cfg w Hhd).
  destruct (answer cfg w) as [resp|err]; [|done].
  destruct (Rpc.events resp) as [[|e raw]|]; [done| |done].
  assert (Hidle' : Db.idle (db (after_fetch cfg w))) by done.
  assert (Hrej' : (rejections (after_fetch cfg w) <= 1)%nat).
  { pose proof (rejections_after_fetch cfg w). lia. }
  destruct (storeEvents_single_rejection (processEvents (e :: raw))
              (after_fetch cfg w) Hidle' Hrej') as (Hi & _).
  unfold bind.
  destruct (storeEvents (processEvents (e :: raw)) (after_fetch cfg w))
    as [[[]|err] w2]; simpl in Hi; [|done].
  destruct (last_cons_is_Some e raw) as [l Hl]. rewrite Hl.
  unfold updateIndexerState, query, Db.UPDATE_state, Db.write, Db.closed.
  unfold Db.idle in Hi.
  destruct (Pg.int4 _ && Pg.varchar 255 _);
    destruct (faults w2) as [|[] rest]; simpl; rewrite ?Hi; done.
Qed.


(** X12: a cycle that meets at most one rejected query leaves no
    transaction open.  Started with none open, [indexEvents] ends with
    none open, whichever query was the rejected one and whatever the
    source answered, so the cycle after it reads and writes the committed
    tables. *)
Theorem X12_cycle_with_one_rejection_ends_clean
    (cfg : IndexerConfig.t) (w : World) :
  Db.idle (db w) ->
  (rejections w <= 1)%nat ->
  Db.idle (db (snd (indexEvents cfg w))).
Proof. apply indexEvents_ends_idle. Qed.

Lemma X12_cycle_with_one_rejection_ends_clean_witness :
  Db.idle
    (db (snd (indexEvents SampleWorld.cfg
                (SampleWorld.fresh [false; false; false; false; true]
                   SampleWorld.approvals)))).
Proof.
  apply (X12_cycle_with_one_rejection_ends_clean SampleWorld.cfg
           (SampleWorld.fresh [false; false; false; false; true]
              SampleWorld.approvals)).
  - reflexivity.
  - vm_compute. lia.
Defined.

(** ** The life of one controller *)

Lemma single_loop_run (acts : list Action) :
  forall s,
    single_loop s ->
    Forall (fun a => a <> CallStop) acts ->
    single_loop (run acts s).
Proof.
  induction acts as [|a acts IH]; intros s Hs Hacts; [done|].
  apply Forall_cons in Hacts as [Ha Hacts].
  unfold run. simpl. apply IH; [|done]. by apply single_loop_step.
Qed.

(** X13: one cycle at a time.  From [start] on a new instance and until
    [stop] is called, whatever timers fire and cycles settle and however
    often [start] is called again, the controller is running and has
    either exactly one cycle in flight and no timer armed, or no cycle in
    flight and exactly one timer armed, the one held in [pollTimeout],
    with the configured delay. *)
Theorem X13_one_cycle_or_one_timer
    (cfg : IndexerConfig.t) (w : World) (acts : list Action) :
  Forall (fun a => a <> CallStop) acts ->
  let s := run acts (start (new_EventIndexer cfg w)) in
  isRunning s = true /\
  ((inflight s = 1%nat /\ timers s = []) \/
   (inflight s = 0%nat /\
    exists t,
      timers s = [mkTimeout t (IndexerConfig.pollIntervalMs cfg)] /\
      pollTimeout s = Some t)).
Proof.
  intros Hacts. simpl.
  pose proof (single_loop_run acts _ (single_loop_start cfg w) Hacts) as Hs.
  assert (Hcfg : forall acts s, config (run acts s) = config s).
  { clear. induction acts as [|a acts IH]; intros s; [done|].
    unfold run in *. simpl. rewrite IH.
    destruct a as [| |t|]; simpl.
    - unfold start. by destruct (isRunning s).
    - unfold stop. simpl. by destruct (pollTimeout s).
    - destruct (armed t s); [|done]. unfold poll_enter. simpl.
      by destruct (isRunning s).
    - by destruct (inflight s). }
  destruct Hs as (Hrun & Hshape). split; [done|].
  rewrite Hcfg in Hshape. exact Hshape.
Qed.

Lemma X13_one_cycle_or_one_timer_witness :
  let s := run [Settle; CallStart; Fire 0%nat; Fire 7%nat; Settle]
             (start (new_EventIndexer SampleWorld.cfg
                       (SampleWorld.fresh [true] []))) in
  isRunning s = true /\ cycles s = 2%nat /\ length (timers s) = 1%nat.
Proof.
  intros s.
  destruct (X13_one_cycle_or_one_timer SampleWorld.cfg
              (SampleWorld.fresh [true] [])
              [Settle; CallStart; Fire 0%nat; Fire 7%nat; Settle])
    as (Hrun & _).
  - repeat constructor; discriminate.
  - split; [exact Hrun|]. split; reflexivity.
Defined.

Lemma filter_filter_same {A} (f : A -> bool) (l : list A) :
  List.filter f (List.filter f l) = List.filter f l.
Proof.
  induction l as [|x l IH]; simpl; [done|].
  destruct (f x) eqn:Hx; simpl; rewrite ?Hx, IH; done.
Qed.

(** X14: [stop] is idempotent, and harmless on an instance that was never
    started: a second [stop] changes nothing, and [stop] right after the
    constructor leaves the instance as constructed. *)
Theorem X14_stop_is_idempotent (s : EventIndexer) :
  stop (stop s) = stop s /\
  forall cfg w, stop (new_EventIndexer cfg w) = new_EventIndexer cfg w.
Proof.
  split; [|done].
  unfold stop. simpl. destruct (pollTimeout s) as [t|] eqn:Hpt; simpl.
  - rewrite Hpt. unfold clearTimeout. simpl. by rewrite filter_filter_same.
  - by rewrite Hpt.
Qed.

Lemma stop_fields (s : EventIndexer) :
  config (stop s) = config s /\
  isRunning (stop s) = false /\
  pollTimeout (stop s) = pollTimeout s /\
  next_timeout (stop s) = next_timeout s /\
  inflight (stop s) = inflight s /\
  cycles (stop s) = cycles s /\
  world (stop s) = world s /\
  (timers s = [] -> timers (stop s) = []).
Proof.
  unfold stop. simpl. destruct (pollTimeout s) eqn:Hpt; simpl;
    repeat split; try done. by intros ->.
Qed.

Lemma start_fields (s : EventIndexer) :
  isRunning s = false ->
  config (start s) = config s /\
  isRunning (start s) = true /\
  pollTimeout (start s) = pollTimeout s /\
  timers (start s) = timers s /\
  next_timeout (start s) = next_timeout s /\
  inflight (start s) = S (inflight s) /\
  cycles (start s) = S (cycles s).
Proof.
  intros Hrun. unfold start. rewrite Hrun. by repeat split.
Qed.

Lemma settle_fields (s : EventIndexer) :
  inflight s <> 0%nat ->
  config (step Settle s) = config s /\
  isRunning (step Settle s) = isRunning s /\
  pollTimeout (step Settle s) = Some (next_timeout s) /\
  timers (step Settle s) = (timers s ++ [next_timer s])%list /\
  next_timeout (step Settle s) = S (next_timeout s) /\
  inflight (step Settle s) = pred (inflight s) /\
  cycles (step Settle s) = cycles s.
Proof.
  intros Hin. simpl. destruct (inflight s) eqn:Hi; [done|].
  unfold poll_resume, setTimeout. simpl. rewrite Hi. by repeat split.
Qed.

(** X15: [start] does not wait for a stopped controller's cycle.  If
    [stop] and then [start] are called while a cycle is in flight, [start]
    enters a second cycle at once, so two cycles are in flight together;
    when both have settled the controller is running with two timers
    armed, of which [pollTimeout] holds only the later one. *)
Theorem X15_restart_during_cycle_doubles_the_loop (s : EventIndexer) :
  single_loop s ->
  inflight s = 1%nat ->
  let s2 := step CallStart (step CallStop s) in
  let s4 := step Settle (step Settle s2) in
  isRunning s2 = true /\
  inflight s2 = 2%nat /\
  cycles s2 = S (cycles s) /\
  isRunning s4 = true /\
  inflight s4 = 0%nat /\
  timers s4
  = [mkTimeout (next_timeout s) (IndexerConfig.pollIntervalMs (config s));
     mkTimeout (S (next_timeout s)) (IndexerConfig.pollIntervalMs (config s))] /\
  pollTimeout s4 = Some (S (next_timeout s)).
Proof.
  intros (Hrun & Hshape) Hin.
  destruct Hshape as [(_ & Ht)|(Hin0 & _)]; [|congruence].
  cbv zeta. change (step CallStop s) with (stop s).
  change (step CallStart (stop s)) with (start (stop s)).
  destruct (stop_fields s) as (Hc1 & Hr1 & _ & Hn1 & Hi1 & Hcy1 & _ & Ht1).
  specialize (Ht1 Ht).
  destruct (start_fields (stop s) Hr1)
    as (Hc2 & Hr2 & _ & Ht2 & Hn2 & Hi2 & Hcy2).
  set (s2 := start (stop s)) in *.
  assert (Hi2' : inflight s2 = 2%nat) by congruence.
  destruct (settle_fields s2) as (Hc3 & Hr3 & _ & Ht3 & Hn3 & Hi3 & _);
    [congruence|].
  set (s3 := step Settle s2) in *.
  assert (Hi3' : inflight s3 = 1%nat) by (rewrite Hi3, Hi2'; done).
  destruct (settle_fields s3) as (_ & Hr4 & Hp4 & Ht4 & _ & Hi4 & _);
    [congruence|].
  repeat split; try congruence.
  - by rewrite Hi4, Hi3'.
  - rewrite Ht4, Ht3, Ht2, Ht1. unfold next_timer.
    rewrite Hn3, Hc3, Hn2, Hc2, Hn1, Hc1. reflexivity.
Qed.

Lemma X15_restart_during_cycle_doubles_the_loop_witness :
  let s := start (new_EventIndexer SampleWorld.cfg
                    (SampleWorld.fresh [] SampleWorld.approvals)) in
  inflight (step CallStart (step CallStop s)) = 2%nat.
Proof.
  intros s.
  destruct (X15_restart_during_cycle_doubles_the_loop s) as (_ & Hi & _).
  - split; [reflexivity|]. left. split; reflexivity.
  - reflexivity.
  - exact Hi.
Defined.

(** ** The manager *)

Lemma startIndexer_without_contract_id
    (parseInt : string -> Js.Number) (env : Env.t) (p : Process) :
  indexerInstance p = None ->
  Env.LOAN_MANAGER_CONTRACT_ID env = None \/
  Env.LOAN_MANAGER_CONTRACT_ID env = Some "" ->
  startIndexer parseInt env p = Some (process_log contract_id_not_set p).
Proof.
  intros Hnone Hcid. unfold startIndexer. rewrite Hnone.
  by destruct Hcid as [-> | ->].
Qed.

(** X17: without a contract id the indexer never starts.  In a process
    where every call of [startIndexer] finds LOAN_MANAGER_CONTRACT_ID unset
    or empty, whatever the other variables hold and whatever else happens,
    no instance is ever built, the database stays as it was and nothing is
    asked of the source; each such call only logs a warning. *)
Theorem X17_no_contract_id_no_indexer
    (parseInt : string -> Js.Number) (w : World) (acts : list ProcessAction) :
  without_contract_id acts ->
  exists p,
    process_run parseInt acts (boot w) = Some p /\
    getIndexer p = None /\
    instances p = [] /\
    db (pworld p) = db w /\
    requests (pworld p) = requests w.
Proof.
  unfold boot.
  assert (Hgen : forall acts p0,
            without_contract_id acts ->
            indexerInstance p0 = None -> instances p0 = [] ->
            exists p,
              process_run parseInt acts p0 = Some p /\
              indexerInstance p = None /\ instances p = [] /\
              db (pworld p) = db (pworld p0) /\
              requests (pworld p) = requests (pworld p0)).
  { clear. induction acts as [|a acts IH]; intros p0 Hacts Hnone Hinst.
    - exists p0. by repeat split.
    - assert (Hacts' : without_contract_id acts).
      { intros env Hin. apply Hacts. by apply elem_of_cons; right. }
      assert (Hstep : exists p1,
                process_step parseInt a p0 = Some p1 /\
                indexerInstance p1 = None /\ instances p1 = [] /\
                db (pworld p1) = db (pworld p0) /\
                requests (pworld p1) = requests (pworld p0)).
      { destruct a as [env| |i ev]; simpl.
        - rewrite startIndexer_without_contract_id;
            [|done|apply Hacts; by apply elem_of_cons; left].
          eexists. split; [done|]. by repeat split.
        - unfold stopIndexer. rewrite Hnone. exists p0. by repeat split.
        - unfold on_instance. rewrite Hinst. simpl.
          exists p0. by repeat split. }
      destruct Hstep as (p1 & Hp1 & Hn1 & Hi1 & Hdb1 & Hr1).
      destruct (IH p1 Hacts' Hn1 Hi1) as (p & Hp & Hn & Hi & Hdb & Hr).
      exists p. simpl. rewrite Hp1. repeat split; try done; congruence. }
  intros Hacts.
  destruct (Hgen acts (mkProcess None [] w) Hacts eq_refl eq_refl)
    as (p & Hp & Hn & Hi & Hdb & Hr).
  exists p. repeat split; try done.
  unfold getIndexer. by rewrite Hn.
Qed.

Lemma X17_no_contract_id_no_indexer_witness :
  exists p,
    process_run parseInt_decimal
      [StartIndexer (Env.mk None None (Some "15000") (Some "50"));
       OnInstance 0 CycleSettles;
       StartIndexer (Env.mk None (Some "") None None);
       StopIndexer]
      (boot (SampleWorld.fresh [] SampleWorld.approvals)) = Some p /\
    getIndexer p = None /\
    instances p = [] /\
    db (pworld p) = db (SampleWorld.fresh [] SampleWorld.approvals) /\
    requests (pworld p) = requests (SampleWorld.fresh [] SampleWorld.approvals).
Proof.
  apply (X17_no_contract_id_no_indexer parseInt_decimal).
  intros env Hin.
  repeat (apply elem_of_cons in Hin as [Heq|Hin];
          [try discriminate Heq; injection Heq as ->; simpl; by eauto|]).
  by apply elem_of_nil in Hin.
Defined.

Lemma runtime_event_keeps_isRunning (ev : RuntimeEvent) (s : EventIndexer) :
  isRunning (step (action_of ev) s) = isRunning s.
Proof.
  destruct ev as [t|]; simpl.
  - destruct (armed t s); [|done]. unfold poll_enter. simpl.
    destruct (isRunning s) eqn:Hr; simpl; done.
  - by destruct (inflight s).
Qed.

Lemma single_loop_set_world (w : World) (s : EventIndexer) :
  single_loop (set_world w s) <-> single_loop s.
Proof. done. Qed.

Lemma one_running_step
    (parseInt : string -> Js.Number) (a : ProcessAction) (p p' : Process) :
  one_running p -> process_step parseInt a p = Some p' -> one_running p'.
Proof.
  intros (Hidx & Hrun) Hstep. destruct a as [env| |i ev]; simpl in Hstep.
  - unfold startIndexer in Hstep.
    destruct (indexerInstance p) as [i|] eqn:Hcur.
    { injection Hstep as <-. split; simpl; rewrite ?Hcur; [apply Hidx|].
      intros j s Hj Hr. by apply Hrun. }
    destruct (negb _).
    { injection Hstep as <-. split; simpl; rewrite ?Hcur; [done|].
      intros j s Hj Hr. by destruct (Hrun j s Hj Hr). }
    destruct (parseInt _) as [ms|]; [|done].
    destruct (parseInt _) as [n|]; [|done].
    injection Hstep as <-. split; simpl.
    + intros i [= <-]. rewrite length_app. simpl. lia.
    + intros j s Hj Hr.
      apply lookup_app_Some in Hj as [Hj|(Hge & Hj)].
      * destruct (Hrun j s Hj Hr) as (Hc & _). congruence.
      * apply list_lookup_singleton_Some in Hj as (Hz & <-).
        split; [f_equal; lia|]. apply single_loop_start.
  - injection Hstep as <-. unfold stopIndexer.
    destruct (indexerInstance p) as [i|] eqn:Hcur.
    2:{ split; [intros k Hk; congruence|].
        intros j s Hj Hr. rewrite Hcur. by apply Hrun. }
    split; simpl; [done|].
    intros j s Hj Hr. exfalso.
    destruct (decide (j = i)) as [->|Hne].
    + rewrite list_lookup_alter_eq in Hj.
      destruct (instances p !! i) as [s0|]; [|done].
      simpl in Hj. injection Hj as <-.
      destruct (stop_fields (set_world (pworld p) s0)) as (_ & Hf & _).
      congruence.
    + rewrite list_lookup_alter_ne in Hj by done.
      destruct (Hrun j s Hj Hr) as (Hc & _). congruence.
  - injection Hstep as <-. unfold on_instance.
    destruct (instances p !! i) as [s0|] eqn:Hi; [|by split].
    split; simpl.
    + intros k Hk. rewrite length_insert. by apply Hidx.
    + intros j s Hj Hr.
      destruct (decide (j = i)) as [->|Hne].
      * rewrite list_lookup_insert_eq in Hj
          by (by eapply lookup_lt_Some).
        injection Hj as <-.
        rewrite runtime_event_keeps_isRunning in Hr.
        destruct (Hrun i s0 Hi Hr) as (Hc & Hs).
        split; [done|]. apply single_loop_step.
        -- by apply single_loop_set_world.
        -- by destruct ev.
      * rewrite list_lookup_insert_ne in Hj by done.
        by apply Hrun.
Qed.

(** X20: through the manager, at most one loop runs.  Whatever sequence
    of calls of [startIndexer] and [stopIndexer], timers firing and cycles
    settling a process goes through, an instance that is running is the one
    the manager holds, and it has exactly one cycle in flight or exactly
    one timer armed; every instance the manager has let go of is
    stopped. *)
Theorem X20_manager_keeps_one_loop
    (parseInt : string -> Js.Number) (w : World)
    (acts : list ProcessAction) (p : Process) :
  process_run parseInt acts (boot w) = Some p ->
  forall j s,
    instances p !! j = Some s ->
    (isRunning s = true -> indexerInstance p = Some j /\ single_loop s) /\
    (indexerInstance p <> Some j -> isRunning s = false).
Proof.
  intros Hrun.
  assert (Hinv : one_running p).
  { assert (Hgen : forall acts p0 p,
              one_running p0 -> process_run parseInt acts p0 = Some p ->
              one_running p).
    { clear. induction acts as [|a acts IH]; intros p0 p H0 Hrun.
      - by injection Hrun as <-.
      - simpl in Hrun.
        destruct (process_step parseInt a p0) as [p1|] eqn:Hstep; [|done].
        eapply IH; [|exact Hrun]. by eapply one_running_step. }
    apply (Hgen acts (boot w)); [|done].
    split; [done|]. intros j s Hj. simpl in Hj.
    apply lookup_lt_Some in Hj. simpl in Hj. lia. }
  destruct Hinv as (_ & Hinv). intros j s Hj. split.
  - by apply Hinv.
  - intros Hne. destruct (isRunning s) eqn:Hr; [|done].
    by destruct (Hinv j s Hj Hr).
Qed.

Lemma X20_manager_keeps_one_loop_witness :
  exists p,
    process_run parseInt_decimal
      [StartIndexer (env_with_contract "CLOAN");
       StopIndexer;
       StartIndexer (env_with_contract "CLOAN");
       OnInstance 0 CycleSettles;
       OnInstance 0 (TimerFires 0);
       OnInstance 1 CycleSettles]
      (boot (SampleWorld.fresh [] SampleWorld.approvals)) = Some p /\
    length (instances p) = 2%nat /\
    forall j s,
      instances p !! j = Some s ->
      indexerInstance p <> Some j -> isRunning s = false.
Proof.
  eexists. split; [vm_compute; reflexivity|]. split; [reflexivity|].
  intros j s Hj.
  apply (X20_manager_keeps_one_loop parseInt_decimal
           (SampleWorld.fresh [] SampleWorld.approvals)
           [StartIndexer (env_with_contract "CLOAN");
            StopIndexer;
            StartIndexer (env_with_contract "CLOAN");
            OnInstance 0 CycleSettles;
            OnInstance 0 (TimerFires 0);
            OnInstance 1 CycleSettles] _ ltac:(vm_compute; reflexivity) j s Hj).
Defined.

(** ** The status endpoint *)

Lemma reduce_counts_lookup (parseInt : string -> Js.Number)
    (rows : list (string * string)) (k : string) :
  forall acc : gmap string Js.Number,
    (exists v, (k, v) ∈ rows /\
       (fold_left (fun (acc : gmap string Js.Number) row =>
                     <[fst row := parseInt (snd row)]> acc) rows acc) !! k
       = Some (parseInt v)) \/
    ((k ∉ map fst rows) /\
     (fold_left (fun (acc : gmap string Js.Number) row =>
                   <[fst row := parseInt (snd row)]> acc) rows acc) !! k
     = acc !! k).
Proof.
  induction rows as [|[k0 v0] rows IH]; intros acc; simpl.
  - right. split; [apply not_elem_of_nil|done].
  - destruct (IH (<[k0 := parseInt v0]> acc)) as [(v & Hin & Hv)|(Hnot & Hv)].
    + left. exists v. split; [by apply elem_of_cons; right|done].
    + destruct (decide (k = k0)) as [->|Hne].
      * left. exists v0. split; [by apply elem_of_cons; left|].
        by rewrite Hv, lookup_insert_eq.
      * right. split.
        -- apply not_elem_of_cons. by split.
        -- by rewrite Hv, lookup_insert_ne.
Qed.

Lemma rows_of_type_nil (ty : string) (t : Schema.Tables) :
  StatusSql.rows_of_type ty t = [] <->
  ty ∉ map Schema.event_type (Schema.loan_events t).
Proof.
  unfold StatusSql.rows_of_type.
  induction (Schema.loan_events t) as [|r l IH]; simpl.
  - split; [intros _; apply not_elem_of_nil|done].
  - rewrite not_elem_of_cons.
    destruct (String.eqb_spec (Schema.event_type r) ty) as [->|Hne]; simpl.
    + split; [discriminate|]. by intros [? _].
    + rewrite IH. split; [by split|by intros [_ ?]].
Qed.

(** The counts by type, as the handler reports them. *)
Lemma counts_by_type_lookup (parseInt : string -> Js.Number)
    (t : Schema.Tables) (k : string) :
  reduce_counts parseInt
    (map (fun ty => (ty, StatusSql.count_numeral (StatusSql.rows_of_type ty t)))
         (remove_dups (map Schema.event_type (Schema.loan_events t))))
    !! k
  = match StatusSql.rows_of_type k t with
    | [] => None
    | rows => Some (parseInt (StatusSql.count_numeral rows))
    end.
Proof.
  unfold reduce_counts.
  destruct (reduce_counts_lookup parseInt
              (map (fun ty =>
                      (ty, StatusSql.count_numeral (StatusSql.rows_of_type ty t)))
                   (remove_dups (map Schema.event_type (Schema.loan_events t))))
              k ∅) as [(v & Hin & Hv)|(Hnot & Hv)].
  - rewrite Hv. apply list_elem_of_fmap in Hin as (ty & [= <- ->] & Hty).
    rewrite elem_of_remove_dups in Hty.
    destruct (StatusSql.rows_of_type k t) eqn:Hrows; [|done].
    apply rows_of_type_nil in Hrows. destruct (Hrows Hty).
  - rewrite Hv, lookup_empty.
    rewrite <- list_fmap_compose in Hnot.
    assert (Hk : k ∉ map Schema.event_type (Schema.loan_events t)).
    { intros Hin. apply Hnot. apply list_elem_of_fmap. exists k.
      split; [done|]. by apply elem_of_remove_dups. }
    apply rows_of_type_nil in Hk. by rewrite Hk.
Qed.

Lemma EventType_toString_inj (k k' : EventType) :
  EventType_toString k = EventType_toString k' -> k = k'.
Proof. by destruct k, k'. Qed.

Lemma known_types_total (t : Schema.Tables) :
  known_types t ->
  (length (StatusSql.rows_of_type "LoanRequested" t)
   + length (StatusSql.rows_of_type "LoanApproved" t)
   + length (StatusSql.rows_of_type "LoanRepaid" t))%nat
  = length (Schema.loan_events t).
Proof.
  unfold known_types, StatusSql.rows_of_type.
  induction (Schema.loan_events t) as [|r l IH]; intros Hall; [done|].
  apply Forall_cons in Hall as [(k & Hk) Hall]. specialize (IH Hall).
  simpl. rewrite Hk. destruct k; simpl; lia.
Qed.

Lemma query_accepted {A} (stmt : Z -> Db.t -> Exc (A * Db.t)) (w : World)
    (a : A) (d : Db.t) :
  rejections w = 0%nat ->
  stmt (now w) (db w) = Ok (a, d) ->
  query stmt w = (Ok a, set_db d (set_faults (tail (faults w)) w)) /\
  rejections (set_db d (set_faults (tail (faults w)) w)) = 0%nat.
Proof.
  unfold rejections, query. intros Hrej Hstmt.
  destruct (faults w) as [|[] rest]; simpl in *; try done;
    by rewrite Hstmt.
Qed.

(** X21: with its queries going through, the status endpoint answers 404
    exactly when [indexer_state] has no row, and otherwise 200 with the
    progress as stored (the ledger and the cursor of the latest state row)
    and the counts of [loan_events]: the total, and per event type the
    number of rows of that type.  Over the three types that the indexer
    writes, the counts by type add up to the total.  ([parseInt] is asked
    to read the numerals of the counts at hand correctly.) *)
Theorem X21_status_reports_stored_progress_and_counts
    (parseInt : string -> Js.Number) (w : World) :
  rejections w = 0%nat ->
  known_types (Db.view (db w)) ->
  (forall n : nat,
     (n <= length (Schema.loan_events (Db.view (db w))))%nat ->
     parseInt (Js.Z_toString (Z.of_nat n)) = Js.Num (Z.of_nat n)) ->
  let t := Db.view (db w) in
  exists resp,
    fst (getIndexerStatus parseInt w) = Ok resp /\
    match Schema.latest (Schema.indexer_state t) with
    | None =>
        resp = Http.mk 404 false (Some "Indexer state not found") None
    | Some _ =>
        exists st,
          resp = Http.mk 200 true None (Some st) /\
          lastIndexedLedger st = lastLedger t /\
          lastIndexedCursor st = lastCursor t /\
          totalEvents st
          = Js.Num (Z.of_nat (length (Schema.loan_events t))) /\
          (forall k,
             count_of (eventsByType st) k
             = Z.of_nat (length (StatusSql.rows_of_type
                                   (EventType_toString k) t))) /\
          count_of (eventsByType st) LoanRequested
          + count_of (eventsByType st) LoanApproved
          + count_of (eventsByType st) LoanRepaid
          = Z.of_nat (length (Schema.loan_events t))
    end.
Proof.
  intros Hrej Hknown Hparse. simpl.
  unfold getIndexerStatus, try_catchM, bind.
  destruct (query_accepted StatusSql.SELECT_state w _ _ Hrej eq_refl)
    as (Hq1 & Hrej1).
  rewrite Hq1.
  set (w1 := set_db (db w) (set_faults (tail (faults w)) w)) in *.
  destruct (Schema.latest (Schema.indexer_state (Db.view (db w))))
    as [state|] eqn:Hstate.
  2:{ eexists. split; reflexivity. }
  destruct (query_accepted StatusSql.SELECT_counts w1 _ _ Hrej1 eq_refl)
    as (Hq2 & Hrej2).
  rewrite Hq2.
  set (w2 := set_db (db w1) (set_faults (tail (faults w1)) w1)) in *.
  destruct (query_accepted StatusSql.SELECT_total w2 _ _ Hrej2 eq_refl)
    as (Hq3 & _).
  rewrite Hq3. simpl.
  assert (Hcount : forall k,
            count_of
              (reduce_counts parseInt
                 (map (fun ty =>
                         (ty, StatusSql.count_numeral
                                (StatusSql.rows_of_type ty (Db.view (db w)))))
                      (remove_dups
                         (map Schema.event_type
                              (Schema.loan_events (Db.view (db w)))))))
              k
            = Z.of_nat (length (StatusSql.rows_of_type (EventType_toString k)
                                  (Db.view (db w))))).
  { intros k. unfold count_of. rewrite counts_by_type_lookup.
    destruct (StatusSql.rows_of_type (EventType_toString k) (Db.view (db w)))
      as [|r rows] eqn:Hrows; [done|].
    unfold StatusSql.count_numeral. rewrite Hparse; [done|].
    rewrite <- Hrows. unfold StatusSql.rows_of_type.
    apply List.filter_length_le. }
  eexists. split; [reflexivity|].
  eexists. split; [reflexivity|]. simpl.
  split; [unfold lastLedger; by rewrite Hstate|].
  split; [unfold lastCursor; by rewrite Hstate|].
  split; [unfold StatusSql.count_numeral; by apply Hparse|].
  split; [exact Hcount|].
  rewrite !Hcount. rewrite <- (known_types_total _ Hknown). simpl. lia.
Qed.

Lemma parseInt_decimal_numeral (v : Z) :
  parseInt_decimal (Js.Z_toString v) = Js.Num v.
Proof. unfold parseInt_decimal. by rewrite Z_toString_exact. Qed.

Lemma X21_status_reports_stored_progress_and_counts_witness :
  let w := snd (indexEvents SampleWorld.cfg
                  (SampleWorld.fresh [] SampleWorld.approvals)) in
  let t := Db.view (db w) in
  exists resp,
    fst (getIndexerStatus parseInt_decimal w) = Ok resp /\
    match Schema.latest (Schema.indexer_state t) with
    | None =>
        resp = Http.mk 404 false (Some "Indexer state not found") None
    | Some _ =>
        exists st,
          resp = Http.mk 200 true None (Some st) /\
          lastIndexedLedger st = lastLedger t /\
          lastIndexedCursor st = lastCursor t /\
          totalEvents st
          = Js.Num (Z.of_nat (length (Schema.loan_events t))) /\
          (forall k,
             count_of (eventsByType st) k
             = Z.of_nat (length (StatusSql.rows_of_type
                                   (EventType_toString k) t))) /\
          count_of (eventsByType st) LoanRequested
          + count_of (eventsByType st) LoanApproved
          + count_of (eventsByType st) LoanRepaid
          = Z.of_nat (length (Schema.loan_events t))
    end.
Proof.
  intros w.
  apply (X21_status_reports_stored_progress_and_counts parseInt_decimal w).
  - vm_compute. reflexivity.
  - unfold known_types. vm_compute.
    constructor; [by exists LoanApproved|].
    constructor; [by exists LoanApproved|].
    constructor; [by exists LoanApproved|].
    constructor.
  - intros n _. apply parseInt_decimal_numeral.
Defined.

(** X22: the status endpoint always answers and never writes.  Whatever
    queries are rejected, the handler returns a response (it does not
    throw), with status 200, 404 or 500; [success] is set exactly on 200;
    a 500 comes only from a rejected query and is logged; and the database
    is left exactly as it was. *)
Theorem X22_status_always_answers_and_never_writes
    (parseInt : string -> Js.Number) (w : World) :
  exists resp,
    fst (getIndexerStatus parseInt w) = Ok resp /\
    db (snd (getIndexerStatus parseInt w)) = db w /\
    (Http.statusCode resp = 200 \/ Http.statusCode resp = 404 \/
     Http.statusCode resp = 500) /\
    (Http.success resp = true <-> Http.statusCode resp = 200) /\
    (Http.statusCode resp = 500 ->
     (0 < rejections w)%nat /\
     log (snd (getIndexerStatus parseInt w))
     = (log w ++ ["Failed to get indexer status"])%list) /\
    (Http.statusCode resp <> 500 ->
     log (snd (getIndexerStatus parseInt w)) = log w).
Proof.
  unfold getIndexerStatus, try_catchM, bind, query, logger_error, ret,
    rejections, StatusSql.SELECT_state, StatusSql.SELECT_counts,
    StatusSql.SELECT_total.
  destruct (faults w) as [|[] f1]; simpl.
  - destruct (Schema.latest _); simpl; eexists;
      (split; [reflexivity|]); simpl; repeat split; try done; auto; lia.
  - eexists. split; [reflexivity|]. simpl. repeat split; try done; auto; lia.
  - destruct (Schema.latest _); simpl.
    + destruct f1 as [|[] f2]; simpl.
      * eexists. split; [reflexivity|]. simpl.
        repeat split; try done; auto; lia.
      * eexists. split; [reflexivity|]. simpl.
        repeat split; try done; auto; lia.
      * destruct f2 as [|[] f3]; simpl; eexists;
          (split; [reflexivity|]); simpl; repeat split; try done; auto; lia.
    + eexists. split; [reflexivity|]. simpl.
      repeat split; try done; auto; lia.
Qed.

(** ** Many cycles *)

Lemma processEvents_elem (raw : list EventResponse.t) (evt : LoanEvent.t) :
  evt ∈ processEvents raw ->
  exists e, e ∈ raw /\ processEvent e = Ok (Push evt).
Proof.
  induction raw as [|e raw IH]; intros Hin.
  - by apply elem_of_nil in Hin.
  - rewrite processEvents_cons in Hin. apply elem_of_app in Hin as [Hin|Hin].
    + unfold pushed in Hin.
      destruct (processEvent e) as [[|evt0]|] eqn:Hpe;
        try (by apply elem_of_nil in Hin).
      apply list_elem_of_singleton in Hin as ->.
      exists e. split; [by apply elem_of_cons; left|done].
    + destruct (IH Hin) as (e' & He' & Hpe).
      exists e'. split; [by apply elem_of_cons; right|done].
Qed.

Lemma decoded_row_written_by_indexer
    (e : EventResponse.t) (evt : LoanEvent.t) (now : Z) :
  processEvent e = Ok (Push evt) ->
  written_by_indexer (insert_params evt now).
Proof.
  intros Hpe.
  destruct (processEvent_copies e evt Hpe) as (_&_&_&_&_&_&_& Ha & Hl & _).
  split; [by eexists|]. split.
  - exists (decodeAmount (EventResponse.value e)).
    pose proof (decodeAmount_nonempty (EventResponse.value e)) as Hne.
    split; [|done]. simpl. rewrite Ha. simpl. unfold Js.truthy_string.
    by destruct (String.eqb_spec (decodeAmount (EventResponse.value e)) "").
  - simpl. rewrite Hl. unfold number_or_null, Js.truthy_number.
    destruct (EventResponse.topic e !! 2%nat ≫= decodeLoanId) as [n|];
      simpl; [|done].
    destruct (Z.eqb_spec n 0); simpl; congruence.
Qed.

Lemma store_all_written_by_indexer (now : Z) (raw : list EventResponse.t)
    (t : Schema.Tables) :
  Forall written_by_indexer (Schema.loan_events t) ->
  Forall written_by_indexer
    (Schema.loan_events (store_all now (processEvents raw) t)).
Proof.
  intros Hall.
  destruct (store_all_new_rows now (processEvents raw) t)
    as (rows & -> & Hrows).
  apply Forall_app. split; [done|].
  eapply Forall_impl; [exact Hrows|].
  intros r (_ & evt & Hevt & ->).
  destruct (processEvents_elem raw evt Hevt) as (e & _ & Hpe).
  by eapply decoded_row_written_by_indexer.
Qed.

Lemma update_state_single_row (ledger : Z) (cursor : string) (now : Z)
    (t : Schema.Tables) :
  (exists l c u, Schema.indexer_state t = [Schema.mk_indexer_state 1 l c u]) ->
  exists l c u,
    Schema.indexer_state (Schema.update_state ledger cursor now t)
    = [Schema.mk_indexer_state 1 l c u].
Proof.
  intros (l & c & u & Hst). unfold Schema.update_state. rewrite Hst. simpl.
  eauto.
Qed.

Lemma sound_tables_store_all (now : Z) (raw : list EventResponse.t)
    (t : Schema.Tables) :
  sound_tables t -> sound_tables (store_all now (processEvents raw) t).
Proof.
  intros (Hu & Hw & Hst). split; [by apply store_all_unique|].
  split; [by apply store_all_written_by_indexer|].
  by rewrite store_all_indexer_state.
Qed.

Lemma sound_tables_update_state (ledger : Z) (cursor : string) (now : Z)
    (t : Schema.Tables) :
  sound_tables t -> sound_tables (Schema.update_state ledger cursor now t).
Proof.
  intros (Hu & Hw & Hst). unfold sound_tables, unique_event_ids.
  rewrite update_state_loan_events. split; [done|]. split; [done|].
  by apply update_state_single_row.
Qed.

(** One cycle keeps the tables sound. *)
Lemma indexEvents_sound_tables (cfg : IndexerConfig.t) (w : World) :
  Db.idle (db w) ->
  sound_tables (Db.committed (db w)) ->
  sound_tables (Db.committed (db (snd (indexEvents cfg w)))).
Proof.
  intros Hidle Hs.
  destruct (indexEvents_cases cfg w Hidle) as (Hcase & _).
  destruct Hcase as
    [ _ _ Hdb _ _ | err _ _ _ Hdb _ | resp _ _ _ _ Hdb _
    | resp raw _ _ _ _ _ Hc | resp raw _ _ _ _ _ Hdb
    | resp raw l _ _ _ _ _ Hdb ];
    rewrite ?Hdb, ?Hc; simpl; try done.
  - by apply sound_tables_store_all.
  - by apply sound_tables_update_state, sound_tables_store_all.
Qed.

(** The schedule is only ever used up. *)
Lemma indexEvents_rejections (cfg : IndexerConfig.t) (w : World) :
  Db.idle (db w) ->
  (rejections (snd (indexEvents cfg w)) <= rejections w)%nat.
Proof.
  intros Hidle.
  destruct (decide (head (faults w) = Some true)) as [Hhd|Hhd].
  { destruct (faults w) as [|f rest] eqn:Hf; [done|].
    injection Hhd as ->.
    rewrite (indexEvents_state_read_fails cfg w rest Hf).
    unfold rejections. simpl. rewrite Hf. simpl. lia. }
  rewrite (indexEvents_state_read cfg w Hhd).
  pose proof (rejections_after_fetch cfg w) as Haf.
  destruct (answer cfg w) as [resp|err]; [|done].
  destruct (Rpc.events resp) as [[|e raw]|]; [done| |done].
  pose proof (storeEvents_rejections (processEvents (e :: raw))
                (after_fetch cfg w)) as Hsp.
  unfold bind.
  destruct (storeEvents (processEvents (e :: raw)) (after_fetch cfg w))
    as [[[]|err] w2]; simpl in *; [|lia].
  destruct (last_cons_is_Some e raw) as [l Hl]. rewrite Hl.
  unfold updateIndexerState, query, Db.UPDATE_state, rejections in *.
  destruct (Pg.int4 _ && Pg.varchar 255 _);
    destruct (faults w2) as [|[] rest]; simpl in *; lia.
Qed.

Lemma cycle_world (cfg : IndexerConfig.t) (w : World) :
  fst (cycle cfg w) = Ok tt /\
  db (snd (cycle cfg w)) = db (snd (indexEvents cfg w)) /\
  faults (snd (cycle cfg w)) = faults (snd (indexEvents cfg w)) /\
  log (snd (cycle cfg w))
  = (if is_ok (fst (indexEvents cfg w))
     then log (snd (indexEvents cfg w))
     else log (snd (indexEvents cfg w)) ++ ["Indexing error"])%list.
Proof.
  unfold cycle, try_catchM, logger_error.
  by destruct (indexEvents cfg w) as [[[]|err] w1].
Qed.

Lemma sound_tables_up (now : Z) : sound_tables (Schema.up now).
Proof.
  split; [apply NoDup_nil_2|]. split; [constructor|]. simpl. eauto.
Qed.

(** X16: the tables stay sound over any number of cycles.  Start from
    tables in which event ids are unique, every event row looks as the
    indexer writes it (a kind of the three, a non-empty amount, a loan id
    that is not 0) and [indexer_state] is the single row of the migration;
    the tables that the migration creates are such.  Then after any number
    of cycles run one after the other, whatever the source answers and
    with at most one query rejected in all, the same holds, and no
    transaction is left open. *)
Theorem X16_tables_stay_sound_over_cycles
    (cfg : IndexerConfig.t) (n : nat) (w : World) :
  Db.idle (db w) ->
  (rejections w <= 1)%nat ->
  sound_tables (Db.committed (db w)) ->
  Db.idle (db (cycles_of n cfg w)) /\
  sound_tables (Db.committed (db (cycles_of n cfg w))).
Proof.
  revert w. induction n as [|n IH]; intros w Hidle Hrej Hs; [done|].
  simpl.
  destruct (cycle_world cfg w) as (_ & Hdb & Hf & _).
  apply IH.
  - rewrite Hdb. by apply indexEvents_ends_idle.
  - pose proof (indexEvents_rejections cfg w Hidle) as Hle.
    unfold rejections in *. rewrite Hf. lia.
  - rewrite Hdb. by apply indexEvents_sound_tables.
Qed.

Lemma X16_tables_stay_sound_over_cycles_witness :
  sound_tables
    (Db.committed
       (db (cycles_of 3 SampleWorld.cfg
              (SampleWorld.fresh [false; false; false; true]
                 SampleWorld.approvals)))).
Proof.
  apply (X16_tables_stay_sound_over_cycles SampleWorld.cfg 3
           (SampleWorld.fresh [false; false; false; true] SampleWorld.approvals)).
  - reflexivity.
  - vm_compute. lia.
  - apply sound_tables_up.
Defined.

Lemma indexEvents_log (cfg : IndexerConfig.t) (w : World) :
  Db.idle (db w) -> log (snd (indexEvents cfg w)) = log w.
Proof.
  intros Hidle.
  destruct (decide (head (faults w) = Some true)) as [Hhd|Hhd].
  { destruct (faults w) as [|f rest] eqn:Hf; [done|].
    injection Hhd as ->.
    by rewrite (indexEvents_state_read_fails cfg w rest Hf). }
  rewrite (indexEvents_state_read cfg w Hhd).
  destruct (answer cfg w) as [resp|err]; [|done].
  destruct (Rpc.events resp) as [[|e raw]|]; [done| |done].
  assert (Hidle' : Db.idle (db (after_fetch cfg w))) by done.
  destruct (storeEvents_outcome (processEvents (e :: raw))
              (after_fetch cfg w) Hidle') as ((_ & _ & _ & Hlog) & _).
  unfold bind.
  destruct (storeEvents (processEvents (e :: raw)) (after_fetch cfg w))
    as [[[]|err] w2]; simpl in Hlog; [|done].
  destruct (last_cons_is_Some e raw) as [l Hl]. rewrite Hl.
  unfold updateIndexerState, query, Db.UPDATE_state.
  destruct (Pg.int4 _ && Pg.varchar 255 _);
    destruct (faults w2) as [|[] rest]; simpl; done.
Qed.

(** X19: [poll] swallows every failure of a cycle and logs it.  The
    [try] block around [indexEvents] never lets an exception out; a cycle
    that fails, at whichever step, adds exactly the entry "Indexing error"
    to the log, and a cycle that succeeds adds nothing. *)
Theorem X19_failed_cycle_is_logged_not_thrown
    (cfg : IndexerConfig.t) (w : World) :
  Db.idle (db w) ->
  fst (cycle cfg w) = Ok tt /\
  log (snd (cycle cfg w))
  = (if is_ok (fst (indexEvents cfg w)) then log w
     else log w ++ ["Indexing error"])%list.
Proof.
  intros Hidle.
  destruct (cycle_world cfg w) as (Hok & _ & _ & Hlog).
  split; [done|]. by rewrite Hlog, indexEvents_log.
Qed.

Lemma X19_failed_cycle_is_logged_not_thrown_witness :
  log (snd (cycle SampleWorld.cfg
              (SampleWorld.make (Schema.up 0) [] (Throw "ECONNREFUSED"))))
  = ["Indexing error"].
Proof.
  destruct (X19_failed_cycle_is_logged_not_thrown SampleWorld.cfg
              (SampleWorld.make (Schema.up 0) [] (Throw "ECONNREFUSED")))
    as (_ & H).
  - reflexivity.
  - rewrite H. reflexivity.
Defined.
(** ** What the column types let through *)

Lemma storeEvent_ok_accepted (e : LoanEvent.t) (w : World) (t : Schema.Tables) :
  Db.tx (db w) = Some t ->
  is_ok (fst (storeEvent e w)) = true ->
  Schema.select_event (LoanEvent.eventId e) t = [] ->
  storable e = true.
Proof.
  intros Htx Hok Hsel.
  destruct (storable e) eqn:Hst; [done|exfalso].
  assert (Hview : Db.view (db w) = t) by (unfold Db.view; by rewrite Htx).
  revert Hok. unfold storeEvent, bind, query at 1, Db.SELECT_event.
  destruct (faults w) as [|[] rest]; simpl; try done;
    rewrite Hview, Hsel; unfold query, Db.INSERT_event, Schema.insert_event;
    simpl; rewrite accepts_insert_params, Hst; simpl; try done.
  by destruct rest as [|[] ?].
Qed.

(** The rows that a batch has added when the loop over it returns: rows
    of its events that the column types have let through, for ids that
    had no row. *)
Lemma for_of_ok_rows (events : list LoanEvent.t) :
  forall (w : World) (t : Schema.Tables),
    Db.tx (db w) = Some t ->
    is_ok (fst (for_of events storeEvent w)) = true ->
    exists rows,
      Schema.loan_events (store_all (now w) events t)
      = (Schema.loan_events t ++ rows)%list /\
      Forall (fun r =>
                Schema.accepts r = true /\
                count_event (Schema.event_id r) t = 0%nat /\
                exists e, e ∈ events /\ r = insert_params e (now w))
             rows.
Proof.
  induction events as [|e events IH]; intros w t Htx Hok.
  { exists []. split; [by rewrite app_nil_r|constructor]. }
  simpl in Hok. unfold bind in Hok.
  pose proof (storeEvent_outcome e w t Htx) as Hout.
  pose proof (storeEvent_ok_accepted e w t Htx) as Hacc.
  destruct (storeEvent e w) as [[[]|err] w1]; [|done].
  destruct Hout as ((Hnow & _) & Hdb). simpl in Hnow, Hdb, Hok, Hacc.
  destruct (IH w1 (store_one (now w) t e)) as (rows1 & Hrows1 & Hall1);
    [by rewrite Hdb|done|].
  rewrite Hnow in Hrows1, Hall1.
  assert (Hall1' :
    Forall (fun r =>
              Schema.accepts r = true /\
              count_event (Schema.event_id r) t = 0%nat /\
              exists e0, e0 ∈ e :: events /\ r = insert_params e0 (now w))
           rows1).
  { eapply Forall_impl; [exact Hall1|].
    intros r (Ha & Hc & e0 & He0 & Hr). split; [done|]. split.
    - pose proof (store_one_count_mono (now w) t e (Schema.event_id r)). lia.
    - exists e0. split; [by apply list_elem_of_further|done]. }
  rewrite store_all_cons, Hrows1. unfold store_one.
  destruct (Schema.select_event (LoanEvent.eventId e) t) eqn:Hsel.
  - exists (insert_params e (now w) :: rows1). simpl.
    split; [by rewrite <- app_assoc|].
    constructor; [|done]. split; [|split].
    + rewrite accepts_insert_params. by apply Hacc.
    + unfold count_event. simpl. by rewrite Hsel.
    + exists e. split; [apply list_elem_of_here|done].
  - by exists rows1.
Qed.

Lemma storeEvents_ok_rows (events : list LoanEvent.t) (w : World) :
  Db.idle (db w) ->
  is_ok (fst (storeEvents events w)) = true ->
  exists rows,
    Schema.loan_events (store_all (now w) events (Db.committed (db w)))
    = (Schema.loan_events (Db.committed (db w)) ++ rows)%list /\
    Forall (fun r =>
              Schema.accepts r = true /\
              count_event (Schema.event_id r) (Db.committed (db w)) = 0%nat /\
              exists e, e ∈ events /\ r = insert_params e (now w))
           rows.
Proof.
  intros Hidle Hok. unfold Db.idle in Hidle.
  destruct events as [|e events].
  { exists []. split; [by rewrite app_nil_r|constructor]. }
  unfold storeEvents, try_catchM in Hok. cbv beta iota in Hok.
  destruct ((let* _ := query Db.BEGIN in
             let* _ := for_of (e :: events) storeEvent in
             query Db.COMMIT) w) as [[[]|err] w3] eqn:Hbody.
  2:{ unfold bind, query, throw, Db.ROLLBACK in Hok.
      by destruct (faults w3) as [|[] ?]. }
  clear Hok. unfold bind in Hbody.
  pose proof (query_outcome Db.BEGIN w
                (fun _ d => d = Db.mk (Db.committed (db w))
                                      (Some (Db.committed (db w))))) as Hb.
  destruct (query Db.BEGIN w) as [[[]|err] w1]; [|done].
  destruct Hb as ((Hnow & _) & Hdb).
  { unfold Db.BEGIN. rewrite Hidle. by intros [] d [= <-]. }
  simpl in Hnow, Hdb.
  destruct (for_of (e :: events) storeEvent w1) as [[[]|err] w2] eqn:Hloop;
    [|done].
  destruct (for_of_ok_rows (e :: events) w1 (Db.committed (db w)))
    as (rows & Hr & Hall).
  - by rewrite Hdb.
  - by rewrite Hloop.
  - rewrite Hnow in Hr, Hall. by exists rows.
Qed.

(** The same for the rows that a cycle adds, whatever its end. *)
Lemma indexEvents_rows (cfg : IndexerConfig.t) (w : World) :
  Db.idle (db w) ->
  exists rows,
    Schema.loan_events (Db.committed (db (snd (indexEvents cfg w))))
    = (Schema.loan_events (Db.committed (db w)) ++ rows)%list /\
    Forall (fun r =>
              Schema.accepts r = true /\
              exists resp raw e evt,
                answer cfg w = Ok resp /\ Rpc.events resp = Some raw /\
                e ∈ raw /\ processEvent e = Ok (Push evt) /\
                r = insert_params evt (now w))
           rows.
Proof.
  intros Hidle.
  assert (Hnone :
    forall c',
      Schema.loan_events c' = Schema.loan_events (Db.committed (db w)) ->
      exists rows,
        Schema.loan_events c'
        = (Schema.loan_events (Db.committed (db w)) ++ rows)%list /\
        Forall (fun r =>
                  Schema.accepts r = true /\
                  exists resp raw e evt,
                    answer cfg w = Ok resp /\ Rpc.events resp = Some raw /\
                    e ∈ raw /\ processEvent e = Ok (Push evt) /\
                    r = insert_params evt (now w))
               rows).
  { intros c' ->. exists []. split; [by rewrite app_nil_r|constructor]. }
  assert (Hstored :
    forall resp raw,
      answer cfg w = Ok resp -> Rpc.events resp = Some raw ->
      fst (storeEvents (processEvents raw) (after_fetch cfg w)) = Ok tt ->
      exists rows,
        Schema.loan_events
          (store_all (now w) (processEvents raw) (Db.committed (db w)))
        = (Schema.loan_events (Db.committed (db w)) ++ rows)%list /\
        Forall (fun r =>
                  Schema.accepts r = true /\
                  exists resp raw e evt,
                    answer cfg w = Ok resp /\ Rpc.events resp = Some raw /\
                    e ∈ raw /\ processEvent e = Ok (Push evt) /\
                    r = insert_params evt (now w))
               rows).
  { intros resp raw Hans Hraw Hst.
    destruct (storeEvents_ok_rows (processEvents raw) (after_fetch cfg w))
      as (rows & Hr & Hall); [done|by rewrite Hst|].
    exists rows. split; [exact Hr|].
    eapply Forall_impl; [exact Hall|].
    intros r (Ha & _ & evt & Hevt & ->). split; [done|].
    destruct (processEvents_elem raw evt Hevt) as (e & He & Hpe).
    by exists resp, raw, e, evt. }
  destruct (indexEvents_cases cfg w Hidle) as (Hcase & _).
  destruct Hcase as
    [ _ _ Hdb _ _ | err _ _ _ Hdb _ | resp _ _ _ _ Hdb _
    | resp raw _ _ _ _ _ Hc
    | resp raw _ Hans Hraw _ _ Hdb Hst
    | resp raw l _ Hans Hraw _ _ Hdb Hst ].
  - apply Hnone. by rewrite Hdb.
  - apply Hnone. by rewrite Hdb.
  - apply Hnone. by rewrite Hdb.
  - apply Hnone. by rewrite Hc.
  - rewrite Hdb. simpl. by eapply Hstored.
  - rewrite Hdb. simpl. rewrite update_state_loan_events. by eapply Hstored.
Qed.

(** X4: no amount and no address is ever stored.  Whatever the faults and
    the answer of the source, every row that a cycle adds to [loan_events]
    has the amount 0 and, as borrower, the empty string or the text
    "[object Object]", and it is the row of a raw event of the batch whose
    payload is not an [i128]: the amount of an [i128] payload is rendered
    as "[object Object]", which the [numeric] column refuses. *)
Theorem X4_no_amount_is_ever_stored (cfg : IndexerConfig.t) (w : World) :
  Db.idle (db w) ->
  exists rows,
    Schema.loan_events (Db.committed (db (snd (indexEvents cfg w))))
    = (Schema.loan_events (Db.committed (db w)) ++ rows)%list /\
    Forall (fun r =>
              Schema.amount r = Some "0" /\
              (Schema.borrower r = "" \/
               Schema.borrower r = "[object Object]") /\
              exists resp raw e,
                answer cfg w = Ok resp /\ Rpc.events resp = Some raw /\
                e ∈ raw /\ Schema.event_id r = EventResponse.id e /\
                forall v, EventResponse.value e <> scvI128 v)
           rows.
Proof.
  intros Hidle.
  destruct (indexEvents_rows cfg w Hidle) as (rows & Hr & Hall).
  exists rows. split; [exact Hr|].
  eapply Forall_impl; [exact Hall|].
  intros r (Hacc & resp & raw & e & evt & Hans & Hraw & He & Hpe & ->).
  destruct (processEvent_copies e evt Hpe)
    as (Hid & _ & _ & _ & _ & _ & _ & Ha & _ & Hb).
  assert (Hnot : forall v, EventResponse.value e <> scvI128 v).
  { intros v Hv.
    destruct (i128_payload_not_storable e evt v Hpe Hv) as (_ & Hst).
    rewrite accepts_insert_params in Hacc. congruence. }
  split; [|split].
  - simpl. rewrite Ha, decodeAmount_arms.
    destruct (EventResponse.value e); try done. by destruct (Hnot v).
  - simpl. destruct (EventResponse.topic e !! 1%nat) as [t1|]; [|done].
    injection Hb as ->. rewrite decodeAddress_arms. destruct t1; auto.
  - by exists resp, raw, e.
Qed.

Lemma X4_no_amount_is_ever_stored_witness :
  let w := SampleWorld.fresh [] SampleWorld.approvals in
  exists rows,
    Schema.loan_events (Db.committed (db (snd (indexEvents SampleWorld.cfg w))))
    = (Schema.loan_events (Db.committed (db w)) ++ rows)%list /\
    length rows = 3%nat /\
    Forall (fun r => Schema.amount r = Some "0") rows.
Proof.
  intros w.
  destruct (X4_no_amount_is_ever_stored SampleWorld.cfg w)
    as (rows & Hr & Hall); [reflexivity|].
  exists rows. split; [exact Hr|]. split.
  - apply (f_equal length) in Hr. rewrite length_app in Hr.
    vm_compute in Hr. vm_compute. lia.
  - eapply Forall_impl; [exact Hall|]. by intros r (Ha & _).
Defined.

(** X23: storing is idempotent on the events that the store takes.  With
    the database answering every query: storing a batch whose events all
    have their row already returns normally and changes nothing; after
    storing a batch of events that the column types take, once or any
    number of times more, each of its events has exactly one row and the
    ids are still unique; and the [unique] constraint on [event_id] makes
    the INSERT of a second row with the same id fail. *)
Theorem X23_storing_is_idempotent_on_storable_events
    (events : list LoanEvent.t) (w : World) (n : nat) :
  faults w = [] ->
  Db.idle (db w) ->
  unique_event_ids (Db.committed (db w)) ->
  ((forall e, e ∈ events ->
      (1 <= count_event (LoanEvent.eventId e) (Db.committed (db w)))%nat) ->
   fst (storeEvents events w) = Ok tt /\
   db (snd (storeEvents events w)) = db w) /\
  (forallb storable events = true ->
   fst (storeEvents_times (S n) events w) = Ok tt /\
   Forall (fun e =>
             count_event (LoanEvent.eventId e)
               (Db.committed (db (snd (storeEvents_times (S n) events w))))
             = 1%nat)
          events /\
   unique_event_ids
     (Db.committed (db (snd (storeEvents_times (S n) events w))))) /\
  (forall row t,
     (1 <= count_event (Schema.event_id row) t)%nat ->
     is_ok (Schema.insert_event row t) = false).
Proof.
  intros Hf Hidle Huniq. split; [|split].
  - intros Hall.
    destruct (storeEvents_no_fault events w Hf Hidle) as (Hok & Hdb & _).
    { intros e He Hc. specialize (Hall e He). lia. }
    split; [done|]. rewrite Hdb, store_all_present by done.
    unfold Db.idle in Hidle. destruct (db w); simpl in *. by subst.
  - intros Hst.
    destruct (storeEvents_times_no_fault (S n) events w Hf Hidle)
      as (Hok & Hdb).
    { intros e He _. rewrite forallb_forall in Hst.
      by apply Hst, list_elem_of_In. }
    split; [done|]. rewrite Hdb. simpl.
    pose proof (store_all_unique (now w) events _ Huniq) as Hu.
    split; [|done].
    apply Forall_forall. intros e He.
    pose proof (unique_count_le_1 (LoanEvent.eventId e) _ Hu).
    pose proof (store_all_stored (now w) events e (Db.committed (db w)) He).
    lia.
  - apply insert_event_duplicate.
Qed.

Lemma X23_storing_is_idempotent_on_storable_events_witness :
  let w := SampleWorld.fresh [] [] in
  let events := processEvents SampleWorld.approvals in
  fst (storeEvents_times 3 events w) = Ok tt /\
  Forall (fun e =>
            count_event (LoanEvent.eventId e)
              (Db.committed (db (snd (storeEvents_times 3 events w))))
            = 1%nat)
         events.
Proof.
  intros w events.
  destruct (X23_storing_is_idempotent_on_storable_events events w 2)
    as (_ & H & _).
  - reflexivity.
  - reflexivity.
  - apply NoDup_nil_2.
  - destruct H as (Hok & Hcount & _).
    + reflexivity.
    + by split.
Defined.

(** ** An event that the store does not take *)

Lemma processEvents_ids_sublist (raw : list EventResponse.t) :
  sublist (map LoanEvent.eventId (processEvents raw))
          (map EventResponse.id raw).
Proof.
  induction raw as [|e raw IH]; [constructor|].
  rewrite processEvents_cons. unfold pushed.
  destruct (processEvent e) as [[|evt]|] eqn:Hpe; simpl.
  - by apply sublist_cons.
  - destruct (processEvent_copies e evt Hpe) as (-> & _).
    by apply sublist_skip.
  - by apply sublist_cons.
Qed.

Lemma processEvents_elem_of (raw : list EventResponse.t)
    (e : EventResponse.t) (evt : LoanEvent.t) :
  e ∈ raw -> processEvent e = Ok (Push evt) -> evt ∈ processEvents raw.
Proof.
  intros He Hpe.
  apply list_elem_of_split in He as (l1 & l2 & ->).
  rewrite (processEvents_at l1 l2 e evt Hpe).
  apply elem_of_app. right. apply list_elem_of_here.
Qed.

Lemma NoDup_map_eq {A B} (f : A -> B) (l : list A) (x y : A) :
  NoDup (map f l) -> x ∈ l -> y ∈ l -> f x = f y -> x = y.
Proof.
  induction l as [|a l IH]; intros Hnd Hx Hy Heq.
  - by apply elem_of_nil in Hx.
  - simpl in Hnd. apply NoDup_cons in Hnd as (Hna & Hnd).
    apply elem_of_cons in Hx as [->|Hx];
      apply elem_of_cons in Hy as [->|Hy]; try done.
    + destruct Hna. rewrite Heq. by apply (list_elem_of_fmap_2 f).
    + destruct Hna. rewrite <- Heq. by apply (list_elem_of_fmap_2 f).
    + by apply IH.
Qed.

Lemma count_event_rows (eid : string) (rows more : list Schema.loan_events_row)
    (st : list Schema.indexer_state_row) :
  count_event eid (Schema.mk_tables rows st) = 0%nat ->
  (1 <= count_event eid (Schema.mk_tables (rows ++ more)%list st))%nat ->
  exists r, r ∈ more /\ Schema.event_id r = eid.
Proof.
  unfold count_event, Schema.select_event. simpl.
  rewrite List.filter_app, length_app. intros -> Hone. simpl in Hone.
  destruct (List.filter _ more) as [|r l] eqn:Hfil; [simpl in Hone; lia|].
  assert (Hin : In r (List.filter
                        (fun r => String.eqb (Schema.event_id r) eid) more))
    by (rewrite Hfil; by left).
  apply List.filter_In in Hin as (Hin & Heq).
  exists r. split; [by apply list_elem_of_In|].
  by apply String.eqb_eq.
Qed.

(** A batch with an event that the column types do not take, and that
    has no row yet, is not stored, whatever the faults. *)
Lemma storeEvents_refuses (events : list LoanEvent.t) (evt : LoanEvent.t)
    (w : World) :
  Db.idle (db w) ->
  NoDup (map LoanEvent.eventId events) ->
  evt ∈ events ->
  storable evt = false ->
  count_event (LoanEvent.eventId evt) (Db.committed (db w)) = 0%nat ->
  is_ok (fst (storeEvents events w)) = false.
Proof.
  intros Hidle Hnd Hin Hst Hc.
  destruct (is_ok (fst (storeEvents events w))) eqn:Hok; [exfalso|done].
  destruct (storeEvents_ok_rows events w Hidle Hok) as (rows & Hr & Hall).
  pose proof (store_all_stored (now w) events evt (Db.committed (db w)) Hin)
    as Hone.
  destruct (count_event_rows (LoanEvent.eventId evt)
              (Schema.loan_events (Db.committed (db w))) rows
              (Schema.indexer_state (Db.committed (db w))))
    as (r & Hrin & Hrid).
  - rewrite <- Hc. by apply count_event_ext.
  - etrans; [exact Hone|]. apply Nat.eq_le_incl, count_event_ext.
    by rewrite Hr.
  - rewrite Forall_forall in Hall.
    destruct (Hall r Hrin) as (Hacc & _ & e' & He' & ->).
    simpl in Hrid.
    assert (e' = evt) by (by eapply (NoDup_map_eq LoanEvent.eventId events)).
    subst e'. rewrite accepts_insert_params in Hacc. congruence.
Qed.

(** X24: an event with an amount blocks its batch.  Let the source answer
    a cycle with a batch, of distinct ids, in which some event that the
    decoder accepts has an [i128] as payload and no row yet.  Then,
    whatever the faults, the cycle fails and the committed tables are as
    they were: no event of the batch is stored and the progress is not
    advanced. *)
Theorem X24_event_with_amount_blocks_its_batch
    (cfg : IndexerConfig.t) (w : World) (resp : Rpc.GetEventsResponse)
    (raw : list EventResponse.t) (e : EventResponse.t) (k : EventType)
    (v : Z) :
  Db.idle (db w) ->
  head (faults w) <> Some true ->
  answer cfg w = Ok resp ->
  Rpc.events resp = Some raw ->
  NoDup (map EventResponse.id raw) ->
  e ∈ raw ->
  recognised e k ->
  EventResponse.value e = scvI128 v ->
  count_event (EventResponse.id e) (Db.committed (db w)) = 0%nat ->
  is_ok (fst (indexEvents cfg w)) = false /\
  Db.committed (db (snd (indexEvents cfg w))) = Db.committed (db w).
Proof.
  intros Hidle Hhd Hans Hraw Hnd He Hrec Hv Hc.
  assert (Hex : exists evt, processEvent e = Ok (Push evt)).
  { destruct (processEvent_recognised e k Hrec) as (? & ? & _ & _ & H).
    eauto. }
  destruct Hex as [evt Hpe].
  destruct (i128_payload_not_storable e evt v Hpe Hv) as (_ & Hst).
  destruct (processEvent_copies e evt Hpe) as (Hid & _).
  assert (Hrefused :
    is_ok (fst (storeEvents (processEvents raw) (after_fetch cfg w))) = false).
  { apply (storeEvents_refuses _ evt); try done.
    - eapply sublist_NoDup; [exact Hnd|]. apply processEvents_ids_sublist.
    - by eapply processEvents_elem_of.
    - by rewrite Hid. }
  destruct (indexEvents_cases cfg w Hidle) as (Hcase & _).
  destruct Hcase as
    [ Hhd' _ _ _ _ | err _ Hans' _ _ _ | resp' _ Hans' Hraw' _ _ _
    | resp' raw' _ Hans' Hraw' _ Hok Hcm
    | resp' raw' _ Hans' Hraw' _ _ _ Hstore
    | resp' raw' l _ Hans' Hraw' _ _ _ Hstore ];
    try done; try congruence.
  - rewrite Hans in Hans'. injection Hans' as <-. rewrite Hraw in Hraw'.
    destruct Hraw' as [Hraw'|Hraw']; [done|].
    injection Hraw' as ->. by apply elem_of_nil in He.
  - rewrite Hans in Hans'. injection Hans' as <-. rewrite Hraw in Hraw'.
    injection Hraw' as <-. by rewrite Hstore in Hrefused.
  - rewrite Hans in Hans'. injection Hans' as <-. rewrite Hraw in Hraw'.
    injection Hraw' as <-. by rewrite Hstore in Hrefused.
Qed.

Lemma X24_event_with_amount_blocks_its_batch_witness :
  let w := SampleWorld.fresh [] SampleWorld.batch in
  is_ok (fst (indexEvents SampleWorld.cfg w)) = false /\
  Db.committed (db (snd (indexEvents SampleWorld.cfg w)))
  = Db.committed (db w).
Proof.
  intros w.
  apply (X24_event_with_amount_blocks_its_batch SampleWorld.cfg w
           (Rpc.mk_response (Some SampleWorld.batch) (Some "cursor-1"))
           SampleWorld.batch Sample.requested LoanRequested 1000).
  - reflexivity.
  - discriminate.
  - reflexivity.
  - reflexivity.
  - apply (bool_decide_unpack _). vm_compute. exact I.
  - apply list_elem_of_here.
  - repeat split; simpl; eauto.
  - reflexivity.
  - reflexivity.
Defined.

